(** * GTSAM slice: Gaussian conditionals, linear costs and the concurrent
      batch smoother

    Shallow embedding of
    - [cpp/GaussianConditional.cpp],
    - [gtsam_unstable/linear/LinearCost.h],
    - [gtsam_unstable/nonlinear/ConcurrentBatchSmoother.cpp],
    together with the properties stated for them.

    Conventions.  A C++ [double] is read as an exact rational ([Qc], the
    canonical rationals, so that equality is Leibniz equality); rounding is
    not modelled.  A [size_t], a [Key] and a slot are natural numbers.  A
    [std::map] is a [gmap], a [std::set] a [gset], a [std::vector] and a
    [std::queue] a list.  A C++ exception, a failed [assert] and the
    dereference of an empty [shared_ptr] end an execution with a [Fault]. *)

From Stdlib Require Import ZArith QArith Qcanon Lia String.
From Stdlib Require Qcabs.
From stdpp Require Import base option list sorting gmap fin_sets fin_maps.

Set Default Proof Using "Type".
Set Warnings "-clear-no-such-hyp".

(** ** Executions that may fail *)

(** The pointers the smoother reads through. *)
Inductive Pointer : Set :=
  | StoredFactor        (* [graph_.at(slot)] in [removeFactor] *)
  | LinearFactorBefore  (* [graph.at(0)] after [linearize] *)
  | ResultingConditional (* [result.first] of [EliminateQR] *)
  | ResultingFactor     (* [result.second] of [EliminateQR] *)
  | LinearFactorAfter   (* [graph.at(0)] after [replace] *)
  | MarginalFactor      (* [marginalFactor] *)
  | NoiseModel.         (* [jf.get_model()] *)

Inductive Fault : Set :=
  | OutOfRange                      (* an index or key out of range *)
  | InvalidArgument                 (* [std::invalid_argument] *)
  | ValuesKeyAlreadyExists
  | ValuesKeyDoesNotExist
  | AssertionFailed
  | RuntimeError (what : string)    (* [std::runtime_error] *)
  | FuelExhausted                   (* the model's bound on a loop *)
  | NullDereference (p : Pointer).

Inductive Exec (A : Type) : Type :=
  | Ok (a : A)
  | Fail (e : Fault).
Arguments Ok {A} a.
Arguments Fail {A} e.

#[global] Instance Exec_ret : MRet Exec := fun A a => Ok a.
#[global] Instance Exec_bind : MBind Exec := fun A B f m =>
  match m with
  | Ok a => f a
  | Fail e => Fail e
  end.

(** [*p] for a [shared_ptr] [p]. *)
Definition deref {A} (p : Pointer) (x : option A) : Exec A :=
  match x with
  | Some a => Ok a
  | None => Fail (NullDereference p)
  end.

(** [assert(c)]. *)
Definition assert (c : bool) : Exec unit :=
  if c then Ok tt else Fail AssertionFailed.


(** A loop over a container, [for (it = l.begin(); it != l.end(); it++)] or
    [BOOST_FOREACH(x, l)], whose body [step] may raise. *)
Fixpoint foreach {S X} (step : S -> X -> Exec S) (l : list X) (s : S)
    : Exec S :=
  match l with
  | [] => Ok s
  | x :: l' => s' ← step s x; foreach step l' s'
  end.

Abbreviation Key := nat.

(** ** Vectors and matrices *)

(** [Vector] and [Matrix] with the operations the sources call (Vector.h and
    Matrix.h are not among them).  A vector is the list of its entries, a
    matrix the list of its rows.  The operations pair the entries of their
    arguments position by position; the dimensions are taken to agree, as
    the library checks them in debug builds only. *)
Module LinearAlgebra.

Abbreviation Vector := (list Qc).
Abbreviation Matrix := (list (list Qc)).

#[global] Instance Qc_eq_decision : EqDecision Qc := Qc_eq_dec.

(** Modelled from the spec: [zero(n)] of Vector.h, the vector of [n]
    zeros. *)
Definition zero (n : nat) : Vector := replicate n 0%Qc.

(** The inner product of a row and a vector. *)
Definition dot (u v : Vector) : Qc :=
  foldr Qcplus 0%Qc (zip_with Qcmult u v).

(** Modelled from the spec: [A * v] of Matrix.h, the product of a matrix
    and a vector. *)
Definition prod (A : Matrix) (v : Vector) : Vector :=
  (fun row => dot row v) <$> A.

(** [u + v] and [u - v] *)
Definition vadd (u v : Vector) : Vector := zip_with Qcplus u v.
Definition vsub (u v : Vector) : Vector := zip_with Qcminus u v.

(** Modelled from the spec: [axpy(alpha, x, y)] of Vector.h,
    [y += alpha * x]; the new [y]. *)
Definition axpy (alpha : Qc) (x y : Vector) : Vector :=
  zip_with (fun xi yi => (alpha * xi + yi)%Qc) x y.

(** The sum of vectors of dimension [n]. *)
Definition vsum (n : nat) (us : list Vector) : Vector :=
  foldr vadd (zero n) us.

(** Modelled from the spec: [backSubstituteUpper(U, b, false)], the solution
    of [U x = b] for an upper-triangular [U] ("solve_upper_triangular").
    Row [i] gives [x(i) = (b(i) - sum_{j > i} U(i,j) x(j)) / U(i,i)] from
    the entries below it; [backSubstitute i] works on the rows from the
    [i]-th on and gives the entries of [x] from the [i]-th on. *)
Fixpoint backSubstitute (i : nat) (U : Matrix) (b : Vector) : Vector :=
  match U, b with
  | row :: U', bi :: b' =>
      let result := backSubstitute (S i) U' b' in
      let zi := (bi - dot (drop (S i) row) result)%Qc in
      (zi / nth i row 0%Qc)%Qc :: result
  | _, _ => []
  end.

Definition backSubstituteUpper (U : Matrix) (b : Vector) : Vector :=
  backSubstitute 0 U b.

(** The rows of [U], the [i]-th and following of an [n] x [n] matrix, are
    those of an upper-triangular matrix without a zero on its diagonal. *)
Fixpoint upper_from (n i : nat) (U : Matrix) : bool :=
  match U with
  | [] => true
  | row :: U' =>
      bool_decide (length row = n)
      && bool_decide (take i row = zero i)
      && negb (bool_decide (nth i row 0%Qc = 0%Qc))
      && upper_from n (S i) U'
  end.

(** [U] is square, upper-triangular and not singular. *)
Definition upper_triangular (U : Matrix) : bool :=
  upper_from (length U) 0 U.

(** Modelled from the spec: the test of [equal_with_abs_tol] on one pair of
    entries, [fabs(a - b) > tol] makes the comparison fail. *)
Definition within (tol a b : Qc) : bool :=
  if Qclt_le_dec tol (Qcabs.Qcabs (a - b)%Qc) then false else true.

(** Modelled from the spec: [equal_with_abs_tol] on vectors (Vector.h): the
    same dimension, and entries equal within [tol]. *)
Definition equal_with_abs_tol_vector (u v : Vector) (tol : Qc) : bool :=
  bool_decide (length u = length v)
  && forallb (fun ab : Qc * Qc => within tol ab.1 ab.2) (zip u v).

(** Modelled from the spec: [equal_with_abs_tol] on matrices (Matrix.h): the
    same dimensions, and entries equal within [tol]. *)
Definition equal_with_abs_tol (A B : Matrix) (tol : Qc) : bool :=
  bool_decide (length A = length B)
  && forallb (fun rows : Vector * Vector =>
                equal_with_abs_tol_vector rows.1 rows.2 tol) (zip A B).

End LinearAlgebra.

(** ** GaussianConditional.cpp *)

Module GaussianConditional.

Import LinearAlgebra.

(** A [Symbol]: a character and an index. *)
Abbreviation Symbol := (nat * nat)%type.

(** [VectorConfig]: the values of the variables. *)
Abbreviation VectorConfig := (gmap Symbol Vector).

(** [GaussianConditional]: the density [P(key | parents)] given by
    [R key = d - sum_j A_j parent_j]. *)
Record GaussianConditional : Type := {
  key_ : Symbol;
  R_ : Matrix;
  parents_ : gmap Symbol Matrix;      (* [SymbolMap<Matrix>] *)
  sigmas_ : Vector;
  d_ : Vector
}.

(** [parents_.insert(make_pair(name, S))]: an entry already there stays. *)
Definition parents_insert (name : Symbol) (S : Matrix)
    (parents : gmap Symbol Matrix) : gmap Symbol Matrix :=
  match parents !! name with
  | Some _ => parents
  | None => <[name := S]> parents
  end.

(** The four constructors. *)
Definition GaussianConditional0 (key : Symbol) (d : Vector) (R : Matrix)
    (sigmas : Vector) : GaussianConditional :=
  {| key_ := key; R_ := R; parents_ := ∅; sigmas_ := sigmas; d_ := d |}.

Definition GaussianConditional1 (key : Symbol) (d : Vector) (R : Matrix)
    (name1 : Symbol) (S : Matrix) (sigmas : Vector) : GaussianConditional :=
  {| key_ := key; R_ := R; parents_ := parents_insert name1 S ∅;
     sigmas_ := sigmas; d_ := d |}.

Definition GaussianConditional2 (key : Symbol) (d : Vector) (R : Matrix)
    (name1 : Symbol) (S : Matrix) (name2 : Symbol) (T : Matrix)
    (sigmas : Vector) : GaussianConditional :=
  {| key_ := key; R_ := R;
     parents_ := parents_insert name2 T (parents_insert name1 S ∅);
     sigmas_ := sigmas; d_ := d |}.

Definition GaussianConditionalN (key : Symbol) (d : Vector) (R : Matrix)
    (parents : gmap Symbol Matrix) (sigmas : Vector) : GaussianConditional :=
  {| key_ := key; R_ := R; parents_ := parents; sigmas_ := sigmas; d_ := d |}.

(** [GaussianConditional::parents].  The keys come in the order in which
    the map is listed here, which need not be the order of [Symbol]; the
    properties below use the list for membership only. *)
Definition parents (c : GaussianConditional) : list Symbol :=
  (map_to_list (parents_ c)).*1.

(** Modelled from the spec: [x[j]] of a [VectorConfig] (VectorConfig.h is
    not among the sources); a missing key is a precondition violation,
    raised as [std::invalid_argument]. *)
Definition VectorConfig_get (x : VectorConfig) (j : Symbol) : Exec Vector :=
  match x !! j with
  | Some v => Ok v
  | None => Fail InvalidArgument
  end.

(** One turn of the loop of [solve]: [axpy(-1, Aj * x[j], rhs)]. *)
Definition solve_step (x : VectorConfig) (rhs : Vector)
    (parent : Symbol * Matrix) : Exec Vector :=
  xj ← VectorConfig_get x parent.1;
  Ok (axpy (-1)%Qc (prod parent.2 xj) rhs).

(** The right-hand side [solve] builds, lines 97-102. *)
Definition solve_rhs (c : GaussianConditional) (x : VectorConfig)
    : Exec Vector :=
  foreach (solve_step x) (map_to_list (parents_ c)) (d_ c).

(** [GaussianConditional::solve] *)
Definition solve (c : GaussianConditional) (x : VectorConfig) : Exec Vector :=
  rhs ← solve_rhs c x;
  Ok (backSubstituteUpper (R_ c) rhs).

(** The invariant of a conditional: [R] is square, upper-triangular and not
    singular; [d] and [sigmas] have its dimension, and so has every product
    [A_j x_j] (the matrix [A_j] has as many rows). *)
Definition well_formed (c : GaussianConditional) : bool :=
  upper_triangular (R_ c)
  && bool_decide (length (d_ c) = length (R_ c))
  && bool_decide (length (sigmas_ c) = length (R_ c))
  && forallb (fun parent : Symbol * Matrix =>
                bool_decide (length parent.2 = length (R_ c)))
       (map_to_list (parents_ c)).

(** The values of an assignment fit the conditional: the value of a parent
    has as many entries as the parent's matrix has columns, so that each
    product [A_j x[p_j]] is defined. *)
Definition dimensions_agree (c : GaussianConditional) (x : VectorConfig)
    : Prop :=
  ∀ j A xj, parents_ c !! j = Some A → x !! j = Some xj →
            Forall (λ row : Vector, length row = length xj) A.

(** The terms [A_j x[p_j]] of the parents, in the order [solve] meets
    them. *)
Definition parent_terms (c : GaussianConditional) (x : VectorConfig)
    : list Vector :=
  (fun parent : Symbol * Matrix => prod parent.2 (default [] (x !! parent.1)))
    <$> map_to_list (parents_ c).

(** [GaussianConditional::equals].  The test of the base class,
    [Conditional::equals] (Conditional.h is not among the sources), is
    modelled from the spec as the comparison of the keys; the argument is a
    [GaussianConditional], so the cast succeeds.  The loop over the parents
    returns false at the first parent that the other conditional does not
    have or has with a different matrix. *)
Definition equals (c p : GaussianConditional) (tol : Qc) : bool :=
  if negb (bool_decide (key_ c = key_ p)) then false else
  (* check if the size of the parents_ map is the same *)
  if negb (bool_decide (size (parents_ c) = size (parents_ p))) then false else
  (* check if R_ is equal *)
  if negb (equal_with_abs_tol (R_ c) (R_ p) tol) then false else
  (* check if d_ is equal *)
  if negb (equal_with_abs_tol_vector (d_ c) (d_ p) tol) then false else
  (* check if sigmas are equal *)
  if negb (equal_with_abs_tol_vector (sigmas_ c) (sigmas_ p) tol) then false
  else
  (* check if the matrices are the same *)
  forallb (fun parent : Symbol * Matrix =>
             match parents_ p !! parent.1 with
             | Some B => equal_with_abs_tol parent.2 B tol
             | None => false
             end) (map_to_list (parents_ c)).

End GaussianConditional.

(** ** LinearCost.h *)

Module LinearCost.

Import LinearAlgebra.

Abbreviation RowVector := (list Qc).

(** [VectorValues]: the values of the variables. *)
Abbreviation VectorValues := (gmap Key Vector).

(** A [noiseModel::Diagonal] as far as the conversion looks at it. *)
Record Diagonal : Type := {
  dim : nat;
  constrained : bool     (* [isConstrained()] *)
}.

(** Modelled from the spec: [JacobianFactor] (JacobianFactor.h is not among
    the sources): the keys, one block [A_i] per key, the right-hand side
    [b] and the noise model, a pointer that is empty for a factor built
    without one. *)
Record JacobianFactor : Type := {
  keys_ : list Key;
  Ab_ : list Matrix;
  getb : Vector;
  get_model : option Diagonal
}.


(** Modelled from the spec: the constructors of [JacobianFactor] that
    [LinearCost] calls, each without a noise model: the default one, the
    unary, binary and ternary ones, and the one from a container of terms. *)
Definition JacobianFactor0 : JacobianFactor :=
  {| keys_ := []; Ab_ := []; getb := []; get_model := None |}.

Definition JacobianFactorN (terms : list (Key * Matrix)) (b : Vector)
    : JacobianFactor :=
  {| keys_ := terms.*1; Ab_ := terms.*2; getb := b; get_model := None |}.

Definition JacobianFactor1 (i1 : Key) (A1 : Matrix) (b : Vector)
    : JacobianFactor :=
  JacobianFactorN [(i1, A1)] b.

Definition JacobianFactor2 (i1 : Key) (A1 : Matrix) (i2 : Key) (A2 : Matrix)
    (b : Vector) : JacobianFactor :=
  JacobianFactorN [(i1, A1); (i2, A2)] b.

Definition JacobianFactor3 (i1 : Key) (A1 : Matrix) (i2 : Key) (A2 : Matrix)
    (i3 : Key) (A3 : Matrix) (b : Vector) : JacobianFactor :=
  JacobianFactorN [(i1, A1); (i2, A2); (i3, A3)] b.

(** Modelled from the spec: [JacobianFactor::isConstrained], false without a
    noise model. *)
Definition isConstrained (jf : JacobianFactor) : bool :=
  match get_model jf with
  | Some model => constrained model
  | None => false
  end.

(** Modelled from the spec: [c[key]] of a [VectorValues], which raises
    [std::out_of_range] for a key without a value. *)
Definition VectorValues_at (c : VectorValues) (key : Key) : Exec Vector :=
  match c !! key with
  | Some v => Ok v
  | None => Fail OutOfRange
  end.

(** Modelled from the spec: [JacobianFactor::unweighted_error], "A*x-b" in
    the words of the header: start from [-b] and add [A_i * c[key_i]] for
    each key. *)
Definition unweighted_error (jf : JacobianFactor) (c : VectorValues)
    : Exec Vector :=
  foreach (fun e (term : Key * Matrix) =>
             x ← VectorValues_at c term.1;
             Ok (vadd e (prod term.2 x)))
    (zip (keys_ jf) (Ab_ jf)) (Qcopp <$> getb jf).

(** A [LinearCost] is a [JacobianFactor] (its base class) and adds no
    field. *)
Record LinearCost : Type := { Base : JacobianFactor }.

(** The matrix of one row that a [RowVector] is. *)
Definition as_matrix (A : RowVector) : Matrix := [A].

(** [LinearCost()] *)
Definition LinearCost0 : LinearCost := {| Base := JacobianFactor0 |}.


(** [explicit LinearCost(const JacobianFactor& jf)] *)
Definition LinearCost_of_JacobianFactor (jf : JacobianFactor)
    : Exec LinearCost :=
  if isConstrained jf then
    Fail (RuntimeError
            "Cannot convert a constrained JacobianFactor to LinearCost")
  else
    model ← deref NoiseModel (get_model jf);
    if bool_decide (dim model ≠ 1) then
      Fail (RuntimeError "Only support single-valued linear cost factor!")
    else Ok {| Base := jf |}.

(** [LinearCost(Key i1, const RowVector& A1)] *)
Definition LinearCost1 (i1 : Key) (A1 : RowVector) : LinearCost :=
  {| Base := JacobianFactor1 i1 (as_matrix A1) (zero 1) |}.

(** [LinearCost(Key i1, const RowVector& A1, Key i2, const RowVector& A2,
    double b)] *)
Definition LinearCost2 (i1 : Key) (A1 : RowVector) (i2 : Key) (A2 : RowVector)
    (b : Qc) : LinearCost :=
  {| Base := JacobianFactor2 i1 (as_matrix A1) i2 (as_matrix A2) (zero 1) |}.

(** [LinearCost(Key i1, const RowVector& A1, Key i2, const RowVector& A2,
    Key i3, const RowVector& A3)] *)
Definition LinearCost3 (i1 : Key) (A1 : RowVector) (i2 : Key) (A2 : RowVector)
    (i3 : Key) (A3 : RowVector) : LinearCost :=
  {| Base := JacobianFactor3 i1 (as_matrix A1) i2 (as_matrix A2)
               i3 (as_matrix A3) (zero 1) |}.

(** [LinearCost(const TERMS& terms)] *)
Definition LinearCostN (terms : list (Key * Matrix)) : LinearCost :=
  {| Base := JacobianFactorN terms (zero 1) |}.

(** [LinearCost::error_vector] *)
Definition error_vector (lc : LinearCost) (c : VectorValues) : Exec Vector :=
  unweighted_error (Base lc) c.

(** [LinearCost::error]: [error_vector(c)[0]] *)
Definition error (lc : LinearCost) (c : VectorValues) : Exec Qc :=
  e ← error_vector lc c;
  match e with
  | e0 :: _ => Ok e0
  | [] => Fail OutOfRange
  end.

End LinearCost.

(** ** ConcurrentBatchSmoother.cpp *)

Module ConcurrentBatchSmoother.

(** [NonlinearOptimizerParams] / [LevenbergMarquardtParams]: the fields the
    smoother reads. *)
Record Parameters : Type := {
  maxIterations : nat;
  relativeErrorTol : Qc;
  absoluteErrorTol : Qc;
  errorTol : Qc;
  verbosity : nat
}.

(** [ConcurrentBatchSmoother::Result]. *)
Record Result : Type := {
  iterations : nat;
  nonlinearVariables : nat;
  linearVariables : nat;
  error : Qc
}.

(** [Result result;] -- all fields zero. *)
Definition Result_default : Result :=
  {| iterations := 0; nonlinearVariables := 0; linearVariables := 0;
     error := 0%Qc |}.

Section Smoother.

(** A [gtsam::Value] (a point of some manifold) is left abstract. *)
Context {Value : Type}.

(** A [NonlinearFactor], with the keys it iterates over ([begin()] ..
    [end()], [size()] is their number). *)
Context {NonlinearFactor : Type}.
Variable keys : NonlinearFactor -> list Key.

Local Abbreviation Values := (gmap Key Value).
Local Abbreviation Graph := (list (option NonlinearFactor)).
Local Abbreviation FactorIndex := (gmap Key (gset nat)).

(** *** Values *)

(** Modelled from the spec: the [Values] container (gtsam/nonlinear/Values.h
    is not among the sources).  [insert(key, value)] adds an entry; as in
    GTSAM it raises [ValuesKeyAlreadyExists] when the key is present. *)
Definition Values_insert1 (v : Values) (kx : Key * Value) : Exec Values :=
  match v !! kx.1 with
  | Some _ => Fail ValuesKeyAlreadyExists
  | None => Ok (<[kx.1 := kx.2]> v)
  end.

(** Modelled from the spec: [Values::update(key, value)] overwrites the value
    of an entry; as in GTSAM it raises [ValuesKeyDoesNotExist] when the key
    is not present. *)
Definition Values_update1 (v : Values) (kx : Key * Value) : Exec Values :=
  match v !! kx.1 with
  | Some _ => Ok (<[kx.1 := kx.2]> v)
  | None => Fail ValuesKeyDoesNotExist
  end.

(** Modelled from the spec: [Values::erase(Key)] removes one entry; as in
    GTSAM it raises [ValuesKeyDoesNotExist] when the key is not present. *)
Definition Values_erase (v : Values) (k : Key) : Exec Values :=
  match v !! k with
  | Some _ => Ok (delete k v)
  | None => Fail ValuesKeyDoesNotExist
  end.

(** Modelled from the spec: [Values::insert(const Values&)] merges a second
    container into the first, entry by entry. *)
Definition Values_insert (v new : Values) : Exec Values :=
  foreach Values_insert1 (map_to_list new) v.

(** Modelled from the spec: [Values::update(const Values&)] overwrites the
    values at the keys of its argument, entry by entry. *)
Definition Values_update (v new : Values) : Exec Values :=
  foreach Values_update1 (map_to_list new) v.

(** *** The smoother's state *)

Record Smoother : Type := {
  parameters_ : Parameters;
  graph_ : Graph;
  theta_ : Values;
  rootValues_ : Values;
  availableSlots_ : list nat;               (* [std::queue<size_t>] *)
  factorIndex_ : FactorIndex;
  filterSummarizationSlots_ : list nat;
  smootherSummarization_ : list NonlinearFactor
}.

Definition set_store (g : Graph) (a : list nat) (i : FactorIndex)
    (s : Smoother) : Smoother :=
  {| parameters_ := parameters_ s; graph_ := g; theta_ := theta_ s;
     rootValues_ := rootValues_ s; availableSlots_ := a; factorIndex_ := i;
     filterSummarizationSlots_ := filterSummarizationSlots_ s;
     smootherSummarization_ := smootherSummarization_ s |}.

Definition set_theta (t : Values) (s : Smoother) : Smoother :=
  {| parameters_ := parameters_ s; graph_ := graph_ s; theta_ := t;
     rootValues_ := rootValues_ s; availableSlots_ := availableSlots_ s;
     factorIndex_ := factorIndex_ s;
     filterSummarizationSlots_ := filterSummarizationSlots_ s;
     smootherSummarization_ := smootherSummarization_ s |}.

Definition set_rootValues (r : Values) (s : Smoother) : Smoother :=
  {| parameters_ := parameters_ s; graph_ := graph_ s; theta_ := theta_ s;
     rootValues_ := r; availableSlots_ := availableSlots_ s;
     factorIndex_ := factorIndex_ s;
     filterSummarizationSlots_ := filterSummarizationSlots_ s;
     smootherSummarization_ := smootherSummarization_ s |}.

Definition set_filterSummarizationSlots (l : list nat) (s : Smoother)
    : Smoother :=
  {| parameters_ := parameters_ s; graph_ := graph_ s; theta_ := theta_ s;
     rootValues_ := rootValues_ s; availableSlots_ := availableSlots_ s;
     factorIndex_ := factorIndex_ s;
     filterSummarizationSlots_ := l;
     smootherSummarization_ := smootherSummarization_ s |}.

Definition set_smootherSummarization (l : list NonlinearFactor)
    (s : Smoother) : Smoother :=
  {| parameters_ := parameters_ s; graph_ := graph_ s; theta_ := theta_ s;
     rootValues_ := rootValues_ s; availableSlots_ := availableSlots_ s;
     factorIndex_ := factorIndex_ s;
     filterSummarizationSlots_ := filterSummarizationSlots_ s;
     smootherSummarization_ := l |}.

(** A smoother that has been constructed and not used yet. *)
Definition Smoother_new (p : Parameters) : Smoother :=
  {| parameters_ := p; graph_ := []; theta_ := ∅; rootValues_ := ∅;
     availableSlots_ := []; factorIndex_ := ∅;
     filterSummarizationSlots_ := []; smootherSummarization_ := [] |}.

(** *** The factor store *)

(** [factorIndex_[key]]: the slots recorded for a key ([operator[]] gives the
    empty set for a key it has not seen). *)
Definition slotsOf (i : FactorIndex) (key : Key) : gset nat :=
  default ∅ (i !! key).

(** [factorIndex_[key].insert(slot)] *)
Definition index_insert (slot : nat) (i : FactorIndex) (key : Key)
    : FactorIndex :=
  <[key := slotsOf i key ∪ {[slot]}]> i.

(** [factorIndex_[key].erase(slot)] *)
Definition index_erase (slot : nat) (i : FactorIndex) (key : Key)
    : FactorIndex :=
  <[key := slotsOf i key ∖ {[slot]}]> i.

(** Modelled from the spec: a factor graph (FactorGraph.h is not among the
    sources) is a sequence of optional factor slots: [push_back] appends a
    slot, [remove(slot)] empties one, [size()] counts the slots, empty or
    not.  [replace(slot, factor)] overwrites a slot and raises
    [std::invalid_argument] out of range. *)
Definition Graph_replace {F} (slot : nat) (factor : option F)
    (g : list (option F)) : Exec (list (option F)) :=
  if decide (slot < length g) then Ok (<[slot := factor]> g)
  else Fail InvalidArgument.

(** Modelled from the spec: [at(slot)] of a factor graph reads a slot; the
    pointer found may be empty.  Out of range no slot is returned: the fault
    stands for that, whichever form it takes in the library (the spec does
    not say), and no property below rests on its kind. *)
Definition Graph_at {F} (slot : nat) (g : list (option F))
    : Exec (option F) :=
  match g !! slot with
  | Some p => Ok p
  | None => Fail OutOfRange
  end.

(** [ConcurrentBatchSmoother::insertFactor].  The factor handed over is
    dereferenced unconditionally, so it is taken as a factor, not as a
    pointer that may be empty. *)
Definition insertFactor (factor : NonlinearFactor) (s : Smoother)
    : Exec (nat * Smoother) :=
  '(slot, g, a) ←
    match availableSlots_ s with
    | front :: rest =>
        g ← Graph_replace front (Some factor) (graph_ s);
        Ok (front, g, rest)
    | [] =>
        Ok (length (graph_ s), graph_ s ++ [Some factor], [])
    end;
  Ok (slot,
      set_store g a (foldl (index_insert slot) (factorIndex_ s) (keys factor))
        s).

(** [ConcurrentBatchSmoother::removeFactor] *)
Definition removeFactor (slot : nat) (s : Smoother) : Exec Smoother :=
  (* Remove references to this factor from the FactorIndex *)
  p ← Graph_at slot (graph_ s);
  factor ← deref StoredFactor p;
  let i := foldl (index_erase slot) (factorIndex_ s) (keys factor) in
  (* Remove this factor from the graph; mark the slot as available *)
  Ok (set_store (<[slot := None]> (graph_ s)) (availableSlots_ s ++ [slot]) i
        s).

(** [BOOST_FOREACH(slot, slots) removeFactor(slot);] *)
Fixpoint removeFactors (slots : list nat) (s : Smoother) : Exec Smoother :=
  match slots with
  | [] => Ok s
  | slot :: slots' => s' ← removeFactor slot s; removeFactors slots' s'
  end.

(** [BOOST_FOREACH(factor, factors) insertFactor(factor);], with the slots in
    the order they were handed out. *)
Fixpoint insertFactors (factors : list NonlinearFactor) (s : Smoother)
    : Exec (list nat * Smoother) :=
  match factors with
  | [] => Ok ([], s)
  | factor :: factors' =>
      '(slot, s') ← insertFactor factor s;
      '(slots, s'') ← insertFactors factors' s';
      Ok (slot :: slots, s'')
  end.

(** [ConcurrentBatchSmoother::findFactorsWithAny] *)
Definition findFactorsWithAny (keySet : gset Key) (s : Smoother) : gset nat :=
  foldr (fun key factorSlots =>
           match factorIndex_ s !! key with
           | Some slots => slots ∪ factorSlots
           | None => factorSlots
           end) ∅ (elements keySet).

(** [ConcurrentBatchSmoother::findFactorsWithOnly]: of the slots found with
    any of the keys, those whose factor has no other key. *)
Definition findFactorsWithOnly (keySet : gset Key) (s : Smoother)
    : Exec (gset nat) :=
  foreach (fun factorSlots slot =>
             p ← Graph_at slot (graph_ s);
             factor ← deref StoredFactor p;
             let factorKeys : gset Key := list_to_set (keys factor) in
             if bool_decide (factorKeys ⊆ keySet)
             then Ok ({[slot]} ∪ factorSlots)
             else Ok factorSlots)
    (elements (findFactorsWithAny keySet s)) ∅.

(** *** synchronize *)

(** [ConcurrentBatchSmoother::synchronize] *)
Definition synchronize (smootherFactors : list NonlinearFactor)
    (smootherValues : Values) (summarizedFactors : list NonlinearFactor)
    (rootValues : Values) (s : Smoother) : Exec Smoother :=
  (* Remove the previous filter summarization from the graph *)
  s ← removeFactors (filterSummarizationSlots_ s) s;
  let s := set_filterSummarizationSlots [] s in
  (* Insert the new filter summarized factors *)
  '(slots, s) ← insertFactors summarizedFactors s;
  let s := set_filterSummarizationSlots slots s in
  (* Insert the new smoother factors *)
  '(_, s) ← insertFactors smootherFactors s;
  (* Insert new linpoints into the values *)
  theta ← Values_insert (theta_ s) smootherValues;
  let s := set_theta theta s in
  (* Update the list of root keys *)
  Ok (set_rootValues rootValues s).

(** *** update *)

(** [NonlinearOptimizerState]: the fields of [optimizer.state()] the
    smoother reads and writes. *)
Record OptimizerState : Type := {
  state_values : Values;
  state_error : Qc;
  state_iterations : nat
}.

(** The numerical collaborators, which are not part of the sources:
    [NonlinearFactorGraph::error], one call of
    [LevenbergMarquardtOptimizer::iterate] on the optimizer's state,
    [checkConvergence], and the elimination of the graph into the summary on
    the root keys (lines 143-255 of [update], which build an ordering, a
    Bayes tree and the linearized cached factors).  The error of a graph and
    an iteration may raise: the first for a factor on a key without a value,
    the second also for a linear system that cannot be solved. *)
Variable graph_error : Graph -> Values -> Exec Qc.
Variable iterate :
  Graph -> Parameters -> OptimizerState -> Exec OptimizerState.
Variable checkConvergence : Qc -> Qc -> Qc -> Qc -> Qc -> nat -> bool.
Variable summarizeRoot :
  Graph -> Values -> Values -> Parameters -> Exec (list NonlinearFactor).

(** Modelled from the spec: the constructor of [LevenbergMarquardtOptimizer]
    (not among the sources) starts from the given point, with its error, and
    has done no iteration; it raises when the error of the graph does. *)
Definition LevenbergMarquardtOptimizer (g : Graph) (linpoint : Values)
    : Exec OptimizerState :=
  e ← graph_error g linpoint;
  Ok {| state_values := linpoint; state_error := e; state_iterations := 0 |}.

(** [rootValues_.size() > 0] *)
Definition has_root (s : Smoother) : bool :=
  bool_decide (0 < size (rootValues_ s)).

(** Lines 91-98: force the variables of the root keys back to their
    linearization point and recompute the error. *)
Definition enforce_consistency (s : Smoother) (optimizer : OptimizerState)
    : Exec OptimizerState :=
  if has_root s then
    v ← Values_update (state_values optimizer) (rootValues_ s);
    e ← graph_error (graph_ s) v;
    Ok {| state_values := v; state_error := e;
          state_iterations := state_iterations optimizer |}
  else Ok optimizer.

(** The body of the [do ... while] loop, lines 85-102 (printing left out). *)
Definition iteration (s : Smoother) (optimizer : OptimizerState)
    : Exec OptimizerState :=
  optimizer ← iterate (graph_ s) (parameters_ s) optimizer;
  enforce_consistency s optimizer.

(** The loop's condition, lines 103-105. *)
Definition continue (s : Smoother) (currentError : Qc)
    (optimizer : OptimizerState) : bool :=
  bool_decide (state_iterations optimizer < maxIterations (parameters_ s))
  && negb (checkConvergence (relativeErrorTol (parameters_ s))
             (absoluteErrorTol (parameters_ s)) (errorTol (parameters_ s))
             currentError (state_error optimizer) (verbosity (parameters_ s))).

(** The [do ... while] loop, lines 84-105; [fuel] bounds the number of times
    the body runs. *)
Fixpoint optimize_loop (fuel : nat) (s : Smoother) (optimizer : OptimizerState)
    : Exec OptimizerState :=
  match fuel with
  | 0 => Fail FuelExhausted
  | S fuel' =>
      let currentError := state_error optimizer in
      optimizer' ← iteration s optimizer;
      if continue s currentError optimizer'
      then optimize_loop fuel' s optimizer'
      else Ok optimizer'
  end.

(** The keys a [Values] iterates over. *)
Definition Values_keys (v : Values) : list Key := (map_to_list v).*1.

(** Lines 75-105: the optimizer is created at the linearization point made
    of the values and the root values, and the loop is run.  The loop's
    condition holds for at most [maxIterations] executions of the body, each
    of which counts an iteration; [S maxIterations] executions are
    allowed. *)
Definition optimize (s : Smoother) : Exec OptimizerState :=
  linpoint ← Values_insert ∅ (theta_ s);
  linpoint ← (if has_root s then Values_insert linpoint (rootValues_ s)
              else Ok linpoint);
  optimizer ← LevenbergMarquardtOptimizer (graph_ s) linpoint;
  optimize_loop (S (maxIterations (parameters_ s))) s optimizer.

(** [visited s o o']: in a run of the loop entered with the optimizer in
    state [o], [o'] is the optimizer's state at the end of some execution of
    the loop's body. *)
Inductive visited (s : Smoother) : OptimizerState -> OptimizerState -> Prop :=
  | visited_first o o' :
      iteration s o = Ok o' -> visited s o o'
  | visited_next o o1 o' :
      iteration s o = Ok o1 ->
      continue s (state_error o) o1 = true ->
      visited s o1 o' ->
      visited s o o'.

(** Every call of [iterate] that returns counts at least one iteration. *)
Definition iterate_counts : Prop :=
  ∀ g p o o', iterate g p o = Ok o' →
              state_iterations o < state_iterations o'.

(** Lines 132-257, the pre-sync code at the end of [update]: the
    linearization point is put together and the information on the root keys
    becomes the new smoother summarization. *)
Definition summarize (s : Smoother) : Exec Smoother :=
  if has_root s then
    linpoint ← Values_insert ∅ (theta_ s);
    linpoint ← Values_insert linpoint (rootValues_ s);
    summary ← summarizeRoot (graph_ s) linpoint (rootValues_ s)
                (parameters_ s);
    Ok (set_smootherSummarization summary s)
  else Ok s.

(** [ConcurrentBatchSmoother::update] *)
Definition update (newFactors : list NonlinearFactor) (newTheta : Values)
    (s : Smoother) : Exec (Result * Smoother) :=
  let result := Result_default in
  (* Add the new factors to the graph *)
  '(_, s) ← insertFactors newFactors s;
  (* Add the new variables to theta *)
  theta ← Values_insert (theta_ s) newTheta;
  let s := set_theta theta s in
  (* Optimize the graph, updating theta *)
  '(result, s) ←
    (if bool_decide (0 < length (graph_ s)) then
       optimizer ← optimize s;
       (* Update theta from the optimizer, then remove root variables *)
       theta ← foreach Values_erase (Values_keys (rootValues_ s))
                 (state_values optimizer);
       let s := set_theta theta s in
       Ok ({| iterations := state_iterations optimizer;
              nonlinearVariables := size (theta_ s);
              linearVariables := size (rootValues_ s);
              error := state_error optimizer |}, s)
     else Ok (result, s));
  (* The pre-sync part *)
  s ← summarize s;
  Ok (result, s).

(** *** marginalizeKeysFromFactor *)

(** The linear-algebra collaborators: linear factors and conditionals, of
    which only the identity matters here, [NonlinearFactor::linearize],
    [EliminateQR], [dynamic_pointer_cast<JacobianFactor>] and the constructor
    of [LinearizedJacobianFactor].  A returned [shared_ptr] may be empty. *)
Context {GaussianFactor GaussianConditional JacobianFactor : Type}.
Variable linearize :
  NonlinearFactor -> Values -> list Key -> option GaussianFactor.
Variable EliminateQR :
  list (option GaussianFactor) -> nat ->
  option GaussianConditional * option GaussianFactor.
Variable dynamic_pointer_cast : GaussianFactor -> option JacobianFactor.
Variable LinearizedJacobianFactor :
  JacobianFactor -> list Key -> Values -> NonlinearFactor.

(** A [std::set<Key>] in the order it iterates. *)
Definition ascending (X : gset Key) : list Key :=
  merge_sort Nat.le (elements X).

(** The keys of [factor] that are not kept. *)
Definition discarded (factor : NonlinearFactor) (keysToKeep : gset Key)
    : gset Key :=
  list_to_set (keys factor) ∖ keysToKeep.

(** [ConcurrentBatchSmoother::marginalizeKeysFromFactor].  The result is the
    returned [shared_ptr]: [None] is the empty pointer.  The vector
    [variables] of lines 442-445 is never read and is left out. *)
Definition marginalizeKeysFromFactor (factor : NonlinearFactor)
    (keysToKeep : gset Key) (theta : Values) : Exec (option NonlinearFactor) :=
  (* Sort the keys for this factor *)
  let factorKeys : gset Key := list_to_set (keys factor) in
  (* Calculate the set of keys to marginalize *)
  let marginalizeKeys := factorKeys ∖ keysToKeep in
  let remainingKeys := factorKeys ∩ keysToKeep in
  if bool_decide (size marginalizeKeys = 0) then
    (* No keys need to be marginalized out. *)
    Ok (Some factor)
  else if bool_decide (size marginalizeKeys = length (keys factor)) then
    (* All keys need to be marginalized out. Return an empty factor *)
    Ok None
  else
    (* (0) Create an ordering with the remaining keys last *)
    let ordering := ascending marginalizeKeys ++ ascending remainingKeys in
    (* (1) construct a linear factor graph *)
    let graph := [] ++ [linearize factor theta ordering] in
    p ← Graph_at 0 graph;
    _ ← deref LinearFactorBefore p;
    (* (2) solve for the marginal factor *)
    let result := EliminateQR graph (size marginalizeKeys) in
    _ ← deref ResultingConditional (result.1);
    _ ← deref ResultingFactor (result.2);
    graph ← Graph_replace 0 (result.2) graph;
    (* (3) convert the marginal factors into Linearized Factors *)
    _ ← assert (bool_decide (length graph ≤ 1));
    marginalFactor ←
      (if bool_decide (0 < length graph) then
         p ← Graph_at 0 graph;
         g0 ← deref LinearFactorAfter p;
         match dynamic_pointer_cast g0 with
         | Some jacobianFactor =>
             Ok (Some (LinearizedJacobianFactor jacobianFactor ordering theta))
         | None => Fail AssertionFailed   (* [assert(jacobianFactor)] *)
         end
       else Ok None);
    _ ← deref MarginalFactor marginalFactor;
    Ok marginalFactor.

(** *** Invariants of the factor store *)

(** Slot [slot] holds the factor [f]. *)
Definition occupied (s : Smoother) (slot : nat) (f : NonlinearFactor) : Prop :=
  graph_ s !! slot = Some (Some f).

(** The reverse index reflects exactly the keys of the occupied slots. *)
Definition index_exact (s : Smoother) : Prop :=
  ∀ key slot,
    slot ∈ slotsOf (factorIndex_ s) key ↔
    ∃ f, occupied s slot f ∧ key ∈ keys f.

(** The queue of available slots lists holes of the graph, each once. *)
Definition slots_free (s : Smoother) : Prop :=
  NoDup (availableSlots_ s) ∧
  ∀ slot, slot ∈ availableSlots_ s → graph_ s !! slot = Some None.

Definition store_wf (s : Smoother) : Prop := index_exact s ∧ slots_free s.

(** The slots recorded for the filter summarization are occupied, each
    recorded once. *)
Definition summary_wf (s : Smoother) : Prop :=
  NoDup (filterSummarizationSlots_ s) ∧
  ∀ slot, slot ∈ filterSummarizationSlots_ s → ∃ f, occupied s slot f.

(** What the factor store's operations leave alone. *)
Definition same_rest (s s' : Smoother) : Prop :=
  parameters_ s' = parameters_ s ∧ theta_ s' = theta_ s ∧
  rootValues_ s' = rootValues_ s ∧
  filterSummarizationSlots_ s' = filterSummarizationSlots_ s ∧
  smootherSummarization_ s' = smootherSummarization_ s.

(** *** The rest of the interface *)

(** [ConcurrentBatchSmoother::getSummarizedFactors]: the summarization
    computed by the last [update] is appended to the caller's graph
    ([push_back] of a graph appends its slots); the smoother is left as it
    is. *)
Definition getSummarizedFactors (summarizedFactors : Graph) (s : Smoother)
    : Graph * Smoother :=
  (summarizedFactors ++ (Some <$> smootherSummarization_ s), s).

(** [ConcurrentBatchSmoother::presync] and [postsync] do nothing. *)
Definition presync (s : Smoother) : Smoother := s.
Definition postsync (s : Smoother) : Smoother := s.

(** The smoothers a user can get: a new one, and what a call of [update] or
    [synchronize] that returns leaves behind. *)
Inductive reachable : Smoother -> Prop :=
  | reachable_new p :
      reachable (Smoother_new p)
  | reachable_update newFactors newTheta s result s' :
      reachable s ->
      update newFactors newTheta s = Ok (result, s') ->
      reachable s'
  | reachable_synchronize smootherFactors smootherValues summarizedFactors
      rootValues s s' :
      reachable s ->
      synchronize smootherFactors smootherValues summarizedFactors rootValues s
        = Ok s' ->
      reachable s'.

(** Every call of [iterate] that returns counts exactly one iteration. *)
Definition iterate_counts_one : Prop :=
  ∀ g p o o', iterate g p o = Ok o' →
              state_iterations o' = S (state_iterations o).

(** The ordering [marginalizeKeysFromFactor] builds at lines 425-431: the
    keys to marginalize, then the remaining keys. *)
Definition marginalOrdering (factor : NonlinearFactor) (keysToKeep : gset Key)
    : list Key :=
  ascending (discarded factor keysToKeep)
  ++ ascending (list_to_set (keys factor) ∩ keysToKeep).

End Smoother.

End ConcurrentBatchSmoother.

(** ** A small instance *)

(** A concrete instance on which the properties below are exercised: keys
    [A] and [B], integer values, a factor named by the keys it touches.  The
    numerical collaborators are stand-ins with the shape of the real ones:
    an iteration moves every value and counts itself; elimination splits the
    keys of a linear factor at the number of eliminated variables. *)
Module Scenario.

Import ConcurrentBatchSmoother.

Definition A : Key := 1.
Definition B : Key := 2.
Definition C : Key := 3.

Definition Factor : Type := list Key.
Definition keys (f : Factor) : list Key := f.

(** Every key of every factor of the graph has a value. *)
Definition covered (g : list (option Factor)) (v : gmap Key Z) : bool :=
  forallb (fun slot : option Factor =>
             match slot with
             | Some f => forallb (fun key => bool_decide (is_Some (v !! key))) f
             | None => true
             end) g.

(** An error that is 0 at every point, and raises as GTSAM does for a factor
    on a key without a value. *)
Definition graph_error (g : list (option Factor)) (v : gmap Key Z)
    : Exec Qc :=
  if covered g v then Ok 0%Qc else Fail ValuesKeyDoesNotExist.

(** An iteration that moves every value and counts one iteration. *)
Definition iterate (g : list (option Factor)) (p : Parameters)
    (o : @OptimizerState Z) : Exec (@OptimizerState Z) :=
  e ← graph_error g (Z.succ <$> state_values o);
  Ok {| state_values := Z.succ <$> state_values o;
        state_error := e;
        state_iterations := S (state_iterations o) |}.

Definition checkConvergence (relativeErrorTol absoluteErrorTol errorTol
    currentError newError : Qc) (verbosity : nat) : bool :=
  Qc_eq_bool currentError newError.

Definition summarizeRoot (g : list (option Factor)) (linpoint root : gmap Key Z)
    (p : Parameters) : Exec (list Factor) :=
  Ok [].

Definition linearize (f : Factor) (theta : gmap Key Z) (ordering : list Key)
    : option (list Key) :=
  Some ordering.

Definition EliminateQR (graph : list (option (list Key))) (n : nat)
    : option (list Key) * option (list Key) :=
  match graph with
  | [Some ks] => (Some (take n ks), Some (drop n ks))
  | _ => (None, None)
  end.

Definition dynamic_pointer_cast (g : list Key) : option (list Key) := Some g.

Definition LinearizedJacobianFactor (jf : list Key) (ordering : list Key)
    (theta : gmap Key Z) : Factor :=
  jf.

Definition parameters : Parameters :=
  {| maxIterations := 100; relativeErrorTol := 0%Qc;
     absoluteErrorTol := 0%Qc; errorTol := 0%Qc; verbosity := 0 |}.

Definition update :=
  update keys graph_error iterate checkConvergence summarizeRoot.

Definition marginalizeKeysFromFactor :=
  marginalizeKeysFromFactor keys linearize EliminateQR dynamic_pointer_cast
    LinearizedJacobianFactor.



(** A fresh smoother. *)
Definition fresh : @Smoother Z Factor := Smoother_new parameters.

(** The smoother with one factor between [A] and [B] in slot 0. *)
Definition one_factor : @Smoother Z Factor :=
  {| parameters_ := parameters; graph_ := [Some [A; B]];
     theta_ := ∅; rootValues_ := ∅; availableSlots_ := [];
     factorIndex_ := {[A := {[0]}; B := {[0]}]};
     filterSummarizationSlots_ := []; smootherSummarization_ := [] |}.

(** The smoother with a factor between [A] and [B], a value for [A], and
    the root [B] pinned to 7. *)
Definition rooted : @Smoother Z Factor :=
  {| parameters_ := parameters; graph_ := [Some [A; B]];
     theta_ := {[A := 0%Z]}; rootValues_ := {[B := 7%Z]};
     availableSlots_ := [];
     factorIndex_ := {[A := {[0]}; B := {[0]}]};
     filterSummarizationSlots_ := []; smootherSummarization_ := [] |}.

(** The optimizer over [rooted] as [update] creates it, and after one
    execution of the loop's body. *)
Definition optimizer0 : @OptimizerState Z :=
  {| state_values := {[A := 0%Z; B := 7%Z]}; state_error := 0%Qc;
     state_iterations := 0 |}.

Definition optimizer1 : @OptimizerState Z :=
  {| state_values := {[A := 1%Z; B := 7%Z]}; state_error := 0%Qc;
     state_iterations := 1 |}.

(** A conditional on [x] with one parent [y]:
    [[2 1; 0 4] x = [5; 8] - [1; 2] y]. *)
Definition x1 : GaussianConditional.Symbol := (120, 1).
Definition y1 : GaussianConditional.Symbol := (121, 1).

(** The rational number that an integer is. *)
Definition q (z : Z) : Qc := Q2Qc (inject_Z z).

Definition conditional : GaussianConditional.GaussianConditional :=
  GaussianConditional.GaussianConditional1 x1
    [q 5; q 8] [[q 2; q 1]; [q 0; q 4]]
    y1 [[q 1]; [q 2]] [q 1; q 1].

Definition assignment : GaussianConditional.VectorConfig :=
  {[y1 := [q 1]]}.

(** [one_factor] after the removal of its factor: slot 0 is a hole, queued
    for the next insertion. *)
Definition holed : @Smoother Z Factor :=
  {| parameters_ := parameters; graph_ := [None];
     theta_ := ∅; rootValues_ := ∅; availableSlots_ := [0];
     factorIndex_ := {[A := ∅; B := ∅]};
     filterSummarizationSlots_ := []; smootherSummarization_ := [] |}.

(** [conditional] with the second entry of [d] moved by 1. *)
Definition conditional_near : GaussianConditional.GaussianConditional :=
  GaussianConditional.GaussianConditional1 x1
    [q 5; q 9] [[q 2; q 1]; [q 0; q 4]]
    y1 [[q 1]; [q 2]] [q 1; q 1].

(** The terms [[1 2] a + [3] b] of a linear cost, and values for [a] and
    [b]. *)
Definition cost_terms : list (Key * LinearCost.RowVector) :=
  [(A, [q 1; q 2]); (B, [q 3])].

Definition cost_values : LinearCost.VectorValues :=
  {[A := [q 1; q 1]; B := [q 2]]}.

End Scenario.

(** * Properties *)

(** ** The error monad *)

(** Unfolding the error monad on a known result. *)
Ltac exec_simpl :=
  repeat (simpl; unfold mbind, Exec_bind, mret, Exec_ret; simpl).

Lemma Exec_bind_Ok {A B} (m : Exec A) (k : A → Exec B) (b : B) :
  m ≫= k = Ok b ↔ ∃ a, m = Ok a ∧ k a = Ok b.
Proof.
  destruct m as [a|e]; simpl; split.
  - intros H. by exists a.
  - by intros (a' & [= <-] & H).
  - discriminate.
  - by intros (a' & [=] & _).
Qed.

Lemma Exec_bind_Ok_l {A B} (a : A) (k : A → Exec B) : Ok a ≫= k = k a.
Proof. reflexivity. Qed.

Lemma Exec_bind_Fail_l {A B} (e : Fault) (k : A → Exec B) :
  Fail e ≫= k = Fail e.
Proof. reflexivity. Qed.

Lemma foreach_cons {S X} (step : S → X → Exec S) x (l : list X) s :
  foreach step (x :: l) s = step s x ≫= foreach step l.
Proof. reflexivity. Qed.

(** ** Vectors and matrices *)

Module LinearAlgebraProperties.

Import LinearAlgebra.

Implicit Types (u v b : Vector) (U A : Matrix).

Lemma dot_cons (a c : Qc) u v :
  dot (a :: u) (c :: v) = (a * c + dot u v)%Qc.
Proof. reflexivity. Qed.

Lemma dot_app u1 : ∀ u2 v1 v2,
  length u1 = length v1 →
  dot (u1 ++ u2) (v1 ++ v2) = (dot u1 v1 + dot u2 v2)%Qc.
Proof.
  induction u1 as [|a u1 IH]; intros u2 [|c v1] v2 Hlen; try discriminate.
  - simpl. change (dot [] []) with 0%Qc. ring.
  - simpl in Hlen. rewrite <- !app_comm_cons, !dot_cons, IH by lia. ring.
Qed.

Lemma dot_zero n : ∀ v, dot (zero n) v = 0%Qc.
Proof.
  induction n as [|n IH]; intros [|c v]; try reflexivity.
  change (zero (S n)) with (0%Qc :: zero n). rewrite dot_cons, IH. ring.
Qed.

Lemma length_prod A v : length (prod A v) = length A.
Proof. unfold prod. by rewrite length_fmap. Qed.

Lemma vsub_zero n v : length v = n → vsub v (zero n) = v.
Proof.
  revert n. induction v as [|c v IH]; intros [|n] Hlen; try discriminate;
    [done|].
  change (zero (S n)) with (0%Qc :: zero n). unfold vsub in *. simpl.
  rewrite IH by (simpl in Hlen; lia). f_equal. ring.
Qed.

Lemma vsub_axpy u : ∀ v w,
  vsub (axpy (-1)%Qc u v) w = vsub v (vadd u w).
Proof.
  unfold vsub, axpy, vadd.
  induction u as [|a u IH]; intros [|c v] [|e w]; try reflexivity.
  simpl. rewrite IH. f_equal. ring.
Qed.

Lemma length_axpy alpha u v :
  length (axpy alpha u v) = length u `min` length v.
Proof. unfold axpy. apply length_zip_with. Qed.

Lemma upper_from_cons n i row U :
  upper_from n i (row :: U) = true →
  length row = n ∧ take i row = zero i ∧ nth i row 0%Qc ≠ 0%Qc ∧
  upper_from n (S i) U = true.
Proof.
  simpl. rewrite !andb_true_iff, negb_true_iff.
  rewrite !bool_decide_eq_true, bool_decide_eq_false. tauto.
Qed.

(** Back-substitution solves the system of the rows it is given: with the
    entries [pre] above them, the rows applied to the solution give [b]. *)
Lemma backSubstitute_solves n U : ∀ i b pre,
  upper_from n i U = true →
  length b = length U →
  i + length U = n →
  length pre = i →
  length (backSubstitute i U b) = length U ∧
  prod U (pre ++ backSubstitute i U b) = b.
Proof.
  induction U as [|row U IH]; intros i [|bi b] pre Hup Hb Hn Hpre;
    try discriminate; [done|].
  apply upper_from_cons in Hup as (Hrow & Hzero & Hdiag & Hup).
  simpl in Hb, Hn.
  set (result := backSubstitute (S i) U b).
  set (zi := (bi - dot (drop (S i) row) result)%Qc).
  change (backSubstitute i (row :: U) (bi :: b))
    with ((zi / nth i row 0%Qc)%Qc :: result).
  destruct (IH (S i) b (pre ++ [(zi / nth i row 0%Qc)%Qc]) Hup)
    as [Hlen Hprod]; [lia|lia|rewrite length_app; simpl; lia|].
  fold result in Hlen, Hprod. split; [simpl; lia|].
  rewrite cons_middle, app_assoc.
  change (prod (row :: U) ?x) with (dot row x :: prod U x).
  rewrite Hprod. f_equal.
  assert (Hi : i < length row) by lia.
  destruct (lookup_lt_is_Some_2 row i Hi) as [uii Huii].
  assert (Hnth : nth i row 0%Qc = uii) by by rewrite nth_lookup, Huii.
  rewrite Hnth in *.
  rewrite <- (take_drop i row) at 1.
  rewrite (drop_S _ _ _ Huii), Hzero, <- app_assoc, <- cons_middle.
  rewrite dot_app by (unfold zero; rewrite length_replicate; lia).
  rewrite dot_zero, dot_cons. unfold zi. field. done.
Qed.

Lemma backSubstituteUpper_solves U b :
  upper_triangular U = true →
  length b = length U →
  length (backSubstituteUpper U b) = length U ∧
  prod U (backSubstituteUpper U b) = b.
Proof.
  intros Hup Hb.
  by apply (backSubstitute_solves (length U) U 0 b []).
Qed.

(** *** Comparison within a tolerance *)

Lemma within_true (tol a b : Qc) :
  within tol a b = true ↔ (Qcabs.Qcabs (a - b) <= tol)%Qc.
Proof.
  unfold within. destruct (Qclt_le_dec _ _) as [Hlt|Hle]; split; try done.
  intros Hle. by apply Qcle_not_lt in Hle.
Qed.

Lemma within_refl (tol a : Qc) : (0 <= tol)%Qc → within tol a a = true.
Proof.
  intros Htol. apply within_true.
  replace (a - a)%Qc with 0%Qc by ring.
  rewrite Qcabs.Qcabs_pos; [done|apply Qcle_refl].
Qed.

Lemma within_sym (tol a b : Qc) : within tol a b = within tol b a.
Proof. unfold within. by rewrite Qcabs.Qcabs_Qcminus. Qed.

Lemma within_zero (a b : Qc) : within 0 a b = true ↔ a = b.
Proof.
  rewrite within_true. split.
  - intros Hle.
    assert (H0 : (a - b)%Qc = 0%Qc).
    { apply Qcabs.Qcabs_null, Qcle_antisym; [done|apply Qcabs.Qcabs_nonneg]. }
    replace a with ((a - b) + b)%Qc by ring. rewrite H0. ring.
  - intros ->. apply within_true, within_refl, Qcle_refl.
Qed.

Lemma zip_forallb {T : Type} (f : T → T → bool) (k l : list T) :
  bool_decide (length k = length l)
  && forallb (λ xy : T * T, f xy.1 xy.2) (zip k l) = true
  ↔ Forall2 (λ x y, f x y = true) k l.
Proof.
  revert l. induction k as [|x k IH]; intros [|y l]; simpl.
  - split; [constructor|done].
  - split; [done|inversion 1].
  - split; [done|inversion 1].
  - rewrite Forall2_cons, <- IH, !andb_true_iff, !bool_decide_eq_true.
    split; [intros [Hlen [Hf Hr]]|intros [Hf [Hlen Hr]]]; split_and!;
      try done; lia.
Qed.

Lemma Forall2_pointwise {T U : Type} (P Q : T → U → Prop) k l :
  (∀ x y, P x y ↔ Q x y) → Forall2 P k l ↔ Forall2 Q k l.
Proof.
  intros HPQ. split; intros H; (eapply Forall2_impl; [exact H|]);
    intros x y; apply HPQ.
Qed.

Lemma equal_with_abs_tol_vector_true (u v : Vector) (tol : Qc) :
  equal_with_abs_tol_vector u v tol = true
  ↔ Forall2 (λ a b : Qc, (Qcabs.Qcabs (a - b) <= tol)%Qc) u v.
Proof.
  unfold equal_with_abs_tol_vector.
  rewrite (zip_forallb (within tol)). apply Forall2_pointwise.
  intros x y. apply within_true.
Qed.

Lemma equal_with_abs_tol_true (A B : Matrix) (tol : Qc) :
  equal_with_abs_tol A B tol = true
  ↔ Forall2 (Forall2 (λ a b : Qc, (Qcabs.Qcabs (a - b) <= tol)%Qc)) A B.
Proof.
  unfold equal_with_abs_tol.
  rewrite (zip_forallb (λ u v, equal_with_abs_tol_vector u v tol)).
  apply Forall2_pointwise. intros x y.
  apply equal_with_abs_tol_vector_true.
Qed.

Lemma equal_with_abs_tol_vector_refl (u : Vector) (tol : Qc) :
  (0 <= tol)%Qc → equal_with_abs_tol_vector u u tol = true.
Proof.
  intros Htol. apply equal_with_abs_tol_vector_true, Forall_Forall2_diag,
    Forall_forall.
  intros x _. by apply within_true, within_refl.
Qed.

Lemma equal_with_abs_tol_refl (A : Matrix) (tol : Qc) :
  (0 <= tol)%Qc → equal_with_abs_tol A A tol = true.
Proof.
  intros Htol. apply equal_with_abs_tol_true, Forall_Forall2_diag,
    Forall_forall.
  intros u _. by apply equal_with_abs_tol_vector_true,
    equal_with_abs_tol_vector_refl.
Qed.

Lemma equal_with_abs_tol_vector_sym (u v : Vector) (tol : Qc) :
  equal_with_abs_tol_vector u v tol = true →
  equal_with_abs_tol_vector v u tol = true.
Proof.
  rewrite !equal_with_abs_tol_vector_true. intros H.
  apply Forall2_flip. eapply Forall2_impl; [exact H|].
  intros x y. simpl. by rewrite Qcabs.Qcabs_Qcminus.
Qed.

Lemma equal_with_abs_tol_sym (A B : Matrix) (tol : Qc) :
  equal_with_abs_tol A B tol = true → equal_with_abs_tol B A tol = true.
Proof.
  rewrite !equal_with_abs_tol_true. intros H.
  apply Forall2_flip. eapply Forall2_impl; [exact H|].
  intros u v. simpl. rewrite <- !equal_with_abs_tol_vector_true.
  apply equal_with_abs_tol_vector_sym.
Qed.

Lemma equal_with_abs_tol_vector_zero (u v : Vector) :
  equal_with_abs_tol_vector u v 0 = true ↔ u = v.
Proof.
  rewrite equal_with_abs_tol_vector_true, list_eq_Forall2.
  apply Forall2_pointwise. intros x y. rewrite <- within_true.
  apply within_zero.
Qed.

Lemma equal_with_abs_tol_zero (A B : Matrix) :
  equal_with_abs_tol A B 0 = true ↔ A = B.
Proof.
  rewrite equal_with_abs_tol_true, list_eq_Forall2.
  apply Forall2_pointwise. intros u v.
  rewrite <- equal_with_abs_tol_vector_true.
  apply equal_with_abs_tol_vector_zero.
Qed.

End LinearAlgebraProperties.

(** ** Gaussian conditionals *)

Module GaussianConditionalProperties.

Import LinearAlgebra LinearAlgebraProperties GaussianConditional.

Lemma solve_steps (n : nat) (x : VectorConfig)
    (l : list (Symbol * Matrix)) :
  ∀ rhs : Vector,
    (∀ p, p ∈ l.*1 → is_Some (x !! p)) →
    Forall (λ parent, length parent.2 = n) l →
    length rhs = n →
    foreach (solve_step x) l rhs =
    Ok (vsub rhs
          (vsum n ((λ parent : Symbol * Matrix,
                      prod parent.2 (default [] (x !! parent.1))) <$> l))).
Proof.
  induction l as [|[p A] l IH]; intros rhs Hx HA Hrhs.
  - simpl. by rewrite vsub_zero.
  - rewrite foreach_cons. apply Forall_cons in HA as [HA Hl]. simpl in HA.
    destruct (Hx p) as [xp Hxp]; [left|].
    assert (Hstep : solve_step x rhs (p, A)
              = Ok (axpy (-1)%Qc (prod A xp) rhs)).
    { unfold solve_step, VectorConfig_get. simpl. by rewrite Hxp. }
    rewrite Hstep, Exec_bind_Ok_l.
    rewrite IH; [|intros q Hq; apply Hx; by right|done|].
    + f_equal. rewrite fmap_cons. simpl. rewrite Hxp. simpl.
      apply vsub_axpy.
    + rewrite length_axpy, length_prod. lia.
Qed.

(** C2.  For a conditional that satisfies its invariant ([R] square,
    upper-triangular, without a zero on the diagonal; [d] and the parents'
    matrices of its dimension) and an assignment with a value for each of
    its parents, [solve] returns a vector [v] of the dimension of [R] with
    [R v = d - sum_j A_j x[p_j]]: the right-hand side is computed first and
    then back-substituted through [R].  Over exact rationals the equation
    holds exactly. *)
Theorem solve_satisfies_system (c : GaussianConditional) (x : VectorConfig) :
  well_formed c = true →
  (∀ p, p ∈ parents c → is_Some (x !! p)) →
  ∃ v,
    solve c x = Ok v ∧
    solve_rhs c x
      = Ok (vsub (d_ c) (vsum (length (R_ c)) (parent_terms c x))) ∧
    v = backSubstituteUpper (R_ c)
          (vsub (d_ c) (vsum (length (R_ c)) (parent_terms c x))) ∧
    length v = length (R_ c) ∧
    prod (R_ c) v = vsub (d_ c) (vsum (length (R_ c)) (parent_terms c x)).
Proof.
  unfold well_formed. rewrite !andb_true_iff, !bool_decide_eq_true.
  intros [[[Hup Hd] _] HA] Hx.
  assert (Hrhs : solve_rhs c x
            = Ok (vsub (d_ c) (vsum (length (R_ c)) (parent_terms c x)))).
  { unfold solve_rhs, parent_terms. apply solve_steps; [done| |done].
    apply Forall_forall. intros parent Hin.
    rewrite forallb_forall in HA. apply list_elem_of_In, HA in Hin.
    by apply bool_decide_eq_true in Hin. }
  set (rhs := vsub _ _) in *.
  assert (Hlen : length rhs = length (R_ c)).
  { unfold rhs, vsub. rewrite length_zip_with, Hd.
    assert (Hs : ∀ us, Forall (λ u : Vector, length u = length (R_ c)) us →
                       length (vsum (length (R_ c)) us) = length (R_ c)).
    { induction 1 as [|u us Hu _ IH]; simpl.
      - apply length_replicate.
      - unfold vadd. rewrite length_zip_with, Hu, IH. lia. }
    rewrite Hs; [lia|]. unfold parent_terms. apply Forall_fmap, Forall_forall.
    intros parent Hin. simpl. rewrite length_prod.
    rewrite forallb_forall in HA. apply list_elem_of_In, HA in Hin.
    by apply bool_decide_eq_true in Hin. }
  destruct (backSubstituteUpper_solves (R_ c) rhs Hup Hlen) as [Hl Hp].
  exists (backSubstituteUpper (R_ c) rhs). unfold solve.
  rewrite Hrhs, Exec_bind_Ok_l. done.
Qed.

(** *** [equals] *)

Lemma equals_true (c p : GaussianConditional) (tol : Qc) :
  equals c p tol = true ↔
  key_ c = key_ p ∧
  size (parents_ c) = size (parents_ p) ∧
  equal_with_abs_tol (R_ c) (R_ p) tol = true ∧
  equal_with_abs_tol_vector (d_ c) (d_ p) tol = true ∧
  equal_with_abs_tol_vector (sigmas_ c) (sigmas_ p) tol = true ∧
  ∀ j A, parents_ c !! j = Some A →
         ∃ B, parents_ p !! j = Some B ∧ equal_with_abs_tol A B tol = true.
Proof.
  unfold equals.
  assert (Hloop : ∀ l : list (Symbol * Matrix),
    forallb (λ parent : Symbol * Matrix,
               match parents_ p !! parent.1 with
               | Some B => equal_with_abs_tol parent.2 B tol
               | None => false
               end) l = true
    ↔ ∀ j A, (j, A) ∈ l →
             ∃ B, parents_ p !! j = Some B ∧ equal_with_abs_tol A B tol = true).
  { intros l. rewrite forallb_forall. split.
    - intros H j A Hin. apply list_elem_of_In, H in Hin. simpl in Hin.
      destruct (parents_ p !! j) as [B|]; [by exists B|done].
    - intros H [j A] Hin. apply list_elem_of_In, H in Hin as (B & HjB & HB).
      simpl. by rewrite HjB. }
  repeat case_bool_decide; simpl; try (split; [done|naive_solver]).
  destruct (equal_with_abs_tol (R_ c) (R_ p) tol); simpl;
    [|split; [done|naive_solver]].
  destruct (equal_with_abs_tol_vector (d_ c) (d_ p) tol); simpl;
    [|split; [done|naive_solver]].
  destruct (equal_with_abs_tol_vector (sigmas_ c) (sigmas_ p) tol); simpl;
    [|split; [done|naive_solver]].
  rewrite Hloop. split.
  - intros Hl. split_and!; try done. intros j A Hj.
    by apply Hl, elem_of_map_to_list.
  - intros (_ & _ & _ & _ & _ & Hl) j A Hj.
    by apply Hl, elem_of_map_to_list.
Qed.

Lemma equals_dom (c p : GaussianConditional) (tol : Qc) :
  equals c p tol = true → dom (parents_ c) = dom (parents_ p).
Proof.
  rewrite equals_true. intros (_ & Hsize & _ & _ & _ & Hall).
  apply set_subseteq_size_eq.
  - intros j [A Hj]%elem_of_dom. destruct (Hall j A Hj) as (B & HB & _).
    by apply elem_of_dom.
  - rewrite !size_dom. lia.
Qed.

Lemma equals_sym (c p : GaussianConditional) (tol : Qc) :
  equals c p tol = true → equals p c tol = true.
Proof.
  intros Heq. pose proof (equals_dom _ _ _ Heq) as Hdom.
  apply equals_true in Heq as (Hkey & Hsize & HR & Hd & Hs & Hall).
  apply equals_true. split_and!; try done.
  - by apply equal_with_abs_tol_sym.
  - by apply equal_with_abs_tol_vector_sym.
  - by apply equal_with_abs_tol_vector_sym.
  - intros j B Hj.
    assert (Hin : j ∈ dom (parents_ c)).
    { rewrite Hdom. by apply elem_of_dom. }
    apply elem_of_dom in Hin as [A HA]. exists A. split; [done|].
    destruct (Hall j A HA) as (B' & HB' & HAB).
    rewrite Hj in HB'. injection HB' as <-.
    by apply equal_with_abs_tol_sym.
Qed.

(** X16.  A conditional equals itself within every tolerance that is not
    negative. *)
Theorem equals_reflexive (c : GaussianConditional) (tol : Qc) :
  (0 <= tol)%Qc → equals c c tol = true.
Proof.
  intros Htol. apply equals_true. split_and!; try done.
  - by apply equal_with_abs_tol_refl.
  - by apply equal_with_abs_tol_vector_refl.
  - by apply equal_with_abs_tol_vector_refl.
  - intros j A Hj. exists A. split; [done|].
    by apply equal_with_abs_tol_refl.
Qed.

(** X17.  [equals] is symmetric: although its loop runs over the parents of
    the first conditional only, the comparison of the two sizes before it
    makes the answer the same with the two conditionals exchanged. *)
Theorem equals_symmetric (c p : GaussianConditional) (tol : Qc) :
  equals c p tol = equals p c tol.
Proof.
  destruct (equals c p tol) eqn:Hcp, (equals p c tol) eqn:Hpc; try done.
  - apply equals_sym in Hcp. congruence.
  - apply equals_sym in Hpc. congruence.
Qed.

(** X18.  Two conditionals that [equals] accepts have the same key and the
    same set of parents, and the matrices of each parent, [R], [d] and the
    sigmas agree entry by entry within the tolerance, whatever the order in
    which the parents are met. *)
Theorem equals_same_parents (c p : GaussianConditional) (tol : Qc) :
  equals c p tol = true →
  key_ c = key_ p ∧
  dom (parents_ c) = dom (parents_ p) ∧
  (∀ j, j ∈ parents c ↔ j ∈ parents p) ∧
  (∀ j A B, parents_ c !! j = Some A → parents_ p !! j = Some B →
     Forall2 (Forall2 (λ a b : Qc, (Qcabs.Qcabs (a - b) <= tol)%Qc)) A B) ∧
  Forall2 (Forall2 (λ a b : Qc, (Qcabs.Qcabs (a - b) <= tol)%Qc))
    (R_ c) (R_ p) ∧
  Forall2 (λ a b : Qc, (Qcabs.Qcabs (a - b) <= tol)%Qc) (d_ c) (d_ p) ∧
  Forall2 (λ a b : Qc, (Qcabs.Qcabs (a - b) <= tol)%Qc)
    (sigmas_ c) (sigmas_ p).
Proof.
  intros Heq. pose proof (equals_dom _ _ _ Heq) as Hdom.
  apply equals_true in Heq as (Hkey & Hsize & HR & Hd & Hs & Hall).
  split_and!; try done.
  - intros j. unfold parents.
    rewrite !list_elem_of_fmap.
    assert (Hp : ∀ m : gmap Symbol Matrix,
              (∃ y : Symbol * Matrix, j = y.1 ∧ y ∈ map_to_list m)
              ↔ j ∈ dom m).
    { intros m. rewrite elem_of_dom. split.
      - intros ([j' A] & -> & Hin). apply elem_of_map_to_list in Hin.
        by exists A.
      - intros [A HA]. exists (j, A). split; [done|].
        by apply elem_of_map_to_list. }
    by rewrite !Hp, Hdom.
  - intros j A B HA HB. destruct (Hall j A HA) as (B' & HB' & HAB).
    rewrite HB in HB'. injection HB' as <-.
    by apply equal_with_abs_tol_true.
  - by apply equal_with_abs_tol_true.
  - by apply equal_with_abs_tol_vector_true.
  - by apply equal_with_abs_tol_vector_true.
Qed.

(** X19.  With the tolerance 0, [equals] is equality: it accepts exactly
    the conditionals with the same key, [R], [d], sigmas and parents. *)
Theorem equals_exact (c p : GaussianConditional) :
  equals c p 0 = true ↔ c = p.
Proof.
  split.
  - intros Heq. pose proof (equals_dom _ _ _ Heq) as Hdom.
    apply equals_true in Heq as (Hkey & Hsize & HR & Hd & Hs & Hall).
    apply equal_with_abs_tol_zero in HR.
    apply equal_with_abs_tol_vector_zero in Hd, Hs.
    assert (Hparents : parents_ c = parents_ p).
    { apply map_eq. intros j.
      destruct (parents_ c !! j) as [A|] eqn:HA.
      - destruct (Hall j A HA) as (B & HB & HAB).
        apply equal_with_abs_tol_zero in HAB. by rewrite HB, HAB.
      - symmetry. apply not_elem_of_dom. rewrite <- Hdom.
        by apply not_elem_of_dom. }
    destruct c, p. simpl in *. by subst.
  - intros <-. apply equals_true. split_and!; try done.
    + by apply equal_with_abs_tol_zero.
    + by apply equal_with_abs_tol_vector_zero.
    + by apply equal_with_abs_tol_vector_zero.
    + intros j A Hj. exists A. split; [done|].
      by apply equal_with_abs_tol_zero.
Qed.

(** *** [solve] and the values it reads *)

Lemma solve_step_cases (x : VectorConfig) (rhs : Vector)
    (parent : Symbol * Matrix) :
  solve_step x rhs parent
  = match x !! parent.1 with
    | Some xj => Ok (axpy (-1)%Qc (prod parent.2 xj) rhs)
    | None => Fail InvalidArgument
    end.
Proof.
  unfold solve_step, VectorConfig_get. by destruct (x !! parent.1).
Qed.

Lemma solve_rhs_cases (x : VectorConfig) (l : list (Symbol * Matrix)) :
  ∀ rhs : Vector,
    (Forall (λ parent, is_Some (x !! parent.1)) l
     ∧ ∃ v, foreach (solve_step x) l rhs = Ok v)
    ∨ (Exists (λ parent, x !! parent.1 = None) l
       ∧ foreach (solve_step x) l rhs = Fail InvalidArgument).
Proof.
  induction l as [|parent l IH]; intros rhs.
  - left. split; [constructor|by eexists].
  - rewrite foreach_cons, solve_step_cases.
    destruct (x !! parent.1) as [xj|] eqn:Hxj.
    + rewrite Exec_bind_Ok_l.
      destruct (IH (axpy (-1)%Qc (prod parent.2 xj) rhs))
        as [[Hall Hv]|[Hex Hf]].
      * left. split; [|done]. constructor; [by rewrite Hxj|done].
      * right. split; [by apply Exists_cons_tl|done].
    + right. split; [by apply Exists_cons_hd|done].
Qed.

Lemma elem_of_parents (c : GaussianConditional) (j : Symbol) :
  j ∈ parents c ↔ is_Some (parents_ c !! j).
Proof.
  unfold parents. rewrite list_elem_of_fmap. split.
  - intros ([j' A] & -> & Hin). apply elem_of_map_to_list in Hin.
    by exists A.
  - intros [A HA]. exists (j, A). split; [done|].
    by apply elem_of_map_to_list.
Qed.

Lemma solve_cases (c : GaussianConditional) (x : VectorConfig) :
  ((∀ p, p ∈ parents c → is_Some (x !! p)) ∧ ∃ v, solve c x = Ok v)
  ∨ ((∃ p, p ∈ parents c ∧ x !! p = None)
     ∧ solve c x = Fail InvalidArgument).
Proof.
  unfold solve, solve_rhs.
  destruct (solve_rhs_cases x (map_to_list (parents_ c)) (d_ c))
    as [[Hall [v Hv]]|[Hex Hf]].
  - left. split.
    + intros p ([j A] & -> & Hin)%list_elem_of_fmap.
      rewrite Forall_forall in Hall. by apply (Hall (j, A)).
    + rewrite Hv, Exec_bind_Ok_l. by eexists.
  - right. split.
    + apply Exists_exists in Hex as ([j A] & Hin & Hnone).
      exists j. split; [|done]. unfold parents.
      apply list_elem_of_fmap. by exists (j, A).
    + by rewrite Hf.
Qed.

(** X20.  On a conditional that satisfies its invariant, with an
    assignment whose values have the dimensions the parents' matrices ask
    for, [solve] returns a vector exactly when the assignment has a value
    for every parent; when a parent has none, the lookup [x[j]] raises and
    [solve] with it, and nothing else makes [solve] fail. *)
Theorem solve_returns_iff (c : GaussianConditional) (x : VectorConfig) :
  well_formed c = true →
  dimensions_agree c x →
  ((∃ v, solve c x = Ok v ∧ length v = length (R_ c))
   ↔ ∀ p, p ∈ parents c → is_Some (x !! p)) ∧
  (solve c x = Fail InvalidArgument ↔ ∃ p, p ∈ parents c ∧ x !! p = None) ∧
  (∀ e, solve c x = Fail e → e = InvalidArgument).
Proof.
  intros Hwf _.
  destruct (solve_cases c x) as [[Hall [v Hv]]|[(p & Hp & Hnone) Hf]].
  - split_and!.
    + split; [done|]. intros _. exists v. split; [done|].
      pose proof Hwf as Hinv. unfold well_formed in Hinv.
      rewrite !andb_true_iff, !bool_decide_eq_true in Hinv.
      destruct Hinv as [[[Hup Hd] _] HA].
      unfold solve in Hv. apply Exec_bind_Ok in Hv as (rhs & Hrhs & [= <-]).
      unfold solve_rhs in Hrhs.
      rewrite (solve_steps (length (R_ c))) in Hrhs.
      * injection Hrhs as <-. apply backSubstituteUpper_solves; [done|].
        unfold vsub. rewrite length_zip_with, Hd.
        assert (Hs : ∀ us,
                  Forall (λ u : Vector, length u = length (R_ c)) us →
                  length (vsum (length (R_ c)) us) = length (R_ c)).
        { induction 1 as [|u us Hu _ IH]; simpl.
          - apply length_replicate.
          - unfold vadd. rewrite length_zip_with, Hu, IH. lia. }
        rewrite Hs; [lia|]. apply Forall_fmap, Forall_forall.
        intros parent Hin. simpl. rewrite length_prod.
        rewrite forallb_forall in HA. apply list_elem_of_In, HA in Hin.
        by apply bool_decide_eq_true in Hin.
      * intros p Hp. apply Hall. done.
      * apply Forall_forall. intros parent Hin.
        rewrite forallb_forall in HA. apply list_elem_of_In, HA in Hin.
        by apply bool_decide_eq_true in Hin.
      * done.
    + rewrite Hv. split; [done|]. intros (p & Hp & Hnone).
      destruct (Hall p Hp) as [xp Hxp]. congruence.
    + intros e. by rewrite Hv.
  - split_and!.
    + rewrite Hf. split; [by intros (v & ? & _)|].
      intros Hall. destruct (Hall p Hp) as [xp Hxp]. congruence.
    + split; [by exists p|done].
    + intros e. rewrite Hf. by intros [= <-].
Qed.

(** X21.  [solve] reads the assignment at the parents of the conditional
    only: two assignments that agree there give the same result, a vector or
    the error. *)
Theorem solve_reads_parents_only (c : GaussianConditional)
    (x y : VectorConfig) :
  (∀ p, p ∈ parents c → x !! p = y !! p) → solve c x = solve c y.
Proof.
  intros Hxy. unfold solve, solve_rhs. f_equal.
  assert (Hl : ∀ parent, parent ∈ map_to_list (parents_ c) →
                         x !! parent.1 = y !! parent.1).
  { intros [j A] Hin. apply Hxy. unfold parents.
    apply list_elem_of_fmap. by exists (j, A). }
  generalize (d_ c). revert Hl.
  induction (map_to_list (parents_ c)) as [|parent l IH]; intros Hl rhs.
  - done.
  - rewrite !foreach_cons, !solve_step_cases, (Hl parent) by left.
    destruct (y !! parent.1) as [yj|]; [|done].
    rewrite !Exec_bind_Ok_l. apply IH. intros q Hq. apply Hl. by right.
Qed.

(** X22.  The constructors insert the parents with [std::map::insert], which
    leaves an entry that is there: the constructor of two parents called
    with one name twice builds the conditional of the first matrix alone and
    drops the second one.  With two names it has the two parents, each with
    its matrix, and the constructor without parents builds a conditional
    whose [solve] does not read the assignment. *)
Theorem GaussianConditional2_same_name (key : Symbol) (d : Vector)
    (R : Matrix) (name1 : Symbol) (S : Matrix) (name2 : Symbol) (T : Matrix)
    (sigmas : Vector) (x : VectorConfig) :
  GaussianConditional2 key d R name1 S name1 T sigmas
  = GaussianConditional1 key d R name1 S sigmas ∧
  (name1 ≠ name2 →
   parents_ (GaussianConditional2 key d R name1 S name2 T sigmas)
   = <[name2 := T]> {[name1 := S]}) ∧
  (∀ j, j ∈ parents (GaussianConditional2 key d R name1 S name2 T sigmas)
        ↔ j = name1 ∨ j = name2) ∧
  parents_ (GaussianConditional2 key d R name1 S name2 T sigmas) !! name1
  = Some S ∧
  parents (GaussianConditional0 key d R sigmas) = [] ∧
  solve (GaussianConditional0 key d R sigmas) x
  = Ok (backSubstituteUpper R d).
Proof.
  assert (H1 : parents_insert name1 S (∅ : gmap Symbol Matrix)
               = {[name1 := S]}).
  { unfold parents_insert. by rewrite lookup_empty. }
  assert (H2 : name1 ≠ name2 →
               parents_insert name2 T ({[name1 := S]} : gmap Symbol Matrix)
               = <[name2 := T]> {[name1 := S]}).
  { intros Hne. unfold parents_insert.
    by rewrite lookup_singleton_ne. }
  assert (H3 : parents_insert name1 T ({[name1 := S]} : gmap Symbol Matrix)
               = {[name1 := S]}).
  { unfold parents_insert. by rewrite lookup_singleton_eq. }
  split_and!.
  - unfold GaussianConditional2, GaussianConditional1. by rewrite H1, H3.
  - intros Hne. simpl. by rewrite H1, H2.
  - intros j. rewrite elem_of_parents. simpl. rewrite H1.
    destruct (decide (name1 = name2)) as [<-|Hne].
    + rewrite H3. destruct (decide (j = name1)) as [->|Hj].
      * rewrite lookup_singleton_eq. naive_solver.
      * rewrite lookup_singleton_ne by done. split; [by intros [? ?]|].
        naive_solver.
    + rewrite H2 by done. destruct (decide (j = name2)) as [->|Hj2].
      * rewrite lookup_insert_eq. naive_solver.
      * rewrite lookup_insert_ne by done.
        destruct (decide (j = name1)) as [->|Hj1].
        -- rewrite lookup_singleton_eq. naive_solver.
        -- rewrite lookup_singleton_ne by done. split; [by intros [? ?]|].
           naive_solver.
  - simpl. rewrite H1. destruct (decide (name1 = name2)) as [<-|Hne].
    + by rewrite H3, lookup_singleton_eq.
    + rewrite H2 by done.
      by rewrite lookup_insert_ne, lookup_singleton_eq.
  - unfold parents. simpl. by rewrite map_to_list_empty.
  - unfold solve, solve_rhs. simpl. by rewrite map_to_list_empty.
Qed.

End GaussianConditionalProperties.

(** ** Linear costs *)

Module LinearCostProperties.

Import LinearAlgebra LinearCost.


(** C10.  The binary constructor does not look at [b]: the factor it builds
    is the one built with [b = 0], its right-hand side is the zero vector of
    dimension 1 -- as for every other constructor from terms -- and its
    error vector at [c] is [A1 c[i1] + A2 c[i2]], with nothing subtracted. *)
Theorem LinearCost2_ignores_b i1 A1 i2 A2 b :
  LinearCost2 i1 A1 i2 A2 b = LinearCost2 i1 A1 i2 A2 0%Qc ∧
  getb (Base (LinearCost2 i1 A1 i2 A2 b)) = [0%Qc] ∧
  (∀ i A, getb (Base (LinearCost1 i A)) = [0%Qc]) ∧
  (∀ j1 B1 j2 B2 j3 B3,
     getb (Base (LinearCost3 j1 B1 j2 B2 j3 B3)) = [0%Qc]) ∧
  (∀ terms, getb (Base (LinearCostN terms)) = [0%Qc]) ∧
  (∀ (c : VectorValues) x1 x2,
     c !! i1 = Some x1 → c !! i2 = Some x2 →
     error_vector (LinearCost2 i1 A1 i2 A2 b) c
     = Ok (vadd (prod (as_matrix A1) x1) (prod (as_matrix A2) x2)) ∧
     error (LinearCost2 i1 A1 i2 A2 b) c = Ok (dot A1 x1 + dot A2 x2)%Qc).
Proof.
  split_and!; try reflexivity.
  intros c x1 x2 H1 H2.
  assert (He : error_vector (LinearCost2 i1 A1 i2 A2 b) c
               = Ok [(dot A1 x1 + dot A2 x2)%Qc]).
  { unfold error_vector, unweighted_error, VectorValues_at. simpl.
    rewrite H1. exec_simpl. rewrite H2. exec_simpl.
    unfold vadd. simpl. do 2 f_equal. ring. }
  split; [done|]. unfold error. by rewrite He.
Qed.

(** X23.  The conversion from a [JacobianFactor] returns exactly for the
    unconstrained factors with a noise model of dimension 1, and then the
    factor itself.  A factor without a noise model passes the first test
    ([isConstrained] is false for it) and the second one dereferences its
    empty pointer; the factors that the other constructors of [LinearCost]
    build are of that kind, so none of them can be converted again. *)
Theorem LinearCost_conversion_exact (jf : JacobianFactor) :
  (∀ lc, LinearCost_of_JacobianFactor jf = Ok lc
         ↔ Base lc = jf ∧
           ∃ model, get_model jf = Some model ∧ constrained model = false ∧
                    dim model = 1) ∧
  (LinearCost_of_JacobianFactor jf = Fail (NullDereference NoiseModel)
   ↔ get_model jf = None) ∧
  (∀ terms, LinearCost_of_JacobianFactor (Base (LinearCostN terms))
            = Fail (NullDereference NoiseModel)) ∧
  (∀ i1 A1 i2 A2 b, LinearCost_of_JacobianFactor (Base (LinearCost2 i1 A1 i2 A2 b))
            = Fail (NullDereference NoiseModel)) ∧
  LinearCost_of_JacobianFactor (Base LinearCost0)
  = Fail (NullDereference NoiseModel).
Proof.
  split_and!; try done.
  - intros [jf']. unfold LinearCost_of_JacobianFactor, isConstrained. simpl.
    destruct (get_model jf) as [model|] eqn:Hm; exec_simpl.
    + destruct (constrained model) eqn:Hc; simpl.
      * split; [done|]. intros (_ & model' & [= <-] & Hc' & _). congruence.
      * case_bool_decide as Hdim.
        -- split; [done|]. by intros (_ & model' & [= <-] & _ & Hdim').
        -- split.
           ++ intros [= <-]. split; [done|]. exists model.
              split_and!; try done; lia.
           ++ by intros [-> _].
    + split; [done|]. by intros (_ & model & ? & _).
  - unfold LinearCost_of_JacobianFactor, isConstrained.
    destruct (get_model jf) as [model|] eqn:Hm; exec_simpl; [|done].
    destruct (constrained model); [done|].
    by case_bool_decide.
Qed.

Lemma unweighted_error_rows (c : VectorValues)
    (terms : list (Key * RowVector)) :
  ∀ e0 : Qc,
    (∀ key, key ∈ terms.*1 → is_Some (c !! key)) →
    foreach (λ e (term : Key * Matrix),
               x ← VectorValues_at c term.1; Ok (vadd e (prod term.2 x)))
      (prod_map id as_matrix <$> terms) [e0]
    = Ok [(e0 + foldr (λ (term : Key * RowVector) acc,
                         dot term.2 (default [] (c !! term.1)) + acc) 0 terms)%Qc].
Proof.
  match goal with |- context [foreach ?step0 _ _] => set (step := step0) end.
  induction terms as [|[key A] terms IH]; intros e0 Hc.
  - simpl. do 2 f_equal. ring.
  - rewrite fmap_cons, foreach_cons.
    destruct (Hc key) as [x Hx]; [left|].
    assert (Hstep : step [e0] (prod_map id as_matrix (key, A))
                    = Ok [(e0 + dot A x)%Qc]).
    { unfold step, VectorValues_at. simpl. by rewrite Hx. }
    rewrite Hstep, Exec_bind_Ok_l, IH.
    + simpl. rewrite Hx. simpl. do 2 f_equal. ring.
    + intros k Hk. apply Hc. by right.
Qed.

(** X24.  The error of a factor built from any number of one-row terms is
    the sum of the products [A_i c[key_i]]: the constructor passes the zero
    vector of dimension 1 as right-hand side, so nothing is subtracted, and
    [error] is the single entry of the error vector. *)
Theorem LinearCostN_error (terms : list (Key * RowVector))
    (c : VectorValues) :
  (∀ key, key ∈ terms.*1 → is_Some (c !! key)) →
  error_vector (LinearCostN (prod_map id as_matrix <$> terms)) c
  = Ok [foldr (λ (term : Key * RowVector) acc,
                 dot term.2 (default [] (c !! term.1)) + acc)%Qc 0%Qc terms] ∧
  error (LinearCostN (prod_map id as_matrix <$> terms)) c
  = Ok (foldr (λ (term : Key * RowVector) acc,
                 dot term.2 (default [] (c !! term.1)) + acc)%Qc 0%Qc terms).
Proof.
  intros Hc.
  assert (He : error_vector (LinearCostN (prod_map id as_matrix <$> terms)) c
    = Ok [foldr (λ (term : Key * RowVector) acc,
                 dot term.2 (default [] (c !! term.1)) + acc)%Qc 0%Qc terms]).
  { unfold error_vector, unweighted_error. simpl.
    rewrite zip_fst_snd.
    change (Qcopp <$> zero 1) with [(- 0)%Qc].
    rewrite unweighted_error_rows by done. do 2 f_equal. ring. }
  split; [done|]. unfold error. by rewrite He.
Qed.

End LinearCostProperties.

(** ** The smoother *)

Module SmootherProperties.

Import ConcurrentBatchSmoother.

(** *** Properties of [Values] *)

Section ValuesProperties.

Context {Value : Type}.
Local Abbreviation Values := (gmap Key Value).
Implicit Types (v new : Values) (l : list (Key * Value)).

Lemma insert_entries l : ∀ v v',
  NoDup l.*1 →
  foreach Values_insert1 l v = Ok v' ↔
  (∀ k, k ∈ l.*1 → v !! k = None) ∧ v' = v ∪ list_to_map l.
Proof.
  induction l as [|[k x] l IH]; intros v v' Hnd.
  - simpl. rewrite (right_id_L ∅ (∪)). split.
    + intros [= ->]. split; [|done]. intros k Hk. by apply elem_of_nil in Hk.
    + by intros [_ ->].
  - rewrite fmap_cons in Hnd |- *. rewrite list_to_map_cons, foreach_cons.
    cbn [fst] in *. apply NoDup_cons in Hnd as [Hk Hnd].
    assert (Hstep : Values_insert1 v (k, x) =
              match v !! k with
              | Some _ => Fail ValuesKeyAlreadyExists
              | None => Ok (<[k := x]> v)
              end) by reflexivity.
    rewrite Hstep. destruct (v !! k) as [y|] eqn:Hvk.
    + rewrite Exec_bind_Fail_l. split; [discriminate|]. intros [Hall _].
      specialize (Hall k (list_elem_of_here _ _)). congruence.
    + rewrite Exec_bind_Ok_l, (IH _ _ Hnd).
      rewrite <- insert_union_r by done. rewrite insert_union_l.
      split; intros [Hall ->]; (split; [|done]).
      * intros j [->|Hj]%elem_of_cons; [done|].
        by apply Hall, lookup_insert_None in Hj as [? _].
      * intros j Hj. apply lookup_insert_None. split.
        -- apply Hall. by right.
        -- by intros ->.
Qed.

Lemma update_entries l : ∀ v v',
  NoDup l.*1 →
  foreach Values_update1 l v = Ok v' ↔
  (∀ k, k ∈ l.*1 → is_Some (v !! k)) ∧ v' = list_to_map l ∪ v.
Proof.
  induction l as [|[k x] l IH]; intros v v' Hnd.
  - simpl. rewrite (left_id_L ∅ (∪)). split.
    + intros [= ->]. split; [|done]. intros k Hk. by apply elem_of_nil in Hk.
    + by intros [_ ->].
  - rewrite fmap_cons in Hnd |- *. rewrite list_to_map_cons, foreach_cons.
    cbn [fst] in *. apply NoDup_cons in Hnd as [Hk Hnd].
    assert (Hstep : Values_update1 v (k, x) =
              match v !! k with
              | Some _ => Ok (<[k := x]> v)
              | None => Fail ValuesKeyDoesNotExist
              end) by reflexivity.
    rewrite Hstep. destruct (v !! k) as [y|] eqn:Hvk.
    + rewrite Exec_bind_Ok_l, (IH _ _ Hnd).
      rewrite <- insert_union_l.
      rewrite insert_union_r by by apply not_elem_of_list_to_map_1.
      split; intros [Hall ->]; (split; [|done]).
      * intros j [->|Hj]%elem_of_cons; [by rewrite Hvk|].
        apply Hall, lookup_insert_is_Some in Hj as [->|[_ ?]]; [|done].
        by rewrite Hvk.
      * intros j Hj. apply lookup_insert_is_Some.
        destruct (decide (k = j)) as [->|?]; [by left|right].
        split; [done|]. apply Hall. by right.
    + rewrite Exec_bind_Fail_l. split; [discriminate|]. intros [Hall _].
      specialize (Hall k (list_elem_of_here _ _)). rewrite Hvk in Hall.
      by destruct Hall.
Qed.

Lemma fst_map_to_list v k : k ∈ (map_to_list v).*1 ↔ k ∈ dom v.
Proof.
  rewrite elem_of_dom, list_elem_of_fmap. split.
  - intros ([k' x] & -> & Hx%elem_of_map_to_list). by exists x.
  - intros [x Hx]. exists (k, x). by rewrite elem_of_map_to_list.
Qed.

Lemma Values_insert_Ok v new v' :
  Values_insert v new = Ok v' ↔ dom v ## dom new ∧ v' = v ∪ new.
Proof.
  unfold Values_insert.
  rewrite insert_entries by apply NoDup_fst_map_to_list.
  rewrite list_to_map_to_list.
  setoid_rewrite fst_map_to_list. setoid_rewrite <- not_elem_of_dom.
  set_solver.
Qed.

Lemma Values_update_Ok v new v' :
  Values_update v new = Ok v' ↔ dom new ⊆ dom v ∧ v' = new ∪ v.
Proof.
  unfold Values_update.
  rewrite update_entries by apply NoDup_fst_map_to_list.
  rewrite list_to_map_to_list.
  setoid_rewrite fst_map_to_list. setoid_rewrite <- elem_of_dom.
  set_solver.
Qed.

Lemma erase_entries ks : ∀ v v',
  foreach Values_erase ks v = Ok v' →
  (∀ k, k ∈ ks → v' !! k = None) ∧ (∀ k, k ∉ ks → v' !! k = v !! k).
Proof.
  induction ks as [|k ks IH]; intros v v'.
  - intros [= ->]. split; [|done]. intros k Hk. by apply elem_of_nil in Hk.
  - rewrite foreach_cons.
    change (Values_erase v k) with
      (match v !! k with
       | Some _ => Ok (delete k v)
       | None => Fail ValuesKeyDoesNotExist
       end).
    destruct (v !! k) as [y|] eqn:Hvk; [|by rewrite Exec_bind_Fail_l].
    rewrite Exec_bind_Ok_l. intros [Hin Hout]%IH. split.
    + intros j Hj. destruct (decide (j ∈ ks)) as [?|Hn]; [by apply Hin|].
      apply elem_of_cons in Hj as [->|?]; [|done].
      rewrite Hout by done. apply lookup_delete_eq.
    + intros j [Hne Hj]%not_elem_of_cons.
      rewrite Hout by done. by apply lookup_delete_ne.
Qed.

Lemma erase_entries_Ok ks : ∀ v,
  NoDup ks → (∀ k, k ∈ ks → is_Some (v !! k)) →
  ∃ v', foreach Values_erase ks v = Ok v'.
Proof.
  induction ks as [|k ks IH]; intros v Hnd Hall; [by eexists|].
  apply NoDup_cons in Hnd as [Hk Hnd].
  rewrite foreach_cons.
  change (Values_erase v k) with
    (match v !! k with
     | Some _ => Ok (delete k v)
     | None => Fail ValuesKeyDoesNotExist
     end).
  destruct (Hall k) as [y Hy]; [left|].
  rewrite Hy, Exec_bind_Ok_l. apply IH; [done|].
  intros j Hj. rewrite lookup_delete_ne; [apply Hall; by right|].
  by intros ->.
Qed.

Lemma insert_entries_fault (l : list (Key * Value)) : ∀ (v : gmap Key Value) e,
  foreach Values_insert1 l v = Fail e → e = ValuesKeyAlreadyExists.
Proof.
  induction l as [|[k x] l IH]; intros v e; [discriminate|].
  rewrite foreach_cons.
  change (Values_insert1 v (k, x)) with
    (match v !! k with
     | Some _ => Fail ValuesKeyAlreadyExists
     | None => Ok (<[k := x]> v)
     end).
  destruct (v !! k).
  - rewrite Exec_bind_Fail_l. by intros [= <-].
  - rewrite Exec_bind_Ok_l. apply IH.
Qed.

(** [insert] of a container with a key already present raises. *)
Lemma Values_insert_collision (v new : gmap Key Value) :
  ¬ dom v ## dom new → Values_insert v new = Fail ValuesKeyAlreadyExists.
Proof.
  intros Hn. destruct (Values_insert v new) as [v'|e] eqn:Hins.
  - apply Values_insert_Ok in Hins as [? _]. done.
  - apply insert_entries_fault in Hins as ->. done.
Qed.

End ValuesProperties.

(** *** Properties of the factor store *)

Section StoreProperties.

Context {Value NonlinearFactor : Type}.
Variable keys : NonlinearFactor -> list Key.

Local Abbreviation Smoother := (@Smoother Value NonlinearFactor).
Local Abbreviation FactorIndex := (gmap Key (gset nat)).

Implicit Types (s : Smoother) (i : FactorIndex) (f : NonlinearFactor).

Lemma slotsOf_index_insert slot slot' i k key :
  slot' ∈ slotsOf (index_insert slot i k) key ↔
  slot' ∈ slotsOf i key ∨ (slot' = slot ∧ key = k).
Proof.
  unfold index_insert. destruct (decide (k = key)) as [->|Hne].
  - unfold slotsOf at 1. rewrite lookup_insert_eq. simpl. set_solver.
  - unfold slotsOf at 1. rewrite lookup_insert_ne by done.
    fold (slotsOf i key). naive_solver.
Qed.

Lemma slotsOf_index_erase slot slot' i k key :
  slot' ∈ slotsOf (index_erase slot i k) key ↔
  slot' ∈ slotsOf i key ∧ ¬ (slot' = slot ∧ key = k).
Proof.
  unfold index_erase. destruct (decide (k = key)) as [->|Hne].
  - unfold slotsOf at 1. rewrite lookup_insert_eq. simpl. set_solver.
  - unfold slotsOf at 1. rewrite lookup_insert_ne by done.
    fold (slotsOf i key). naive_solver.
Qed.

Lemma slotsOf_foldl_insert slot slot' ks i key :
  slot' ∈ slotsOf (foldl (index_insert slot) i ks) key ↔
  slot' ∈ slotsOf i key ∨ (slot' = slot ∧ key ∈ ks).
Proof.
  revert i. induction ks as [|k ks IH]; intros i; simpl.
  - set_solver.
  - rewrite IH, slotsOf_index_insert. set_solver.
Qed.

Lemma slotsOf_foldl_erase slot slot' ks i key :
  slot' ∈ slotsOf (foldl (index_erase slot) i ks) key ↔
  slot' ∈ slotsOf i key ∧ ¬ (slot' = slot ∧ key ∈ ks).
Proof.
  revert i. induction ks as [|k ks IH]; intros i; simpl.
  - set_solver.
  - rewrite IH, slotsOf_index_erase. set_solver.
Qed.

Lemma index_exact_insert s s' slot f :
  index_exact keys s →
  (∀ g, ¬ occupied s slot g) →
  occupied s' slot f →
  (∀ j, j ≠ slot → graph_ s' !! j = graph_ s !! j) →
  factorIndex_ s' = foldl (index_insert slot) (factorIndex_ s) (keys f) →
  index_exact keys s'.
Proof.
  intros Hex Hfree Hocc Hother Hidx key slot'.
  rewrite Hidx, slotsOf_foldl_insert, (Hex key slot'). unfold occupied in *.
  destruct (decide (slot' = slot)) as [->|Hne].
  - split.
    + intros [(g & Hg & _)|[_ Hk]]; [by destruct (Hfree g)|by exists f].
    + intros (g & Hg & Hk). right. split; [done|]. congruence.
  - rewrite Hother by done. naive_solver.
Qed.

Lemma insertFactor_spec f s :
  store_wf keys s →
  ∃ slot s',
    insertFactor keys f s = Ok (slot, s') ∧
    slot = hd (length (graph_ s)) (availableSlots_ s) ∧
    (∀ g, ¬ occupied s slot g) ∧
    occupied s' slot f ∧
    (∀ j, j ≠ slot → graph_ s' !! j = graph_ s !! j) ∧
    availableSlots_ s' = tail (availableSlots_ s) ∧
    same_rest s s' ∧
    store_wf keys s'.
Proof.
  intros [Hex [Hnd Hfree]]. unfold insertFactor.
  destruct (availableSlots_ s) as [|front rest] eqn:Ha.
  - (* no hole: append *)
    eexists _, _. split; [reflexivity|]. simpl.
    assert (Hslot : ∀ g, ¬ occupied s (length (graph_ s)) g).
    { intros g Hg. unfold occupied in Hg.
      apply lookup_lt_Some in Hg. lia. }
    assert (Hocc : (graph_ s ++ [Some f]) !! length (graph_ s)
                   = Some (Some f)).
    { by rewrite list_lookup_middle. }
    assert (Hother : ∀ j, j ≠ length (graph_ s) →
              (graph_ s ++ [Some f]) !! j = graph_ s !! j).
    { intros j Hj. destruct (decide (j < length (graph_ s))).
      - by rewrite lookup_app_l.
      - rewrite !lookup_ge_None_2; [done|lia|rewrite length_app; simpl; lia]. }
    split_and!; try done. split; [|split].
    + eapply index_exact_insert; eauto.
    + constructor.
    + intros slot Hin. by apply elem_of_nil in Hin.
  - (* a hole: reuse the slot at the front of the queue *)
    assert (Hhole : graph_ s !! front = Some None).
    { apply Hfree. left. }
    assert (Hlt : front < length (graph_ s)).
    { by apply lookup_lt_Some in Hhole. }
    unfold Graph_replace. rewrite decide_True by done.
    eexists _, _. split; [reflexivity|]. simpl.
    assert (Hslot : ∀ g, ¬ occupied s front g).
    { intros g Hg. unfold occupied in Hg. congruence. }
    assert (Hocc : <[front := Some f]> (graph_ s) !! front = Some (Some f)).
    { by apply list_lookup_insert_eq. }
    assert (Hother : ∀ j, j ≠ front →
              <[front := Some f]> (graph_ s) !! j = graph_ s !! j).
    { intros j Hj. by apply list_lookup_insert_ne. }
    apply NoDup_cons in Hnd as [Hfront Hnd].
    split_and!; try done. split; [|split]; [|done|].
    + eapply index_exact_insert; eauto.
    + intros slot Hin. simpl. rewrite Hother.
      * apply Hfree. by right.
      * intros ->. done.
Qed.

Lemma removeFactor_spec f slot s :
  store_wf keys s →
  occupied s slot f →
  ∃ s',
    removeFactor keys slot s = Ok s' ∧
    graph_ s' = <[slot := None]> (graph_ s) ∧
    availableSlots_ s' = availableSlots_ s ++ [slot] ∧
    (∀ key, slot ∉ slotsOf (factorIndex_ s') key) ∧
    same_rest s s' ∧
    store_wf keys s'.
Proof.
  intros [Hex [Hnd Hfree]] Hocc. unfold removeFactor, Graph_at.
  unfold occupied in Hocc. rewrite Hocc. exec_simpl.
  assert (Hlt : slot < length (graph_ s)) by by apply lookup_lt_Some in Hocc.
  assert (Hidx : ∀ key slot',
    slot' ∈ slotsOf (foldl (index_erase slot) (factorIndex_ s) (keys f)) key ↔
    ∃ g, <[slot := None]> (graph_ s) !! slot' = Some (Some g) ∧ key ∈ keys g).
  { intros key slot'. rewrite slotsOf_foldl_erase, (Hex key slot').
    unfold occupied.
    destruct (decide (slot' = slot)) as [->|Hne].
    - rewrite list_lookup_insert_eq by done. split.
      + intros [(g & Hg & Hk) Hn]. destruct Hn. split; [done|]. congruence.
      + intros (g & [=] & _).
    - rewrite list_lookup_insert_ne by done. naive_solver. }
  eexists. split; [reflexivity|]. simpl. split_and!; try done.
  2: split; [done|split].
  - intros key Hin. apply Hidx in Hin as (g & Hg & _).
    rewrite list_lookup_insert_eq in Hg by done. discriminate.
  - apply NoDup_app. repeat split; [done| |apply NoDup_singleton].
    intros x Hx ->%list_elem_of_singleton. apply Hfree in Hx. congruence.
  - simpl. intros x [Hx| ->%list_elem_of_singleton]%elem_of_app.
    + rewrite list_lookup_insert_ne; [by apply Hfree|].
      intros ->. apply Hfree in Hx. congruence.
    + by apply list_lookup_insert_eq.
Qed.

Lemma store_wf_new (p : Parameters) :
  store_wf keys (Smoother_new p : Smoother).
Proof.
  split; [|split].
  - intros key slot. unfold slotsOf, occupied. simpl.
    rewrite lookup_empty. simpl. split; [set_solver|].
    intros (g & Hg & _). by rewrite lookup_nil in Hg.
  - constructor.
  - simpl. intros slot Hin. by apply elem_of_nil in Hin.
Qed.

(** C6.  Slot reuse: in a well-formed store, removing the factor of an
    occupied slot [slot] and then inserting [f] succeeds; [f] goes to the
    oldest hole, which is [slot] itself when the store had no hole before;
    and afterwards the reverse index relates [slot] to exactly the keys of
    [f] when [f] sits in [slot], and to no key otherwise -- nothing of the
    removed factor is left. *)
Theorem removeFactor_insertFactor_reuse s slot old f :
  store_wf keys s →
  occupied s slot old →
  ∃ s1 slot' s2,
    removeFactor keys slot s = Ok s1 ∧
    insertFactor keys f s1 = Ok (slot', s2) ∧
    slot' = hd slot (availableSlots_ s) ∧
    occupied s2 slot' f ∧
    (availableSlots_ s = [] → slot' = slot) ∧
    (∀ key,
       slot ∈ slotsOf (factorIndex_ s2) key ↔ slot' = slot ∧ key ∈ keys f) ∧
    store_wf keys s2.
Proof.
  intros Hwf Hocc.
  destruct (removeFactor_spec old slot s Hwf Hocc)
    as (s1 & Hrm & Hg1 & Ha1 & _ & _ & Hwf1).
  destruct (insertFactor_spec f s1 Hwf1)
    as (slot' & s2 & Hins & Hslot & Hfree & Hocc2 & Hother & _ & _ & Hwf2).
  exists s1, slot', s2.
  assert (Hhd : slot' = hd slot (availableSlots_ s)).
  { rewrite Hslot, Ha1. by destruct (availableSlots_ s). }
  split_and!; try done.
  - intros Hnil. by rewrite Hhd, Hnil.
  - intros key. destruct Hwf2 as [Hex2 _]. rewrite (Hex2 key slot).
    destruct (decide (slot' = slot)) as [->|Hne].
    + split.
      * intros (g & Hg & Hk). unfold occupied in *. split; [done|]. congruence.
      * intros [_ Hk]. by exists f.
    + split; [|by intros [? _]].
      intros (g & Hg & _). unfold occupied in Hg.
      rewrite Hother, Hg1 in Hg by done.
      rewrite list_lookup_insert_eq in Hg; [discriminate|].
      by apply lookup_lt_Some in Hocc.
Qed.

Lemma same_rest_refl s : same_rest s s.
Proof. by repeat split. Qed.

Lemma same_rest_trans s1 s2 s3 :
  same_rest s1 s2 → same_rest s2 s3 → same_rest s1 s3.
Proof.
  intros (?&?&?&?&?) (?&?&?&?&?). repeat split; congruence.
Qed.

Lemma removeFactors_spec slots : ∀ s,
  store_wf keys s →
  NoDup slots →
  (∀ slot, slot ∈ slots → ∃ f, occupied s slot f) →
  ∃ s',
    removeFactors keys slots s = Ok s' ∧
    store_wf keys s' ∧
    same_rest s s' ∧
    (∀ j, j ∈ slots → graph_ s' !! j = Some None) ∧
    (∀ j, j ∉ slots → graph_ s' !! j = graph_ s !! j).
Proof.
  induction slots as [|slot slots IH]; intros s Hwf Hnd Hocc; simpl.
  - exists s. split_and!; auto using same_rest_refl.
    intros j Hj. by apply elem_of_nil in Hj.
  - apply NoDup_cons in Hnd as [Hslot Hnd].
    destruct (Hocc slot) as [f Hf]; [left|].
    destruct (removeFactor_spec f slot s Hwf Hf)
      as (s1 & Hrm & Hg1 & _ & _ & Hrest1 & Hwf1).
    rewrite Hrm. exec_simpl.
    assert (Hlt : slot < length (graph_ s)) by by apply lookup_lt_Some in Hf.
    destruct (IH s1 Hwf1 Hnd) as (s' & Hrms & Hwf' & Hrest' & Hin & Hout).
    { intros x Hx. destruct (Hocc x) as [g Hg]; [by right|].
      exists g. unfold occupied in *. rewrite Hg1.
      rewrite list_lookup_insert_ne; [done|]. by intros ->. }
    exists s'. split_and!; eauto using same_rest_trans.
    + intros j [->|Hj]%elem_of_cons; [|by apply Hin].
      rewrite Hout, Hg1 by done. by apply list_lookup_insert_eq.
    + intros j [Hne Hj]%not_elem_of_cons.
      rewrite Hout, Hg1 by done. by apply list_lookup_insert_ne.
Qed.

Lemma insertFactors_spec fs : ∀ s,
  store_wf keys s →
  ∃ slots s',
    insertFactors keys fs s = Ok (slots, s') ∧
    store_wf keys s' ∧
    same_rest s s' ∧
    NoDup slots ∧
    Forall2 (occupied s') slots fs ∧
    (∀ slot g, slot ∈ slots → ¬ occupied s slot g) ∧
    (∀ j, j ∉ slots → graph_ s' !! j = graph_ s !! j).
Proof.
  induction fs as [|f fs IH]; intros s Hwf; simpl.
  - exists [], s. split_and!; auto using same_rest_refl.
    + constructor.
    + intros slot g Hin. by apply elem_of_nil in Hin.
  - destruct (insertFactor_spec f s Hwf)
      as (slot & s1 & Hins & _ & Hfree & Hocc & Hother & _ & Hrest1 & Hwf1).
    destruct (IH s1 Hwf1)
      as (slots & s' & Hinss & Hwf' & Hrest' & Hnd & Hall & Hfree' & Hout).
    rewrite Hins. exec_simpl. rewrite Hinss. exec_simpl.
    assert (Hslot : slot ∉ slots).
    { intros Hin. by apply (Hfree' slot f). }
    exists (slot :: slots), s'. split_and!; eauto using same_rest_trans.
    + by apply NoDup_cons.
    + constructor; [|done]. unfold occupied in *. by rewrite Hout.
    + intros x g [->|Hx]%elem_of_cons; [by apply Hfree|].
      intros Hg. apply (Hfree' x g Hx). unfold occupied in *.
      rewrite Hother; [done|]. by intros ->.
    + intros j [Hne Hj]%not_elem_of_cons. by rewrite Hout, Hother.
Qed.

(** A slot after a run of insertions holds what it held before, or one of
    the inserted factors. *)
Lemma insertFactors_slot fs s slots s' j :
  store_wf keys s →
  insertFactors keys fs s = Ok (slots, s') →
  graph_ s' !! j = graph_ s !! j ∨ ∃ f, f ∈ fs ∧ occupied s' j f.
Proof.
  intros Hwf Hins.
  destruct (insertFactors_spec fs s Hwf)
    as (slots0 & s0 & Hins0 & _ & _ & _ & Hall & _ & Hout).
  rewrite Hins in Hins0. injection Hins0 as <- <-.
  destruct (decide (j ∈ slots)) as [Hj|Hj]; [right|left; by apply Hout].
  apply list_elem_of_lookup in Hj as [n Hn].
  destruct (Forall2_lookup_l _ _ _ _ _ Hall Hn) as (f & Hf & Hocc).
  exists f. split; [|done]. by eapply list_elem_of_lookup_2.
Qed.

(** Insertions never touch an occupied slot. *)
Lemma insertFactors_keeps fs s slots s' j g :
  store_wf keys s →
  insertFactors keys fs s = Ok (slots, s') →
  occupied s j g → occupied s' j g.
Proof.
  intros Hwf Hins Hocc.
  destruct (insertFactors_spec fs s Hwf)
    as (slots0 & s0 & Hins0 & _ & _ & _ & _ & Hfree & Hout).
  rewrite Hins in Hins0. injection Hins0 as <- <-.
  unfold occupied in *. rewrite Hout; [done|].
  intros Hj. by apply (Hfree j g).
Qed.

Lemma insertFactor_rest f s slot s' :
  insertFactor keys f s = Ok (slot, s') → same_rest s s'.
Proof.
  unfold insertFactor. destruct (availableSlots_ s) as [|front rest].
  - intros [= <- <-]. by repeat split.
  - unfold Graph_replace. case_decide; [|discriminate].
    intros [= <- <-]. by repeat split.
Qed.

Lemma insertFactors_rest fs : ∀ s slots s',
  insertFactors keys fs s = Ok (slots, s') →
  same_rest s s' ∧ length (graph_ s) ≤ length (graph_ s').
Proof.
  induction fs as [|f fs IH]; intros s slots s'; simpl.
  - intros [= <- <-]. split; [apply same_rest_refl|done].
  - intros ([slot s1] & Hins & H)%Exec_bind_Ok.
    apply Exec_bind_Ok in H as ([slots' s2] & Hinss & [= <- <-]).
    apply IH in Hinss as [Hrest Hlen]. split.
    + eapply same_rest_trans; [|done]. by eapply insertFactor_rest.
    + etrans; [|done]. revert Hins. unfold insertFactor.
      destruct (availableSlots_ s) as [|front rest].
      * intros [= <- <-]. simpl. rewrite length_app. lia.
      * unfold Graph_replace. case_decide; [|discriminate].
        intros [= <- <-]. simpl. by rewrite length_insert.
Qed.

Lemma store_wf_ext s s' :
  graph_ s' = graph_ s →
  factorIndex_ s' = factorIndex_ s →
  availableSlots_ s' = availableSlots_ s →
  store_wf keys s → store_wf keys s'.
Proof.
  intros Hg Hi Ha. unfold store_wf, index_exact, slots_free, occupied.
  by rewrite Hg, Hi, Ha.
Qed.

Lemma synchronize_spec sf sv sum rv s :
  store_wf keys s →
  summary_wf s →
  dom (theta_ s) ## dom sv →
  ∃ s',
    synchronize keys sf sv sum rv s = Ok s' ∧
    store_wf keys s' ∧
    summary_wf s' ∧
    theta_ s' = theta_ s ∪ sv ∧
    rootValues_ s' = rv ∧
    Forall2 (occupied s') (filterSummarizationSlots_ s') sum ∧
    (∀ f, f ∈ sf → ∃ slot, occupied s' slot f) ∧
    (∀ slot, slot ∈ filterSummarizationSlots_ s →
       graph_ s' !! slot = Some None ∨
       ∃ f, f ∈ sum ++ sf ∧ occupied s' slot f) ∧
    (∀ slot g, occupied s slot g → slot ∉ filterSummarizationSlots_ s →
       occupied s' slot g) ∧
    (∀ slot g, occupied s' slot g →
       g ∈ sum ++ sf ∨
       (occupied s slot g ∧ slot ∉ filterSummarizationSlots_ s)).
Proof.
  intros Hwf [Hnd Hocc] Hdisj. unfold synchronize.
  (* remove the previous summarization *)
  destruct (removeFactors_spec (filterSummarizationSlots_ s) s Hwf Hnd Hocc)
    as (s1 & Hrm & Hwf1 & (_ & Ht1 & _) & Hin1 & Hout1).
  rewrite Hrm. exec_simpl.
  set (s1' := set_filterSummarizationSlots [] s1).
  assert (Hwf1' : store_wf keys s1') by by eapply store_wf_ext, Hwf1.
  (* insert the new summarization *)
  destruct (insertFactors_spec sum s1' Hwf1')
    as (slots & s2 & Hins2 & Hwf2 & (_ & Ht2 & _) & Hnd2 & Hall2 & _ & _).
  rewrite Hins2. exec_simpl.
  set (s2' := set_filterSummarizationSlots slots s2).
  assert (Hwf2' : store_wf keys s2') by by eapply store_wf_ext, Hwf2.
  (* insert the smoother factors *)
  destruct (insertFactors_spec sf s2' Hwf2')
    as (slots3 & s3 & Hins3 & Hwf3 & (_ & Ht3 & _ & Hfs3 & _) & _ & Hall3
        & _ & _).
  rewrite Hins3. exec_simpl.
  assert (Htheta : theta_ s3 = theta_ s).
  { rewrite Ht3. unfold s2'. simpl. rewrite Ht2. unfold s1'. by simpl. }
  assert (Hins : Values_insert (theta_ s3) sv = Ok (theta_ s ∪ sv)).
  { apply Values_insert_Ok. by rewrite Htheta. }
  rewrite Hins. exec_simpl.
  eexists. split; [reflexivity|].
  assert (Hkeep3 : ∀ j g, occupied s2 j g → occupied s3 j g).
  { intros j g Hg. by eapply (insertFactors_keeps sf s2'). }
  split; [by eapply store_wf_ext, Hwf3|]. split.
  { split; simpl; rewrite Hfs3; simpl; [done|].
    intros slot Hslot. apply list_elem_of_lookup in Hslot as [n Hn].
    destruct (Forall2_lookup_l _ _ _ _ _ Hall2 Hn) as (f & _ & Hf).
    exists f. by apply Hkeep3. }
  split_and!; simpl; try done.
  - rewrite Hfs3. simpl. eapply Forall2_impl; [exact Hall2|].
    intros slot f Hf. by apply Hkeep3.
  - intros f [n Hn]%list_elem_of_lookup.
    destruct (Forall2_lookup_r _ _ _ _ _ Hall3 Hn) as (slot & _ & Hf).
    by exists slot.
  - intros slot Hslot.
    destruct (insertFactors_slot sf s2' slots3 s3 slot Hwf2' Hins3)
      as [Hsame3|(f & Hf & Hoccf)].
    2: { right. exists f. split; [|done]. apply elem_of_app. by right. }
    destruct (insertFactors_slot sum s1' slots s2 slot Hwf1' Hins2)
      as [Hsame2|(f & Hf & Hoccf)].
    + left. rewrite Hsame3. simpl. rewrite Hsame2. simpl. by apply Hin1.
    + right. exists f. split; [apply elem_of_app; by left|by apply Hkeep3].
  - intros slot g Hg Hslot. apply Hkeep3.
    eapply (insertFactors_keeps sum s1'); [done..|].
    unfold occupied in *. simpl. by rewrite Hout1.
  - intros slot g Hg. unfold occupied in Hg. simpl in Hg.
    destruct (insertFactors_slot sf s2' slots3 s3 slot Hwf2' Hins3)
      as [Hsame3|(f & Hf & Hoccf)].
    2: { left. unfold occupied in Hoccf. apply elem_of_app. right.
         congruence. }
    destruct (insertFactors_slot sum s1' slots s2 slot Hwf1' Hins2)
      as [Hsame2|(f & Hf & Hoccf)].
    2: { left. unfold occupied in Hoccf. apply elem_of_app. left.
         simpl in Hsame3. congruence. }
    simpl in Hsame2, Hsame3. rewrite Hsame3, Hsame2 in Hg.
    destruct (decide (slot ∈ filterSummarizationSlots_ s)) as [Hin|Hout].
    + rewrite (Hin1 slot Hin) in Hg. discriminate.
    + right. split; [|done]. unfold occupied. by rewrite <- (Hout1 slot Hout).
Qed.

Lemma elem_of_findFactorsWithAny (keySet : gset Key) s slot :
  slot ∈ findFactorsWithAny keySet s ↔
  ∃ key, key ∈ keySet ∧ slot ∈ slotsOf (factorIndex_ s) key.
Proof.
  unfold findFactorsWithAny.
  assert (H : ∀ l : list Key,
    slot ∈ foldr (λ key factorSlots,
                    match factorIndex_ s !! key with
                    | Some slots => slots ∪ factorSlots
                    | None => factorSlots
                    end) (∅ : gset nat) l ↔
    ∃ key, key ∈ l ∧ slot ∈ slotsOf (factorIndex_ s) key).
  { induction l as [|k l IH]; simpl.
    - split; [set_solver|]. intros (key & Hk & _). by apply elem_of_nil in Hk.
    - unfold slotsOf in *.
      destruct (factorIndex_ s !! k) as [slots|] eqn:Hk.
      + rewrite elem_of_union, IH. split.
        * intros [Hs|(key & Hin & Hs)].
          -- exists k. rewrite Hk. split; [left|done].
          -- exists key. split; [by right|done].
        * intros (key & [->|Hin]%elem_of_cons & Hs).
          -- left. by rewrite Hk in Hs.
          -- right. by exists key.
      + rewrite IH. split.
        * intros (key & Hin & Hs). exists key. split; [by right|done].
        * intros (key & [->|Hin]%elem_of_cons & Hs).
          -- rewrite Hk in Hs. set_solver.
          -- by exists key. }
  rewrite H. by setoid_rewrite elem_of_elements.
Qed.

Lemma summary_wf_new (p : Parameters) : summary_wf (Smoother_new p : Smoother).
Proof.
  split; simpl; [constructor|]. intros slot Hin. by apply elem_of_nil in Hin.
Qed.

(** C5.  Two consecutive calls of [synchronize] on a well-formed smoother
    (whose incoming values carry fresh keys) both succeed.  After each call
    the recorded slots hold the filter summary handed in, in order, the
    smoother factors are in the store, the values are merged and the root
    values replaced.  After the second call nothing of the first summary is
    left: each slot recorded by the first call is a hole or holds a factor
    inserted by the second call, the reverse index relates such a slot only
    to keys of the factor now in it, and a lookup by keys that no factor of
    the second call has finds none of these slots; the slots outside the
    first summary keep their factors, and every factor in the store is one
    of the second call or was held outside the first summary. *)
Theorem synchronize_twice_no_residue sf1 sv1 sum1 rv1 sf2 sv2 sum2 rv2 s0 :
  store_wf keys s0 →
  summary_wf s0 →
  dom (theta_ s0) ## dom sv1 →
  dom (theta_ s0 ∪ sv1) ## dom sv2 →
  ∃ s1 s2,
    synchronize keys sf1 sv1 sum1 rv1 s0 = Ok s1 ∧
    synchronize keys sf2 sv2 sum2 rv2 s1 = Ok s2 ∧
    Forall2 (occupied s1) (filterSummarizationSlots_ s1) sum1 ∧
    Forall2 (occupied s2) (filterSummarizationSlots_ s2) sum2 ∧
    (∀ f, f ∈ sf2 → ∃ slot, occupied s2 slot f) ∧
    theta_ s2 = theta_ s0 ∪ sv1 ∪ sv2 ∧
    rootValues_ s2 = rv2 ∧
    (∀ slot, slot ∈ filterSummarizationSlots_ s1 →
       (graph_ s2 !! slot = Some None ∨
        ∃ f, f ∈ sum2 ++ sf2 ∧ occupied s2 slot f) ∧
       (∀ key, slot ∈ slotsOf (factorIndex_ s2) key →
          ∃ f, f ∈ sum2 ++ sf2 ∧ occupied s2 slot f ∧ key ∈ keys f)) ∧
    (∀ keySet : gset Key,
       (∀ f key, f ∈ sum2 ++ sf2 → key ∈ keys f → key ∉ keySet) →
       ∀ slot, slot ∈ filterSummarizationSlots_ s1 →
         slot ∉ findFactorsWithAny keySet s2) ∧
    (∀ slot g, occupied s1 slot g → slot ∉ filterSummarizationSlots_ s1 →
       occupied s2 slot g) ∧
    (∀ slot g, occupied s2 slot g →
       g ∈ sum2 ++ sf2 ∨
       (occupied s1 slot g ∧ slot ∉ filterSummarizationSlots_ s1)).
Proof.
  intros Hwf0 Hsum0 Hd1 Hd2.
  destruct (synchronize_spec sf1 sv1 sum1 rv1 s0 Hwf0 Hsum0 Hd1)
    as (s1 & Hs1 & Hwf1 & Hsum1 & Ht1 & _ & Hall1 & _).
  rewrite <- Ht1 in Hd2.
  destruct (synchronize_spec sf2 sv2 sum2 rv2 s1 Hwf1 Hsum1 Hd2)
    as (s2 & Hs2 & Hwf2 & _ & Ht2 & Hr2 & Hall2 & Hsf2 & Hres & Hkeep
        & Horigin).
  assert (Hidx : ∀ slot, slot ∈ filterSummarizationSlots_ s1 →
            ∀ key, slot ∈ slotsOf (factorIndex_ s2) key →
              ∃ f, f ∈ sum2 ++ sf2 ∧ occupied s2 slot f ∧ key ∈ keys f).
  { intros slot Hslot key Hin.
    destruct Hwf2 as [Hex2 _]. apply (Hex2 key slot) in Hin as (g & Hg & Hk).
    destruct (Hres slot Hslot) as [Hnone|(f & Hf & Hocc)].
    - unfold occupied in Hg. congruence.
    - exists f. unfold occupied in *. split_and!; [done..|]. congruence. }
  exists s1, s2. split_and!; try done.
  - by rewrite Ht2, Ht1.
  - intros slot Hslot. split; [by apply Hres|by apply Hidx].
  - intros keySet Hfresh slot Hslot
      (key & Hkey & Hin)%elem_of_findFactorsWithAny.
    destruct (Hidx slot Hslot key Hin) as (f & Hf & _ & Hk).
    by apply (Hfresh f key).
Qed.

End StoreProperties.

(** *** Properties of [update] *)

Section UpdateProperties.

Context {Value NonlinearFactor : Type}.
Variable keys : NonlinearFactor -> list Key.

Local Abbreviation Values := (gmap Key Value).
Local Abbreviation Graph := (list (option NonlinearFactor)).
Local Abbreviation Smoother := (@Smoother Value NonlinearFactor).
Local Abbreviation OptimizerState := (@OptimizerState Value).

Variable graph_error : Graph -> Values -> Exec Qc.
Variable iterate :
  Graph -> Parameters -> OptimizerState -> Exec OptimizerState.
Variable checkConvergence : Qc -> Qc -> Qc -> Qc -> Qc -> nat -> bool.
Variable summarizeRoot :
  Graph -> Values -> Values -> Parameters -> Exec (list NonlinearFactor).

Local Abbreviation enforce_consistency := (enforce_consistency graph_error).
Local Abbreviation iteration := (iteration graph_error iterate).
Local Abbreviation visited := (visited graph_error iterate checkConvergence).
Local Abbreviation optimize_loop :=
  (optimize_loop graph_error iterate checkConvergence).
Local Abbreviation optimize := (optimize graph_error iterate checkConvergence).
Local Abbreviation update :=
  (update keys graph_error iterate checkConvergence summarizeRoot).
Local Abbreviation summarize := (summarize summarizeRoot).
Local Abbreviation iterate_counts := (iterate_counts iterate).

Implicit Types (s : Smoother) (o : OptimizerState).

(** One execution of the body is a call of [iterate] followed by the
    enforcement of the root values. *)
Lemma iteration_inv s o o' :
  iteration s o = Ok o' ↔
  ∃ o1, iterate (graph_ s) (parameters_ s) o = Ok o1 ∧
        enforce_consistency s o1 = Ok o'.
Proof. unfold ConcurrentBatchSmoother.iteration. apply Exec_bind_Ok. Qed.

(** What the enforcement does when it returns. *)
Lemma enforce_consistency_inv s o1 o' :
  enforce_consistency s o1 = Ok o' →
  state_iterations o' = state_iterations o1 ∧
  if has_root s then
    dom (rootValues_ s) ⊆ dom (state_values o1) ∧
    state_values o' = rootValues_ s ∪ state_values o1 ∧
    graph_error (graph_ s) (state_values o') = Ok (state_error o')
  else o' = o1.
Proof.
  unfold ConcurrentBatchSmoother.enforce_consistency.
  destruct (has_root s).
  - intros (v & [Hsub ->]%Values_update_Ok & H)%Exec_bind_Ok.
    apply Exec_bind_Ok in H as (e & He & [= <-]). done.
  - by intros [= <-].
Qed.

Lemma iteration_pins_root s o o' :
  has_root s = true →
  iteration s o = Ok o' →
  (∀ key x, rootValues_ s !! key = Some x →
            state_values o' !! key = Some x) ∧
  graph_error (graph_ s) (state_values o') = Ok (state_error o').
Proof.
  intros Hroot (o1 & _ & Henf)%iteration_inv.
  apply enforce_consistency_inv in Henf as [_ Henf].
  rewrite Hroot in Henf. destruct Henf as (_ & Hv & He).
  split; [|done]. intros key x Hx. rewrite Hv.
  by apply lookup_union_Some_l.
Qed.

Lemma visited_last s o o' :
  visited s o o' → ∃ o1, iteration s o1 = Ok o'.
Proof. induction 1; eauto. Qed.

Lemma optimize_loop_visited fuel : ∀ s o o',
  optimize_loop fuel s o = Ok o' → visited s o o'.
Proof.
  induction fuel as [|fuel IH]; intros s o o'; simpl; [discriminate|].
  intros (o1 & Hit & Hrest)%Exec_bind_Ok.
  destruct (continue _ _ _ _) eqn:Hc.
  - eapply visited_next; eauto.
  - injection Hrest as <-. by apply visited_first.
Qed.

(** C1.  Root consistency.  While root values are pinned, at the end of
    every execution of the optimization loop's body -- hence also in the
    state the loop ends with -- the optimizer's values agree with the pinned
    root values at every root key (equality, not closeness), and its error
    is the graph's error recomputed at these values. *)
Theorem update_root_consistency s o o' :
  has_root s = true →
  visited s o o' ∨ (∃ fuel, optimize_loop fuel s o = Ok o') →
  (∀ key x, rootValues_ s !! key = Some x →
            state_values o' !! key = Some x) ∧
  graph_error (graph_ s) (state_values o') = Ok (state_error o').
Proof.
  intros Hroot Hv.
  assert (Hvis : visited s o o').
  { destruct Hv as [?|[fuel Hl]]; [done|]. by eapply optimize_loop_visited. }
  destruct (visited_last s o o' Hvis) as [o1 Hit].
  by eapply iteration_pins_root.
Qed.

Lemma iteration_counts s o o' :
  iterate_counts →
  iteration s o = Ok o' → state_iterations o < state_iterations o'.
Proof.
  intros Hc (o1 & Hit & [Hn _]%enforce_consistency_inv)%iteration_inv.
  rewrite Hn. by eapply Hc.
Qed.

Lemma iteration_keys s o o' :
  iteration s o = Ok o' →
  ∃ o1, iterate (graph_ s) (parameters_ s) o = Ok o1 ∧
        dom (state_values o') = dom (state_values o1).
Proof.
  intros (o1 & Hit & [_ Henf]%enforce_consistency_inv)%iteration_inv.
  exists o1. split; [done|]. destruct (has_root s).
  - destruct Henf as (Hsub & -> & _). rewrite dom_union_L. set_solver.
  - by subst.
Qed.

(** One execution of the body succeeds when [iterate] returns a state that
    has the root keys among its keys and the error of the graph can be
    computed at the state with the root values put back. *)
Lemma iteration_Ok s o o1 :
  iterate (graph_ s) (parameters_ s) o = Ok o1 →
  dom (rootValues_ s) ⊆ dom (state_values o1) →
  (∃ e, graph_error (graph_ s) (rootValues_ s ∪ state_values o1) = Ok e) →
  ∃ o', iteration s o = Ok o'.
Proof.
  intros Hit Hsub [e He].
  unfold ConcurrentBatchSmoother.iteration.
  rewrite Hit, Exec_bind_Ok_l.
  unfold ConcurrentBatchSmoother.enforce_consistency.
  destruct (has_root s); [|by eexists].
  assert (Hu : Values_update (state_values o1) (rootValues_ s)
               = Ok (rootValues_ s ∪ state_values o1))
    by by apply Values_update_Ok.
  rewrite Hu, Exec_bind_Ok_l, He, Exec_bind_Ok_l. by eexists.
Qed.

(** The fuel [S maxIterations] is enough: the loop ends by its own
    condition. *)
Lemma optimize_loop_Ok (P : OptimizerState → Prop) s :
  iterate_counts →
  (∀ o, P o → ∃ o', iteration s o = Ok o' ∧ P o') →
  ∀ fuel o,
    P o →
    maxIterations (parameters_ s) < fuel + state_iterations o →
    0 < fuel →
    ∃ o', optimize_loop fuel s o = Ok o' ∧ P o'.
Proof.
  intros Hc Hstep. induction fuel as [|fuel IH]; intros o HP Hfuel Hpos;
    [lia|].
  destruct (Hstep o HP) as (o1 & Hit & HP1). simpl. rewrite Hit. exec_simpl.
  pose proof (iteration_counts s o o1 Hc Hit) as Hlt.
  destruct (continue _ _ _ _) eqn:Hcont; [|by exists o1].
  apply andb_true_iff in Hcont as [Hmax%bool_decide_eq_true _].
  apply IH; [done|lia|lia].
Qed.

(** What a successful [update] has done. *)
Lemma update_inv nf nt s r s' :
  update nf nt s = Ok (r, s') →
  ∃ slots s1 theta,
    insertFactors keys nf s = Ok (slots, s1) ∧
    Values_insert (theta_ s1) nt = Ok theta ∧
    graph_ s' = graph_ s1 ∧
    rootValues_ s' = rootValues_ s1 ∧
    (factorIndex_ s' = factorIndex_ s1 ∧
     availableSlots_ s' = availableSlots_ s1 ∧
     filterSummarizationSlots_ s' = filterSummarizationSlots_ s1) ∧
    ((length (graph_ s1) = 0 ∧ r = Result_default ∧ theta_ s' = theta) ∨
     (0 < length (graph_ s1) ∧
      ∃ o, optimize (set_theta theta s1) = Ok o ∧
           foreach Values_erase (Values_keys (rootValues_ s1))
             (state_values o) = Ok (theta_ s') ∧
           r = {| iterations := state_iterations o;
                  nonlinearVariables := size (theta_ s');
                  linearVariables := size (rootValues_ s1);
                  error := state_error o |})).
Proof.
  unfold ConcurrentBatchSmoother.update.
  intros ([slots s1] & Hins & H)%Exec_bind_Ok.
  apply Exec_bind_Ok in H as (theta & Htheta & H).
  apply Exec_bind_Ok in H as ([r2 s2] & Hopt & H).
  apply Exec_bind_Ok in H as (s3 & Hpre & [= <- <-]).
  exists slots, s1, theta. split; [done|]. split; [done|].
  assert (Hs3 : graph_ s3 = graph_ s2 ∧ rootValues_ s3 = rootValues_ s2 ∧
                theta_ s3 = theta_ s2 ∧ factorIndex_ s3 = factorIndex_ s2 ∧
                availableSlots_ s3 = availableSlots_ s2 ∧
                filterSummarizationSlots_ s3 = filterSummarizationSlots_ s2).
  { unfold ConcurrentBatchSmoother.summarize in Hpre.
    destruct (has_root s2); [|by injection Hpre as <-].
    apply Exec_bind_Ok in Hpre as (l1 & _ & Hpre).
    apply Exec_bind_Ok in Hpre as (l2 & _ & Hpre).
    apply Exec_bind_Ok in Hpre as (l3 & _ & [= <-]). done. }
  destruct Hs3 as (-> & -> & -> & -> & -> & ->).
  simpl in Hopt. case_bool_decide as Hlen.
  - apply Exec_bind_Ok in Hopt as (o & Ho & Hopt).
    apply Exec_bind_Ok in Hopt as (theta' & Herase & [= <- <-]). simpl.
    split_and!; try done. right. split; [done|]. by exists o.
  - injection Hopt as <- <-. simpl.
    split_and!; try done. left. split; [lia|done].
Qed.

(** [update] keeps the invariants of the store. *)
Lemma update_keeps_wf nf nt s r s' :
  store_wf keys s → summary_wf s →
  update nf nt s = Ok (r, s') →
  store_wf keys s' ∧ summary_wf s'.
Proof.
  intros Hwf [Hnd Hocc]
    (slots & s1 & theta & Hins & _ & Hg & _ & (Hi & Ha & Hf) & _)%update_inv.
  destruct (insertFactors_spec keys nf s Hwf)
    as (slots0 & s0 & Hins0 & Hwf1 & (_ & _ & _ & Hf1 & _) & _).
  rewrite Hins in Hins0. injection Hins0 as <- <-.
  split; [by eapply store_wf_ext, Hwf1|].
  unfold summary_wf, occupied. rewrite Hf, Hf1, Hg. split; [done|].
  intros slot [f Hslot]%Hocc. exists f.
  by eapply (insertFactors_keeps keys nf s).
Qed.

Lemma has_root_false s : has_root s = false → rootValues_ s = ∅.
Proof.
  unfold has_root. intros Hsz%bool_decide_eq_false.
  apply map_size_empty_iff. lia.
Qed.

Lemma visited_counts s o o' :
  iterate_counts →
  visited s o o' → state_iterations o < state_iterations o'.
Proof.
  intros Hc. induction 1 as [o o' Hit|o o1 o' Hit _ _ IH].
  - by eapply iteration_counts.
  - pose proof (iteration_counts s o o1 Hc Hit). lia.
Qed.

(** In a run of the loop every state at the end of the body satisfies what
    one execution of the body keeps. *)
Lemma visited_invariant (P : OptimizerState → Prop) s o o' :
  (∀ o1 o2, P o1 → iteration s o1 = Ok o2 → P o2) →
  P o → visited s o o' → P o'.
Proof.
  intros Hstep HP. induction 1 as [o o' Hit|o o1 o' Hit _ _ IH]; eauto.
Qed.

(** What a successful [optimize] has done: the optimizer was created at the
    point made of the smoother's values and the root values, whose keys are
    apart, and the loop ran from there. *)
Lemma optimize_inv s o :
  optimize s = Ok o →
  dom (theta_ s) ## dom (rootValues_ s) ∧
  ∃ e, graph_error (graph_ s) (theta_ s ∪ rootValues_ s) = Ok e ∧
       visited s
         {| state_values := theta_ s ∪ rootValues_ s; state_error := e;
            state_iterations := 0 |} o.
Proof.
  unfold ConcurrentBatchSmoother.optimize.
  intros (l1 & [_ ->]%Values_insert_Ok & H)%Exec_bind_Ok.
  apply Exec_bind_Ok in H as (l2 & Hl2 & H).
  apply Exec_bind_Ok in H as (o0 & Ho0 & Hloop%optimize_loop_visited).
  unfold LevenbergMarquardtOptimizer in Ho0.
  apply Exec_bind_Ok in Ho0 as (e & He & [= <-]).
  rewrite (left_id_L ∅ (∪)) in Hl2.
  destruct (has_root s) eqn:Hroot.
  - apply Values_insert_Ok in Hl2 as [Hdisj ->]. split; [done|].
    by exists e.
  - injection Hl2 as <-. apply has_root_false in Hroot.
    rewrite Hroot, (right_id_L ∅ (∪)) in *. split.
    + rewrite dom_empty_L. set_solver.
    + by exists e.
Qed.

(** [optimize] returns when the keys of the values and of the root values
    are apart and, over these keys, the error of the graph can be computed
    and [iterate] returns a state over the same keys: the fuel is enough and
    no value is missing. *)
Lemma optimize_Ok s :
  iterate_counts →
  dom (theta_ s) ## dom (rootValues_ s) →
  (∀ v, dom v = dom (theta_ s) ∪ dom (rootValues_ s) →
        ∃ e, graph_error (graph_ s) v = Ok e) →
  (∀ o, dom (state_values o) = dom (theta_ s) ∪ dom (rootValues_ s) →
        ∃ o', iterate (graph_ s) (parameters_ s) o = Ok o' ∧
              dom (state_values o') = dom (theta_ s) ∪ dom (rootValues_ s)) →
  ∃ o, optimize s = Ok o.
Proof.
  intros Hc Hdisj Herr Hiter. unfold ConcurrentBatchSmoother.optimize.
  assert (Hl : Values_insert ∅ (theta_ s) = Ok (∅ ∪ theta_ s)).
  { apply Values_insert_Ok. split; [|done]. rewrite dom_empty_L. set_solver. }
  rewrite Hl, Exec_bind_Ok_l, (left_id_L ∅ (∪)).
  assert (Hlin : ∃ linpoint,
            (if has_root s then Values_insert (theta_ s) (rootValues_ s)
             else Ok (theta_ s)) = Ok linpoint ∧
            dom linpoint = dom (theta_ s) ∪ dom (rootValues_ s)).
  { destruct (has_root s) eqn:Hroot.
    - exists (theta_ s ∪ rootValues_ s). split.
      + by apply Values_insert_Ok.
      + by rewrite dom_union_L.
    - exists (theta_ s). split; [done|].
      rewrite (has_root_false s Hroot), dom_empty_L. set_solver. }
  destruct Hlin as (linpoint & -> & Hdom). rewrite Exec_bind_Ok_l.
  destruct (Herr linpoint Hdom) as [e He].
  unfold LevenbergMarquardtOptimizer. rewrite He, !Exec_bind_Ok_l.
  destruct (optimize_loop_Ok
              (λ o, dom (state_values o)
                    = dom (theta_ s) ∪ dom (rootValues_ s)) s Hc)
    with (fuel := S (maxIterations (parameters_ s)))
         (o := {| state_values := linpoint; state_error := e;
                  state_iterations := 0 |})
    as (o & Ho & _); [|done|simpl; lia|lia|by exists o].
  intros o Ho. destruct (Hiter o Ho) as (o1 & Hit & Hd1).
  assert (Hd2 : dom (rootValues_ s ∪ state_values o1)
                = dom (theta_ s) ∪ dom (rootValues_ s)).
  { rewrite dom_union_L, Hd1. set_solver. }
  destruct (iteration_Ok s o o1 Hit) as [o' Ho'].
  { rewrite Hd1. set_solver. }
  { by apply Herr. }
  exists o'. split; [done|].
  destruct (iteration_keys s o o' Ho') as (o2 & Hit2 & ->).
  rewrite Hit in Hit2. by injection Hit2 as <-.
Qed.

(** [update] returns on a well-formed smoother whose graph holds a slot
    after the insertions, when the new values and the root values have fresh
    keys and the collaborators return over the keys of the linearization
    point; the values it leaves are those of the optimizer's last state with
    the root keys erased. *)
Lemma update_returns nf nt s slots s1 :
  store_wf keys s →
  iterate_counts →
  dom (theta_ s) ## dom nt →
  dom (theta_ s ∪ nt) ## dom (rootValues_ s) →
  insertFactors keys nf s = Ok (slots, s1) →
  0 < length (graph_ s1) →
  (∀ v, dom v = dom (theta_ s) ∪ dom nt ∪ dom (rootValues_ s) →
        ∃ e, graph_error (graph_ s1) v = Ok e) →
  (∀ o, dom (state_values o) = dom (theta_ s) ∪ dom nt ∪ dom (rootValues_ s) →
        ∃ o', iterate (graph_ s1) (parameters_ s) o = Ok o' ∧
              dom (state_values o')
              = dom (theta_ s) ∪ dom nt ∪ dom (rootValues_ s)) →
  (∀ linpoint,
     dom linpoint = dom (theta_ s) ∪ dom nt ∪ dom (rootValues_ s) →
     ∃ l, summarizeRoot (graph_ s1) linpoint (rootValues_ s) (parameters_ s)
          = Ok l) →
  ∃ r s' o,
    update nf nt s = Ok (r, s') ∧
    optimize (set_theta (theta_ s ∪ nt) s1) = Ok o ∧
    dom (state_values o) = dom (theta_ s) ∪ dom nt ∪ dom (rootValues_ s) ∧
    foreach Values_erase (Values_keys (rootValues_ s)) (state_values o)
    = Ok (theta_ s') ∧
    rootValues_ s' = rootValues_ s.
Proof.
  intros Hwf Hc Hd1 Hd2 Hins Hlen Herr Hiter Hsum.
  pose proof (insertFactors_rest keys nf s slots s1 Hins)
    as [(Hp1 & Ht1 & Hr1 & _) _].
  set (s2 := set_theta (theta_ s ∪ nt) s1).
  assert (Hdom2 : dom (theta_ s2) ∪ dom (rootValues_ s2)
                  = dom (theta_ s) ∪ dom nt ∪ dom (rootValues_ s)).
  { simpl. by rewrite Hr1, dom_union_L. }
  destruct (optimize_Ok s2 Hc) as [o Ho].
  { simpl. by rewrite Hr1. }
  { intros v Hv. apply Herr. by rewrite <- Hdom2. }
  { intros o Ho. rewrite Hdom2 in *. simpl. rewrite Hp1. by apply Hiter. }
  assert (Hdo : dom (state_values o)
                = dom (theta_ s) ∪ dom nt ∪ dom (rootValues_ s)).
  { pose proof Ho as (_ & e & _ & Hvis)%optimize_inv.
    apply (visited_invariant
             (λ o, dom (state_values o)
                   = dom (theta_ s) ∪ dom nt ∪ dom (rootValues_ s))) in Hvis.
    - done.
    - intros o1 o2 Ho1 (o3 & Hit3 & ->)%iteration_keys.
      destruct (Hiter o1 Ho1) as (o4 & Hit4 & Hd4). simpl in Hit3.
      rewrite Hp1, Hit4 in Hit3. by injection Hit3 as <-.
    - simpl. by rewrite Hr1, !dom_union_L. }
  destruct (erase_entries_Ok (Values_keys (rootValues_ s)) (state_values o))
    as [theta' Herase].
  { apply NoDup_fst_map_to_list. }
  { intros k Hk'. apply fst_map_to_list in Hk'. apply elem_of_dom.
    rewrite Hdo. set_solver. }
  pose proof Herase as [Hin Hout]%erase_entries.
  assert (Hdt : dom theta' ## dom (rootValues_ s)).
  { intros k Hk1 Hk2. apply elem_of_dom in Hk1 as [x Hx].
    rewrite Hin in Hx; [discriminate|]. by apply fst_map_to_list. }
  assert (Hdt' : dom (theta' ∪ rootValues_ s)
                 = dom (theta_ s) ∪ dom nt ∪ dom (rootValues_ s)).
  { apply set_eq. intros k. rewrite dom_union_L, elem_of_union, <- Hdo.
    rewrite !elem_of_dom.
    destruct (decide (k ∈ dom (rootValues_ s))) as [Hk|Hk].
    - split; [|by right; apply elem_of_dom].
      intros _. apply elem_of_dom. rewrite Hdo. set_solver.
    - rewrite (Hout k) by (unfold Values_keys; by rewrite fst_map_to_list).
      split; [|by left]. intros [?|?%elem_of_dom]; done. }
  set (s3 := set_theta theta' s2).
  assert (Hpre : ∃ s', summarize s3 = Ok s' ∧ theta_ s' = theta' ∧
                       rootValues_ s' = rootValues_ s).
  { unfold ConcurrentBatchSmoother.summarize.
    destruct (has_root s3); [|by exists s3].
    assert (H0 : Values_insert (∅ : Values) (theta_ s3) = Ok (∅ ∪ theta')).
    { apply Values_insert_Ok. split; [|done]. rewrite dom_empty_L.
      set_solver. }
    rewrite H0, Exec_bind_Ok_l, (left_id_L ∅ (∪)).
    assert (H1 : Values_insert theta' (rootValues_ s3)
                 = Ok (theta' ∪ rootValues_ s)).
    { apply Values_insert_Ok. simpl. by rewrite Hr1. }
    rewrite H1, Exec_bind_Ok_l.
    destruct (Hsum (theta' ∪ rootValues_ s) Hdt') as [l Hl].
    simpl. rewrite Hr1, Hp1, Hl, Exec_bind_Ok_l.
    eexists. split; [done|]. by simpl. }
  destruct Hpre as (s' & Hs' & Hts' & Hrs').
  exists {| iterations := state_iterations o;
            nonlinearVariables := size theta';
            linearVariables := size (rootValues_ s);
            error := state_error o |}, s', o.
  split_and!; [|done|done|by rewrite Hts'|done].
  unfold ConcurrentBatchSmoother.update.
  rewrite Hins, Exec_bind_Ok_l. cbn beta iota.
  assert (Hl : Values_insert (theta_ s1) nt = Ok (theta_ s ∪ nt)).
  { apply Values_insert_Ok. by rewrite Ht1. }
  rewrite Hl, Exec_bind_Ok_l. cbn zeta. fold s2.
  rewrite bool_decide_eq_true_2 by done.
  rewrite Ho, Exec_bind_Ok_l.
  change (rootValues_ s2) with (rootValues_ s1). rewrite Hr1.
  rewrite Herase, !Exec_bind_Ok_l. cbn zeta. fold s3.
  rewrite Hs', Exec_bind_Ok_l. simpl. by rewrite Hr1.
Qed.

(** C8.  When the graph holds a slot after the insertions, [update] runs
    the optimization loop and -- provided the collaborators return over the
    keys at hand -- returns; the values it then exports are those of the
    optimizer's last state, in which every root key holds its pinned value,
    with exactly the root keys erased: no key of the pinned root values is
    left, every other key has the optimizer's value, the keys are those of
    the values held before and of the new values, and the root values
    themselves are kept for the filter. *)
Theorem update_erases_root_keys nf nt s slots s1 :
  store_wf keys s →
  iterate_counts →
  dom (theta_ s) ## dom nt →
  dom (theta_ s ∪ nt) ## dom (rootValues_ s) →
  insertFactors keys nf s = Ok (slots, s1) →
  0 < length (graph_ s1) →
  (∀ v, dom v = dom (theta_ s) ∪ dom nt ∪ dom (rootValues_ s) →
        ∃ e, graph_error (graph_ s1) v = Ok e) →
  (∀ o, dom (state_values o) = dom (theta_ s) ∪ dom nt ∪ dom (rootValues_ s) →
        ∃ o', iterate (graph_ s1) (parameters_ s) o = Ok o' ∧
              dom (state_values o')
              = dom (theta_ s) ∪ dom nt ∪ dom (rootValues_ s)) →
  (∀ linpoint,
     dom linpoint = dom (theta_ s) ∪ dom nt ∪ dom (rootValues_ s) →
     ∃ l, summarizeRoot (graph_ s1) linpoint (rootValues_ s) (parameters_ s)
          = Ok l) →
  ∃ r s' o,
    update nf nt s = Ok (r, s') ∧
    optimize (set_theta (theta_ s ∪ nt) s1) = Ok o ∧
    (∀ key, key ∈ dom (rootValues_ s) →
            state_values o !! key = rootValues_ s !! key ∧
            theta_ s' !! key = None) ∧
    (∀ key, key ∉ dom (rootValues_ s) →
            theta_ s' !! key = state_values o !! key) ∧
    dom (theta_ s') = dom (theta_ s) ∪ dom nt ∧
    rootValues_ s' = rootValues_ s.
Proof.
  intros Hwf Hc Hd1 Hd2 Hins Hlen Herr Hiter Hsum.
  destruct (update_returns nf nt s slots s1 Hwf Hc Hd1 Hd2 Hins Hlen Herr
              Hiter Hsum) as (r & s' & o & Hu & Ho & Hdo & Herase & Hr).
  pose proof (insertFactors_rest keys nf s slots s1 Hins)
    as [(_ & _ & Hr1 & _) _].
  apply erase_entries in Herase as [Hin Hout].
  exists r, s', o. split_and!; try done.
  - intros key Hkey. split; [|by apply Hin, fst_map_to_list].
    apply elem_of_dom in Hkey as [x Hx]. rewrite Hx.
    assert (Hroot : has_root (set_theta (theta_ s ∪ nt) s1) = true).
    { unfold has_root. apply bool_decide_eq_true. simpl. rewrite Hr1.
      destruct (decide (size (rootValues_ s) = 0)) as [Hz|]; [|lia].
      apply map_size_empty_iff in Hz. by rewrite Hz in Hx. }
    apply optimize_inv in Ho as (_ & e & _ & (o1 & Hit)%visited_last).
    apply (iteration_pins_root _ _ _ Hroot) in Hit as [Hpin _].
    apply Hpin. simpl. by rewrite Hr1.
  - intros key Hkey. apply Hout. unfold Values_keys.
    by rewrite fst_map_to_list.
  - apply set_eq. intros key.
    destruct (decide (key ∈ dom (rootValues_ s))) as [Hkey|Hkey].
    + split.
      * intros [x Hx]%elem_of_dom.
        rewrite Hin in Hx by by apply fst_map_to_list. discriminate.
      * rewrite <- dom_union_L. set_solver.
    + rewrite elem_of_dom, Hout
        by (unfold Values_keys; by rewrite fst_map_to_list).
      rewrite <- elem_of_dom, Hdo. set_solver.
Qed.

Lemma optimize_no_root_Ok s :
  iterate_counts →
  has_root s = false →
  (∃ e, graph_error (graph_ s) (theta_ s) = Ok e) →
  (∀ o, dom (state_values o) = dom (theta_ s) →
        ∃ o', iterate (graph_ s) (parameters_ s) o = Ok o' ∧
              dom (state_values o') = dom (theta_ s)) →
  ∃ o, optimize s = Ok o ∧ 1 ≤ state_iterations o.
Proof.
  intros Hc Hroot [e He] Hiter. unfold ConcurrentBatchSmoother.optimize.
  assert (Hl : Values_insert ∅ (theta_ s) = Ok (∅ ∪ theta_ s)).
  { apply Values_insert_Ok. split; [|done]. rewrite dom_empty_L. set_solver. }
  rewrite Hl, Exec_bind_Ok_l, Hroot, Exec_bind_Ok_l, (left_id_L ∅ (∪)).
  unfold LevenbergMarquardtOptimizer. rewrite He, !Exec_bind_Ok_l.
  set (o0 := {| state_values := theta_ s; state_error := e;
                state_iterations := 0 |}).
  destruct (optimize_loop_Ok
              (λ o, dom (state_values o) = dom (theta_ s)) s Hc) with
    (fuel := S (maxIterations (parameters_ s))) (o := o0)
    as (o & Ho & _); [|done|simpl; lia|lia|].
  - intros o Ho. destruct (Hiter o Ho) as (o1 & Hit & Hd1).
    exists o1. split; [|done].
    unfold ConcurrentBatchSmoother.iteration,
      ConcurrentBatchSmoother.enforce_consistency.
    by rewrite Hit, Exec_bind_Ok_l, Hroot.
  - exists o. split; [done|].
    apply optimize_loop_visited, (visited_counts _ _ _ Hc) in Ho.
    simpl in Ho. lia.
Qed.

(** C7 (as the code has it).  [update] adds the new factors before it looks
    at the size of the graph.  So a first [update] with one factor on a
    fresh smoother (no root values) runs the optimizer: it returns and
    reports at least one iteration when the error of the graph at the new
    values and the iterations over their keys return, and it raises what the
    error or the first iteration raises otherwise.  In general a successful
    [update] reports at least one iteration whenever the graph holds a slot
    afterwards, and reports the initial [Result] (zero iterations) only when
    the graph is still empty. *)
Theorem update_reports_iterations :
  iterate_counts →
  (∀ p f nt,
     (∃ e, graph_error [Some f] nt = Ok e) →
     (∀ o, dom (state_values o) = dom nt →
           ∃ o', iterate [Some f] p o = Ok o' ∧
                 dom (state_values o') = dom nt) →
     ∃ r s', update [f] nt (Smoother_new p) = Ok (r, s') ∧
             1 ≤ iterations r ∧ graph_ s' = [Some f]) ∧
  (∀ p f nt fault,
     graph_error [Some f] nt = Fail fault →
     update [f] nt (Smoother_new p) = Fail fault) ∧
  (∀ p f nt e fault,
     graph_error [Some f] nt = Ok e →
     iterate [Some f] p
       {| state_values := nt; state_error := e; state_iterations := 0 |}
     = Fail fault →
     update [f] nt (Smoother_new p) = Fail fault) ∧
  (∀ nf nt s r s',
     update nf nt s = Ok (r, s') →
     (0 < length (graph_ s') → 1 ≤ iterations r) ∧
     (length (graph_ s') = 0 → r = Result_default)).
Proof.
  intros Hc.
  assert (Hstart : ∀ p f nt,
    update [f] nt (Smoother_new p)
    = '(result, s) ←
        (let s2 := set_theta nt
                     (set_store [Some f] []
                        (foldl (index_insert 0) ∅ (keys f))
                        (Smoother_new p)) in
         optimizer ← optimize s2;
         theta ← foreach Values_erase (Values_keys (rootValues_ s2))
                   (state_values optimizer);
         let s := set_theta theta s2 in
         Ok ({| iterations := state_iterations optimizer;
                nonlinearVariables := size (theta_ s);
                linearVariables := size (rootValues_ s);
                error := state_error optimizer |}, s));
      s ← summarize s; Ok (result, s)).
  { intros p f nt. unfold ConcurrentBatchSmoother.update. exec_simpl.
    assert (Hl : Values_insert (∅ : Values) nt = Ok (∅ ∪ nt)).
    { apply Values_insert_Ok. split; [|done]. rewrite dom_empty_L.
      set_solver. }
    rewrite Hl, (left_id_L ∅ (∪)). exec_simpl. done. }
  split_and!.
  - intros p f nt Herr Hiter. rewrite Hstart. cbn zeta.
    set (s2 := set_theta _ _).
    assert (Hroot : has_root s2 = false).
    { unfold has_root. simpl. rewrite map_size_empty.
      apply bool_decide_eq_false. lia. }
    destruct (optimize_no_root_Ok s2 Hc Hroot Herr Hiter) as (o & Ho & Hit).
    rewrite Ho. exec_simpl.
    unfold Values_keys. rewrite map_to_list_empty. exec_simpl.
    unfold ConcurrentBatchSmoother.summarize.
    change (has_root (set_theta (state_values o) s2)) with (has_root s2).
    rewrite Hroot. by eexists _, _.
  - intros p f nt fault Herr. rewrite Hstart. cbn zeta.
    unfold ConcurrentBatchSmoother.optimize.
    assert (Hl : Values_insert (∅ : Values) nt = Ok (∅ ∪ nt)).
    { apply Values_insert_Ok. split; [|done]. rewrite dom_empty_L.
      set_solver. }
    simpl. rewrite Hl, (left_id_L ∅ (∪)), Exec_bind_Ok_l.
    unfold has_root. simpl. rewrite map_size_empty.
    rewrite bool_decide_eq_false_2 by lia. rewrite Exec_bind_Ok_l.
    unfold LevenbergMarquardtOptimizer. by rewrite Herr.
  - intros p f nt e fault Herr Hit. rewrite Hstart. cbn zeta.
    unfold ConcurrentBatchSmoother.optimize.
    assert (Hl : Values_insert (∅ : Values) nt = Ok (∅ ∪ nt)).
    { apply Values_insert_Ok. split; [|done]. rewrite dom_empty_L.
      set_solver. }
    simpl. rewrite Hl, (left_id_L ∅ (∪)), Exec_bind_Ok_l.
    unfold has_root. simpl. rewrite map_size_empty.
    rewrite bool_decide_eq_false_2 by lia. rewrite Exec_bind_Ok_l.
    unfold LevenbergMarquardtOptimizer. rewrite Herr, !Exec_bind_Ok_l.
    unfold ConcurrentBatchSmoother.iteration. simpl. by rewrite Hit.
  - intros nf nt s r s'
      (slots & s1 & theta & _ & _ & Hg & _ & _ & Hcase)%update_inv.
    rewrite Hg.
    destruct Hcase as [(Hzero & -> & _)|(Hpos & o & Ho & _ & ->)].
    + split; [lia|done].
    + split; [|lia]. intros _. simpl.
      apply optimize_inv in Ho as (_ & e & _ & Hvis).
      apply (visited_counts _ _ _ Hc) in Hvis. simpl in Hvis. lia.
Qed.

Lemma has_root_ext s s' : rootValues_ s' = rootValues_ s →
  has_root s' = has_root s.
Proof. unfold has_root. by intros ->. Qed.

(** X9.  Values for keys that are not new make [update] raise
    [ValuesKeyAlreadyExists]: a new value for a key the smoother already has
    a value for, and -- as soon as the graph holds a slot, so that the
    optimizer is set up -- a value for a key of the pinned root values. *)
Theorem update_key_collisions nf nt s :
  store_wf keys s →
  (¬ dom (theta_ s) ## dom nt →
   update nf nt s = Fail ValuesKeyAlreadyExists) ∧
  (dom (theta_ s) ## dom nt →
   graph_ s ≠ [] ∨ nf ≠ [] →
   ¬ dom (theta_ s ∪ nt) ## dom (rootValues_ s) →
   update nf nt s = Fail ValuesKeyAlreadyExists).
Proof.
  intros Hwf. unfold ConcurrentBatchSmoother.update.
  destruct (insertFactors_spec keys nf s Hwf)
    as (slots & s1 & Hins & _ & (_ & Ht1 & Hr1 & _) & _ & Hall & _).
  pose proof (insertFactors_rest keys nf s slots s1 Hins) as [_ Hlen].
  rewrite Hins, Exec_bind_Ok_l. cbn beta iota. rewrite Ht1. split.
  - intros Hn. by rewrite (Values_insert_collision _ _ Hn).
  - intros Hd Hgraph Hn.
    assert (Hl : Values_insert (theta_ s) nt = Ok (theta_ s ∪ nt))
      by by apply Values_insert_Ok.
    rewrite Hl, Exec_bind_Ok_l. cbn zeta.
    set (s2 := set_theta (theta_ s ∪ nt) s1).
    assert (Hpos : 0 < length (graph_ s2)).
    { simpl. destruct Hgraph as [Hg|Hnf].
      - destruct (graph_ s); [done|]. simpl in Hlen. lia.
      - destruct Hall as [|slot f ? ? Hocc _]; [done|].
        unfold occupied in Hocc. apply lookup_lt_Some in Hocc. lia. }
    rewrite bool_decide_eq_true_2 by done.
    assert (Hroot : has_root s2 = true).
    { unfold has_root. apply bool_decide_eq_true. simpl. rewrite Hr1.
      destruct (decide (size (rootValues_ s) = 0)) as [Hz|]; [|lia].
      apply map_size_empty_iff in Hz. destruct Hn.
      rewrite Hz, dom_empty_L. set_solver. }
    assert (Hopt : optimize s2 = Fail ValuesKeyAlreadyExists).
    { unfold ConcurrentBatchSmoother.optimize.
      assert (H0 : Values_insert ∅ (theta_ s2) = Ok (∅ ∪ theta_ s2)).
      { apply Values_insert_Ok. split; [|done]. rewrite dom_empty_L.
        set_solver. }
      rewrite H0, Exec_bind_Ok_l, Hroot, (left_id_L ∅ (∪)).
      rewrite Values_insert_collision; [done|]. simpl. by rewrite Hr1. }
    by rewrite Hopt.
Qed.

(** X10.  What a successful [update] that ran the optimizer reports: the
    number of values it exports and the number of pinned root values; and,
    with root values pinned, the error of the graph at the exported values
    joined with the root values -- the point the optimizer ended at. *)
Theorem update_reports nf nt s r s' :
  update nf nt s = Ok (r, s') →
  0 < length (graph_ s') →
  nonlinearVariables r = size (theta_ s') ∧
  linearVariables r = size (rootValues_ s') ∧
  (has_root s = true →
   graph_error (graph_ s') (theta_ s' ∪ rootValues_ s') = Ok (error r)).
Proof.
  intros (slots & s1 & theta & Hins & _ & Hg & Hr & _ & Hcase)%update_inv
    Hlen.
  rewrite Hg in Hlen.
  destruct Hcase as [[Hzero _]|(_ & o & Ho & Herase & ->)]; [lia|].
  simpl. split; [done|]. split; [by rewrite Hr|]. intros Hroot.
  apply insertFactors_rest in Hins as [(_ & _ & Hr1 & _) _].
  apply optimize_inv in Ho as (_ & e & _ & (o1 & Hit)%visited_last).
  apply iteration_pins_root in Hit as [Hpin <-];
    [|by rewrite <- Hroot; apply has_root_ext].
  simpl in Hpin. apply erase_entries in Herase as [Hin Hout].
  rewrite Hg, Hr. simpl. f_equal. apply map_eq. intros key.
  destruct (rootValues_ s1 !! key) as [x|] eqn:Hkey.
  - rewrite (Hpin key x Hkey). apply lookup_union_Some_raw. right.
    split; [|done]. apply Hin. unfold Values_keys. apply fst_map_to_list.
    apply elem_of_dom. by exists x.
  - rewrite lookup_union_l by done. apply Hout.
    unfold Values_keys. rewrite fst_map_to_list. by apply not_elem_of_dom.
Qed.

Lemma iteration_counts_one s o o' :
  iterate_counts_one iterate →
  iteration s o = Ok o' → state_iterations o' = S (state_iterations o).
Proof.
  intros Hc (o1 & Hit & [Hn _]%enforce_consistency_inv)%iteration_inv.
  rewrite Hn. by eapply Hc.
Qed.

Lemma visited_cap s o o' :
  iterate_counts_one iterate →
  visited s o o' →
  S (state_iterations o) ≤ state_iterations o' ∧
  state_iterations o' ≤
    S (state_iterations o) `max` maxIterations (parameters_ s).
Proof.
  intros Hc. induction 1 as [o o' Hit|o o1 o' Hit Hcont _ IH].
  - rewrite (iteration_counts_one s o o' Hc Hit). lia.
  - pose proof (iteration_counts_one s o o1 Hc Hit) as H1.
    apply andb_true_iff in Hcont as [Hmax%bool_decide_eq_true _]. lia.
Qed.

(** X11.  The iteration cap: when each call of [iterate] counts one
    iteration, a successful [update] that ran the optimizer reports at
    least one iteration and at most [maxIterations] of them -- one when
    [maxIterations] is zero, as the loop's body runs before its condition
    is looked at. *)
Theorem update_iteration_cap nf nt s r s' :
  iterate_counts_one iterate →
  update nf nt s = Ok (r, s') →
  0 < length (graph_ s') →
  1 ≤ iterations r ∧ iterations r ≤ 1 `max` maxIterations (parameters_ s).
Proof.
  intros Hc (slots & s1 & theta & Hins & _ & Hg & _ & _ & Hcase)%update_inv
    Hlen.
  rewrite Hg in Hlen.
  destruct Hcase as [[Hzero _]|(_ & o & Ho & _ & ->)]; [lia|].
  apply insertFactors_rest in Hins as [(Hp1 & _) _].
  apply optimize_inv in Ho as (_ & e & _ & Hvis%(visited_cap _ _ _ Hc)).
  simpl in Hvis |- *. rewrite Hp1 in Hvis. lia.
Qed.

(** X12.  [update] only adds to the store: on a well-formed smoother, every
    factor stays in its slot, every new factor is in a slot afterwards, the
    graph does not shrink, and the slots recorded for the filter
    summarization and the root values are not touched. *)
Theorem update_keeps_factors nf nt s r s' :
  store_wf keys s →
  update nf nt s = Ok (r, s') →
  (∀ slot g, occupied s slot g → occupied s' slot g) ∧
  (∀ f, f ∈ nf → ∃ slot, occupied s' slot f) ∧
  length (graph_ s) ≤ length (graph_ s') ∧
  filterSummarizationSlots_ s' = filterSummarizationSlots_ s ∧
  rootValues_ s' = rootValues_ s.
Proof.
  intros Hwf
    (slots & s1 & theta & Hins & _ & Hg & Hr & (_ & _ & Hf) & _)%update_inv.
  destruct (insertFactors_spec keys nf s Hwf)
    as (slots0 & s0 & Hins0 & _ & (_ & _ & Hr1 & Hf1 & _) & _ & Hall & _).
  rewrite Hins in Hins0. injection Hins0 as <- <-.
  pose proof (insertFactors_rest keys nf s slots s1 Hins) as [_ Hlen].
  unfold occupied. rewrite Hg, Hf, Hr. split_and!; try done.
  - intros slot g Hocc. by eapply (insertFactors_keeps keys nf s).
  - intros f [n Hn]%list_elem_of_lookup.
    destruct (Forall2_lookup_r _ _ _ _ _ Hall Hn) as (slot & _ & Hocc).
    by exists slot.
Qed.

End UpdateProperties.

(** *** Properties of [marginalizeKeysFromFactor] *)

Section MarginalizeProperties.

Context {Value NonlinearFactor : Type}.
Variable keys : NonlinearFactor -> list Key.
Context {GaussianFactor GaussianConditional JacobianFactor : Type}.

Local Abbreviation Values := (gmap Key Value).

Variable linearize :
  NonlinearFactor -> Values -> list Key -> option GaussianFactor.
Variable EliminateQR :
  list (option GaussianFactor) -> nat ->
  option GaussianConditional * option GaussianFactor.
Variable dynamic_pointer_cast : GaussianFactor -> option JacobianFactor.
Variable LinearizedJacobianFactor :
  JacobianFactor -> list Key -> Values -> NonlinearFactor.

Local Abbreviation marginalizeKeysFromFactor :=
  (marginalizeKeysFromFactor keys linearize EliminateQR dynamic_pointer_cast
     LinearizedJacobianFactor).
Local Abbreviation discarded := (discarded keys).

(** Past the two early returns the function ends with a factor or with a
    fault, and the fault is never a read through [marginalFactor]. *)
Lemma marginalize_general_case factor keysToKeep theta :
  size (discarded factor keysToKeep) ≠ 0 →
  size (discarded factor keysToKeep) ≠ length (keys factor) →
  (∃ m, marginalizeKeysFromFactor factor keysToKeep theta = Ok (Some m)) ∨
  (∃ e, marginalizeKeysFromFactor factor keysToKeep theta = Fail e ∧
        e ≠ NullDereference MarginalFactor).
Proof.
  intros H0 Hall. unfold ConcurrentBatchSmoother.marginalizeKeysFromFactor.
  fold (discarded factor keysToKeep).
  rewrite !bool_decide_eq_false_2 by done.
  set (ordering := ascending _ ++ ascending _).
  unfold Graph_at, Graph_replace. simpl.
  destruct (linearize factor theta ordering) as [lf|]; exec_simpl;
    [|right; by eexists].
  destruct (EliminateQR _ _) as [[c|] [g|]]; exec_simpl;
    try (right; by eexists).
  destruct (dynamic_pointer_cast g) as [jf|]; exec_simpl.
  - left. by eexists.
  - right. by eexists.
Qed.

Lemma discarded_none factor keysToKeep :
  (∀ key, key ∈ keys factor → key ∈ keysToKeep) →
  size (discarded factor keysToKeep) = 0.
Proof.
  intros Hall. apply size_empty_iff, elem_of_equiv_empty. unfold discarded.
  intros key [Hk%elem_of_list_to_set Hn]%elem_of_difference. auto.
Qed.

Lemma discarded_all factor keysToKeep :
  NoDup (keys factor) →
  (∀ key, key ∈ keys factor → key ∉ keysToKeep) →
  size (discarded factor keysToKeep) = length (keys factor).
Proof.
  clear linearize EliminateQR dynamic_pointer_cast LinearizedJacobianFactor.
  intros Hnd Hall. unfold discarded.
  rewrite <- (size_list_to_set (C := gset Key) (keys factor)) by done.
  f_equal. apply set_eq. intros key.
  rewrite elem_of_difference, elem_of_list_to_set. naive_solver.
Qed.

(** C3.  When every key of the factor is kept (the set of keys to
    marginalize is empty), the factor itself is returned; this first test
    also takes the factor without keys.  Otherwise, when none of the keys is
    kept, the empty pointer is returned: the factor has a key then, and its
    keys, a set in the data model, are pairwise distinct. *)
Theorem marginalize_keep_all_or_none factor keysToKeep theta :
  ((∀ key, key ∈ keys factor → key ∈ keysToKeep) →
   marginalizeKeysFromFactor factor keysToKeep theta = Ok (Some factor)) ∧
  (keys factor ≠ [] → NoDup (keys factor) →
   (∀ key, key ∈ keys factor → key ∉ keysToKeep) →
   marginalizeKeysFromFactor factor keysToKeep theta = Ok None).
Proof.
  unfold ConcurrentBatchSmoother.marginalizeKeysFromFactor.
  fold (discarded factor keysToKeep). split.
  - intros Hall. by rewrite bool_decide_eq_true_2 by by apply discarded_none.
  - intros Hne Hnd Hall.
    pose proof (discarded_all factor keysToKeep Hnd Hall) as Hsz.
    rewrite bool_decide_eq_false_2, bool_decide_eq_true_2; [done..|].
    rewrite Hsz. by destruct (keys factor).
Qed.



(** *** More on [marginalizeKeysFromFactor] *)

Local Abbreviation marginalOrdering := (marginalOrdering keys).

Lemma size_list_to_set_length (l : list Key) :
  size (list_to_set l : gset Key) ≤ length l ∧
  (size (list_to_set l : gset Key) = length l → NoDup l).
Proof.
  clear. induction l as [|a l [IHle IHnd]].
  - rewrite list_to_set_nil, size_empty. split; [done|constructor].
  - rewrite list_to_set_cons. cbn [length].
    destruct (decide (a ∈ l)) as [Hin|Hin].
    + assert (Heq : ({[a]} ∪ list_to_set l : gset Key) = list_to_set l).
      { apply set_eq. intros k. rewrite elem_of_union, elem_of_singleton,
          elem_of_list_to_set. naive_solver. }
      rewrite Heq. split; [lia|]. intros. lia.
    + rewrite size_union, size_singleton.
      * split; [lia|]. intros Hsz. constructor; [done|]. apply IHnd. lia.
      * intros k ->%elem_of_singleton Hk%elem_of_list_to_set. done.
Qed.

Lemma discarded_all_inv factor keysToKeep :
  size (discarded factor keysToKeep) = length (keys factor) →
  NoDup (keys factor) ∧ ∀ key, key ∈ keys factor → key ∉ keysToKeep.
Proof.
  clear linearize EliminateQR dynamic_pointer_cast LinearizedJacobianFactor.
  intros Hsz.
  destruct (size_list_to_set_length (keys factor)) as [Hle Hnd].
  assert (Hsub : discarded factor keysToKeep ⊆ list_to_set (keys factor)).
  { unfold ConcurrentBatchSmoother.discarded. set_solver. }
  pose proof (subseteq_size _ _ Hsub) as Hle'.
  split; [apply Hnd; lia|].
  assert (Heq : discarded factor keysToKeep = list_to_set (keys factor)).
  { apply set_subseteq_size_eq; [done|lia]. }
  intros key Hk%(elem_of_list_to_set (C := gset Key)).
  rewrite <- Heq in Hk. unfold ConcurrentBatchSmoother.discarded in Hk.
  set_solver.
Qed.

(** X14.  The empty pointer is returned exactly for a factor that has at
    least one key, lists no key twice and has none of its keys kept; in
    every other case the result, if there is one, is a factor. *)
Theorem marginalize_absent_iff factor keysToKeep theta :
  marginalizeKeysFromFactor factor keysToKeep theta = Ok None ↔
  keys factor ≠ [] ∧ NoDup (keys factor) ∧
  ∀ key, key ∈ keys factor → key ∉ keysToKeep.
Proof.
  split.
  - intros Hres.
    destruct (decide (size (discarded factor keysToKeep) = 0)) as [H0|H0].
    { revert Hres. unfold ConcurrentBatchSmoother.marginalizeKeysFromFactor.
      fold (discarded factor keysToKeep).
      by rewrite bool_decide_eq_true_2 by done. }
    destruct (decide (size (discarded factor keysToKeep)
                      = length (keys factor))) as [Hall|Hall].
    + destruct (discarded_all_inv factor keysToKeep Hall) as [Hnd Hnone].
      split_and!; try done. intros Hnil. rewrite Hnil in Hall. simpl in Hall.
      lia.
    + destruct (marginalize_general_case factor keysToKeep theta H0 Hall)
        as [[m Hm]|(e & He & _)]; congruence.
  - intros (Hne & Hnd & Hnone).
    pose proof (discarded_all factor keysToKeep Hnd Hnone) as Hsz.
    unfold ConcurrentBatchSmoother.marginalizeKeysFromFactor.
    fold (discarded factor keysToKeep).
    rewrite bool_decide_eq_false_2, bool_decide_eq_true_2; [done..|].
    rewrite Hsz. by destruct (keys factor).
Qed.

Lemma ascending_elem_of (X : gset Key) k : k ∈ ascending X ↔ k ∈ X.
Proof.
  unfold ascending. by rewrite merge_sort_Permutation, elem_of_elements.
Qed.

Lemma ascending_NoDup (X : gset Key) : NoDup (ascending X).
Proof.
  unfold ascending. rewrite merge_sort_Permutation. apply NoDup_elements.
Qed.

Lemma ascending_length (X : gset Key) : length (ascending X) = size X.
Proof. unfold ascending. by rewrite merge_sort_Permutation. Qed.

(** X15.  The general case, some keys discarded and some kept: when the
    collaborators hand back what they are asked for, the result is the
    linearized Jacobian factor of the eliminated graph, anchored at [theta]
    and at an ordering that lists every key of the factor once, the
    discarded keys first and in ascending order -- so that the variables
    [EliminateQR] is asked to eliminate, as many as there are discarded
    keys, are the discarded ones -- and the kept keys after them. *)
Theorem marginalize_general_result factor keysToKeep theta lf c g jf :
  size (discarded factor keysToKeep) ≠ 0 →
  size (discarded factor keysToKeep) ≠ length (keys factor) →
  linearize factor theta (marginalOrdering factor keysToKeep) = Some lf →
  EliminateQR [Some lf] (size (discarded factor keysToKeep))
    = (Some c, Some g) →
  dynamic_pointer_cast g = Some jf →
  marginalizeKeysFromFactor factor keysToKeep theta
    = Ok (Some (LinearizedJacobianFactor jf
                  (marginalOrdering factor keysToKeep) theta)) ∧
  NoDup (marginalOrdering factor keysToKeep) ∧
  (∀ key, key ∈ marginalOrdering factor keysToKeep ↔ key ∈ keys factor) ∧
  take (size (discarded factor keysToKeep))
    (marginalOrdering factor keysToKeep)
    = ascending (discarded factor keysToKeep) ∧
  (∀ key, key ∈ take (size (discarded factor keysToKeep))
                   (marginalOrdering factor keysToKeep) →
          key ∉ keysToKeep) ∧
  (∀ key, key ∈ drop (size (discarded factor keysToKeep))
                   (marginalOrdering factor keysToKeep) →
          key ∈ keysToKeep).
Proof.
  intros H0 Hall Hlin Helim Hcast.
  assert (Htake : take (size (discarded factor keysToKeep))
                    (marginalOrdering factor keysToKeep)
                  = ascending (discarded factor keysToKeep)).
  { unfold ConcurrentBatchSmoother.marginalOrdering.
    apply take_app_length'. by rewrite ascending_length. }
  assert (Hdrop : drop (size (discarded factor keysToKeep))
                    (marginalOrdering factor keysToKeep)
                  = ascending (list_to_set (keys factor) ∩ keysToKeep)).
  { unfold ConcurrentBatchSmoother.marginalOrdering.
    apply drop_app_length'. by rewrite ascending_length. }
  split_and!.
  - unfold ConcurrentBatchSmoother.marginalizeKeysFromFactor.
    fold (discarded factor keysToKeep).
    rewrite !bool_decide_eq_false_2 by done.
    fold (marginalOrdering factor keysToKeep).
    unfold Graph_at, Graph_replace. simpl. rewrite Hlin. exec_simpl.
    rewrite Helim. exec_simpl. by rewrite Hcast.
  - unfold ConcurrentBatchSmoother.marginalOrdering.
    apply NoDup_app. split_and!; [apply ascending_NoDup| |apply ascending_NoDup].
    intros key. rewrite !ascending_elem_of.
    unfold ConcurrentBatchSmoother.discarded. set_solver.
  - intros key. unfold ConcurrentBatchSmoother.marginalOrdering.
    rewrite elem_of_app, !ascending_elem_of.
    unfold ConcurrentBatchSmoother.discarded.
    rewrite elem_of_difference, elem_of_intersection, elem_of_list_to_set.
    destruct (decide (key ∈ keysToKeep)); naive_solver.
  - exact Htake.
  - intros key. rewrite Htake, ascending_elem_of.
    unfold ConcurrentBatchSmoother.discarded. set_solver.
  - intros key. rewrite Hdrop, ascending_elem_of. set_solver.
Qed.

End MarginalizeProperties.

(** *** More on the factor store *)

Section StoreAllocation.

Context {Value NonlinearFactor : Type}.
Variable keys : NonlinearFactor -> list Key.

Local Abbreviation Smoother := (@Smoother Value NonlinearFactor).

Implicit Types (s : Smoother) (f : NonlinearFactor).

Lemma insertFactor_length f s slot s' :
  insertFactor keys f s = Ok (slot, s') →
  length (graph_ s') =
  length (graph_ s) + (1 - length (availableSlots_ s)).
Proof.
  unfold insertFactor. destruct (availableSlots_ s) as [|front rest].
  - intros [= <- <-]. simpl. rewrite length_app. simpl. lia.
  - unfold Graph_replace. case_decide; [|discriminate].
    intros [= <- <-]. simpl. rewrite length_insert. lia.
Qed.

Lemma insertFactors_slots fs : ∀ s,
  store_wf keys s →
  ∃ slots s',
    insertFactors keys fs s = Ok (slots, s') ∧
    slots = take (length fs) (availableSlots_ s)
            ++ seq (length (graph_ s))
                 (length fs - length (availableSlots_ s)) ∧
    availableSlots_ s' = drop (length fs) (availableSlots_ s) ∧
    length (graph_ s') =
    length (graph_ s) + (length fs - length (availableSlots_ s)).
Proof.
  induction fs as [|f fs IH]; intros s Hwf.
  - exists [], s. simpl. rewrite drop_0. split_and!; try done; lia.
  - destruct (insertFactor_spec keys f s Hwf)
      as (slot & s1 & Hins & Hslot & _ & _ & _ & Ha1 & _ & Hwf1).
    pose proof (insertFactor_length f s slot s1 Hins) as Hlen1.
    destruct (IH s1 Hwf1) as (slots & s' & Hinss & Hslots & Ha' & Hlen').
    exists (slot :: slots), s'. simpl.
    rewrite Hins. exec_simpl. rewrite Hinss. exec_simpl.
    split; [done|]. rewrite Hslots, Ha', Hlen', Hlen1, Ha1, Hslot.
    destruct (availableSlots_ s) as [|front rest]; simpl.
    + rewrite !take_nil, drop_nil. simpl.
      replace (length (graph_ s) + 1) with (S (length (graph_ s))) by lia.
      replace (length fs - 0) with (length fs) by lia.
      split_and!; [done..|lia].
    + replace (length (graph_ s) + (0 - length rest))
        with (length (graph_ s)) by lia.
      done.
Qed.

(** X1.  Slots are handed out first in, first out: a run of insertions into
    a well-formed store takes the holes in the order they were freed and,
    when the holes are used up, appends to the graph.  The holes not taken
    stay queued and the graph grows by the number of appended factors. *)
Theorem insertFactors_allocation fs s :
  store_wf keys s →
  ∃ slots s',
    insertFactors keys fs s = Ok (slots, s') ∧
    slots = take (length fs) (availableSlots_ s)
            ++ seq (length (graph_ s))
                 (length fs - length (availableSlots_ s)) ∧
    availableSlots_ s' = drop (length fs) (availableSlots_ s) ∧
    length (graph_ s') =
    length (graph_ s) + (length fs - length (availableSlots_ s)).
Proof. apply insertFactors_slots. Qed.

(** X2.  A slot cannot be freed twice: in a well-formed store the removal
    of an occupied slot succeeds, and a second removal of the same slot
    stops at the empty pointer found there, whose keys it asks for; so does
    a run of removals that names a slot twice. *)
Theorem removeFactor_twice s slot f :
  store_wf keys s →
  occupied s slot f →
  (∃ s1, removeFactor keys slot s = Ok s1 ∧
         graph_ s1 !! slot = Some None ∧
         removeFactor keys slot s1 = Fail (NullDereference StoredFactor)) ∧
  removeFactors keys [slot; slot] s = Fail (NullDereference StoredFactor).
Proof.
  intros Hwf Hocc.
  destruct (removeFactor_spec keys f slot s Hwf Hocc)
    as (s1 & Hrm & Hg1 & _).
  assert (Hlt : slot < length (graph_ s)) by by apply lookup_lt_Some in Hocc.
  assert (Hhole : graph_ s1 !! slot = Some None).
  { by rewrite Hg1, list_lookup_insert_eq. }
  assert (Hrm2 : removeFactor keys slot s1
                 = Fail (NullDereference StoredFactor)).
  { unfold removeFactor, Graph_at. by rewrite Hhole. }
  split.
  - by exists s1.
  - simpl. rewrite Hrm, Exec_bind_Ok_l, Hrm2. reflexivity.
Qed.

(** X3.  Insertion followed by the removal of the slot handed out, on a
    well-formed store: the removal succeeds; when a hole was taken the graph
    is the one before the insertion, and when the factor was appended the
    graph has one more slot, an empty one at its end; in both cases the slot
    joins the back of the queue of holes, every slot holds the factor it
    held before, every key has the slots it had in the reverse index, and
    the values, the root values, the parameters and the two summarizations
    are untouched. *)
Theorem insertFactor_removeFactor_round_trip f s slot s1 :
  store_wf keys s →
  insertFactor keys f s = Ok (slot, s1) →
  ∃ s2,
    removeFactor keys slot s1 = Ok s2 ∧
    graph_ s2 = match availableSlots_ s with
                | [] => graph_ s ++ [None]
                | _ :: _ => graph_ s
                end ∧
    availableSlots_ s2 = tail (availableSlots_ s) ++ [slot] ∧
    (∀ j g, occupied s2 j g ↔ occupied s j g) ∧
    (∀ key, slotsOf (factorIndex_ s2) key = slotsOf (factorIndex_ s) key) ∧
    same_rest s s2 ∧
    store_wf keys s2.
Proof.
  intros Hwf Hins.
  destruct (insertFactor_spec keys f s Hwf)
    as (slot0 & s0 & Hins0 & _ & Hfree & Hocc & Hother & Ha1 & Hrest1 & Hwf1).
  rewrite Hins in Hins0. injection Hins0 as <- <-.
  destruct (removeFactor_spec keys f slot s1 Hwf1 Hocc)
    as (s2 & Hrm & Hg2 & Ha2 & _ & Hrest2 & Hwf2).
  assert (Hsame : ∀ j g, occupied s2 j g ↔ occupied s j g).
  { intros j g. unfold occupied in *. rewrite Hg2.
    destruct (decide (j = slot)) as [->|Hne].
    - rewrite list_lookup_insert_eq by by apply lookup_lt_Some in Hocc.
      split; [discriminate|]. intros Hg. by destruct (Hfree g).
    - by rewrite list_lookup_insert_ne, Hother. }
  assert (Hgraph : graph_ s2 = match availableSlots_ s with
                               | [] => graph_ s ++ [None]
                               | _ :: _ => graph_ s
                               end).
  { rewrite Hg2. unfold insertFactor in Hins.
    destruct Hwf as [_ [_ Hholes]].
    destruct (availableSlots_ s) as [|front rest].
    - injection Hins as <- <-. simpl.
      rewrite insert_app_r_alt by done.
      by rewrite Nat.sub_diag.
    - unfold Graph_replace in Hins. case_decide; [|discriminate].
      injection Hins as <- <-. simpl.
      rewrite list_insert_insert_eq. apply list_insert_id, Hholes. left. }
  exists s2. split_and!; try done.
  - by rewrite Ha2, Ha1.
  - intros key. apply set_eq. intros j.
    destruct Hwf as [Hex _]. destruct Hwf2 as [Hex2 _].
    rewrite (Hex2 key j), (Hex key j). by setoid_rewrite Hsame.
  - by eapply same_rest_trans.
Qed.

Lemma findFactorsWithAny_occupied (keySet : gset Key) s slot :
  store_wf keys s →
  slot ∈ findFactorsWithAny keySet s ↔
  ∃ f, occupied s slot f ∧ ∃ key, key ∈ keySet ∧ key ∈ keys f.
Proof.
  intros [Hex _]. rewrite elem_of_findFactorsWithAny. split.
  - intros (key & Hkey & (f & Hf & Hk)%Hex). eauto.
  - intros (f & Hf & key & Hkey & Hk). exists key. split; [done|].
    apply Hex. eauto.
Qed.

(** X4.  On a well-formed store [findFactorsWithAny] finds exactly the
    occupied slots whose factor has one of the keys asked for; in
    particular it finds no hole, and nothing for the empty set of keys. *)
Theorem findFactorsWithAny_exact (keySet : gset Key) s :
  store_wf keys s →
  (∀ slot, slot ∈ findFactorsWithAny keySet s ↔
           ∃ f, occupied s slot f ∧ ∃ key, key ∈ keySet ∧ key ∈ keys f) ∧
  (∀ slot, slot ∈ findFactorsWithAny keySet s →
           graph_ s !! slot ≠ Some None) ∧
  findFactorsWithAny ∅ s = ∅.
Proof.
  intros Hwf. split_and!.
  - intros slot. by apply findFactorsWithAny_occupied.
  - intros slot (f & Hf & _)%findFactorsWithAny_occupied; [|done].
    unfold occupied in Hf. congruence.
  - apply set_eq. intros slot. rewrite findFactorsWithAny_occupied by done.
    set_solver.
Qed.

Lemma findFactorsWithOnly_steps (keySet : gset Key) s : ∀ l acc,
  (∀ slot, slot ∈ l → ∃ f, occupied s slot f) →
  ∃ found : gset nat,
    foreach
      (λ (factorSlots : gset nat) (slot : nat),
         p ← Graph_at slot (graph_ s);
         factor ← deref StoredFactor p;
         let factorKeys : gset Key := list_to_set (keys factor) in
         if bool_decide (factorKeys ⊆ keySet)
         then Ok ({[slot]} ∪ factorSlots)
         else Ok factorSlots) l acc = Ok found ∧
    ∀ slot, slot ∈ found ↔
            slot ∈ acc ∨
            (slot ∈ l ∧ ∃ f, occupied s slot f ∧
                             ∀ key, key ∈ keys f → key ∈ keySet).
Proof.
  match goal with |- context [foreach ?step0 _ _] => set (step := step0) end.
  induction l as [|x l IH]; intros acc Hocc.
  - exists acc. split; [done|]. intros slot. split; [auto|].
    intros [?|[Hin _]]; [done|]. by apply elem_of_nil in Hin.
  - destruct (Hocc x) as [f Hf]; [left|].
    rewrite foreach_cons.
    assert (Hstep : step acc x =
              if bool_decide ((list_to_set (keys f) : gset Key) ⊆ keySet)
              then Ok ({[x]} ∪ acc) else Ok acc).
    { unfold step, Graph_at. unfold occupied in Hf. by rewrite Hf. }
    rewrite Hstep. clear Hstep.
    assert (Hsub : (list_to_set (keys f) : gset Key) ⊆ keySet ↔
                   ∀ key, key ∈ keys f → key ∈ keySet).
    { split.
      - intros Hs key Hk. apply Hs. by apply elem_of_list_to_set.
      - intros Hs key Hk%elem_of_list_to_set. by apply Hs. }
    case_bool_decide as Hdec; rewrite Exec_bind_Ok_l.
    + destruct (IH ({[x]} ∪ acc)) as (found & -> & Hfound).
      { intros slot Hslot. apply Hocc. by right. }
      exists found. split; [done|]. intros slot. rewrite Hfound.
      rewrite elem_of_union, elem_of_singleton, elem_of_cons. split.
      * intros [[->|?]|[? ?]]; [|by left|by right; split; [right|]].
        right. split; [by left|]. exists f. split; [done|]. by apply Hsub.
      * intros [?|[[->|?] Hg]]; [by left; right|by left; left|by right].
    + destruct (IH acc) as (found & -> & Hfound).
      { intros slot Hslot. apply Hocc. by right. }
      exists found. split; [done|]. intros slot. rewrite Hfound.
      rewrite elem_of_cons. split.
      * intros [?|[? ?]]; [by left|by right; split; [right|]].
      * intros [?|[[->|?] Hg]]; [by left| |by right].
        destruct Hg as (g & Hg & Hall). unfold occupied in Hg.
        assert (g = f) as -> by congruence.
        destruct Hdec. by apply Hsub.
Qed.

(** X5.  On a well-formed store [findFactorsWithOnly] never reads an empty
    slot: it returns, and the slots it returns are exactly the occupied ones
    whose factor has at least one key and only keys that were asked for. *)
Theorem findFactorsWithOnly_exact (keySet : gset Key) s :
  store_wf keys s →
  ∃ found : gset nat,
    findFactorsWithOnly keys keySet s = Ok found ∧
    ∀ slot, slot ∈ found ↔
            ∃ f, occupied s slot f ∧ keys f ≠ [] ∧
                 ∀ key, key ∈ keys f → key ∈ keySet.
Proof.
  intros Hwf. unfold findFactorsWithOnly.
  destruct (findFactorsWithOnly_steps keySet s
              (elements (findFactorsWithAny keySet s)) ∅)
    as (found & Hfound & Hiff).
  { intros slot Hslot%elem_of_elements.
    apply (findFactorsWithAny_occupied keySet s slot Hwf) in Hslot
      as (f & Hf & _). by exists f. }
  exists found. split; [exact Hfound|]. intros slot. rewrite Hiff.
  rewrite elem_of_elements.
  rewrite (findFactorsWithAny_occupied keySet s slot Hwf). split.
  - intros [Hemp|[(f & Hf & key & Hkey & Hk) (g & Hg & Hall)]];
      [set_solver|].
    exists g. split_and!; [done| |done].
    unfold occupied in *. assert (g = f) as -> by congruence.
    intros Hnil. rewrite Hnil in Hk. by apply elem_of_nil in Hk.
  - intros (f & Hf & Hne & Hall). right. split; [|by exists f].
    exists f. split; [done|].
    destruct (keys f) as [|key ks] eqn:Hks; [done|].
    exists key. split; [apply Hall|]; left.
Qed.

Lemma removeFactors_available slots : ∀ s s',
  removeFactors keys slots s = Ok s' →
  availableSlots_ s' = availableSlots_ s ++ slots ∧
  length (graph_ s') = length (graph_ s).
Proof.
  induction slots as [|slot slots IH]; intros s s'; simpl.
  - intros [= <-]. by rewrite (right_id_L [] (++)).
  - intros (s1 & Hrm & Hrest)%Exec_bind_Ok.
    apply IH in Hrest as [-> ->]. revert Hrm. unfold removeFactor.
    intros (p & _ & Hrm)%Exec_bind_Ok.
    apply Exec_bind_Ok in Hrm as (f & _ & [= <-]). simpl.
    by rewrite length_insert, <- app_assoc.
Qed.

(** [synchronize] on a well-formed smoother gets as far as the merge of the
    values, and ends as the merge does. *)
Lemma synchronize_values sf sv sum rv s :
  store_wf keys s →
  summary_wf s →
  ∃ s3,
    theta_ s3 = theta_ s ∧
    smootherSummarization_ s3 = smootherSummarization_ s ∧
    parameters_ s3 = parameters_ s ∧
    filterSummarizationSlots_ s3 =
      take (length sum) (availableSlots_ s ++ filterSummarizationSlots_ s)
      ++ seq (length (graph_ s))
           (length sum - length (availableSlots_ s
                                 ++ filterSummarizationSlots_ s)) ∧
    synchronize keys sf sv sum rv s =
    (theta ← Values_insert (theta_ s3) sv;
     Ok (set_rootValues rv (set_theta theta s3))).
Proof.
  intros Hwf [Hnd Hocc]. unfold synchronize.
  destruct (removeFactors_spec keys (filterSummarizationSlots_ s) s Hwf Hnd
              Hocc)
    as (s1 & Hrm & Hwf1 & (Hp1 & Ht1 & _ & _ & Hsm1) & _).
  destruct (removeFactors_available _ _ _ Hrm) as [Ha1 Hlen1].
  rewrite Hrm, Exec_bind_Ok_l. cbn zeta.
  set (s1' := set_filterSummarizationSlots [] s1).
  assert (Hwf1' : store_wf keys s1') by by eapply store_wf_ext, Hwf1.
  destruct (insertFactors_slots sum s1' Hwf1')
    as (slots & s2 & Hins2 & Hslots & _).
  pose proof (insertFactors_rest keys sum s1' slots s2 Hins2)
    as [(Hp2 & Ht2 & _ & _ & Hsm2) _].
  destruct (insertFactors_spec keys sum s1' Hwf1')
    as (slots0 & s0 & Hins0 & Hwf2 & _).
  rewrite Hins2 in Hins0. injection Hins0 as <- <-.
  rewrite Hins2, Exec_bind_Ok_l. cbn beta iota zeta.
  set (s2' := set_filterSummarizationSlots slots s2).
  assert (Hwf2' : store_wf keys s2') by by eapply store_wf_ext, Hwf2.
  destruct (insertFactors_spec keys sf s2' Hwf2')
    as (slots3 & s3 & Hins3 & _ & (Hp3 & Ht3 & _ & Hf3 & Hsm3) & _).
  rewrite Hins3, Exec_bind_Ok_l. cbn beta iota zeta.
  exists s3. split_and!; [| | | |done].
  - rewrite Ht3. unfold s2'. simpl. rewrite Ht2. unfold s1'. by simpl.
  - rewrite Hsm3. unfold s2'. simpl. rewrite Hsm2. unfold s1'. by simpl.
  - rewrite Hp3. unfold s2'. simpl. rewrite Hp2. unfold s1'. by simpl.
  - rewrite Hf3. unfold s2'. simpl. rewrite Hslots. unfold s1'. simpl.
    by rewrite Ha1, Hlen1.
Qed.

(** X6.  The invariants of the store hold in every smoother a user can get
    from a new one by calls of [update] and [synchronize] that return: the
    reverse index is exact, the queue lists holes without repetition, and
    the slots recorded for the filter summarization are distinct and
    occupied. *)
Theorem reachable_well_formed
    graph_error iterate checkConvergence summarizeRoot s :
  reachable keys graph_error iterate checkConvergence summarizeRoot s →
  store_wf keys s ∧ summary_wf s.
Proof.
  induction 1 as [p|nf nt s r s' _ [Hwf Hsum] Hup
                  |sf sv sum rv s s' _ [Hwf Hsum] Hsync].
  - split; [apply store_wf_new|apply summary_wf_new].
  - by eapply update_keeps_wf.
  - destruct (synchronize_values sf sv sum rv s Hwf Hsum)
      as (s3 & Ht3 & _ & _ & _ & Heq).
    pose proof Hsync as Hins. rewrite Heq in Hins.
    apply Exec_bind_Ok in Hins as (theta & [Hdisj _]%Values_insert_Ok & _).
    rewrite Ht3 in Hdisj.
    destruct (synchronize_spec keys sf sv sum rv s Hwf Hsum Hdisj)
      as (s0 & Hs0 & Hwf' & Hsum' & _).
    rewrite Hs0 in Hsync. by injection Hsync as <-.
Qed.

(** X7.  [synchronize] on a well-formed smoother returns exactly when the
    incoming smoother values bring only keys the smoother has no value for;
    otherwise it raises [ValuesKeyAlreadyExists].  When it returns, the
    smoother summarization and the parameters are what they were. *)
Theorem synchronize_returns_iff_fresh_values sf sv sum rv s :
  store_wf keys s →
  summary_wf s →
  (dom (theta_ s) ## dom sv →
   ∃ s', synchronize keys sf sv sum rv s = Ok s' ∧
         smootherSummarization_ s' = smootherSummarization_ s ∧
         parameters_ s' = parameters_ s) ∧
  (¬ dom (theta_ s) ## dom sv →
   synchronize keys sf sv sum rv s = Fail ValuesKeyAlreadyExists).
Proof.
  intros Hwf Hsum.
  destruct (synchronize_values sf sv sum rv s Hwf Hsum)
    as (s3 & Ht3 & Hsm3 & Hp3 & _ & ->).
  rewrite Ht3. split.
  - intros Hdisj.
    assert (Hins : Values_insert (theta_ s) sv = Ok (theta_ s ∪ sv))
      by by apply Values_insert_Ok.
    rewrite Hins, Exec_bind_Ok_l. by eexists.
  - intros Hn. by rewrite (Values_insert_collision _ _ Hn).
Qed.

(** X8.  The slots of the new filter summarization: [synchronize] gives it
    the holes that were queued, then the slots of the previous
    summarization in the order they were recorded, and only then new slots
    at the end of the graph. *)
Theorem synchronize_takes_over_slots sf sv sum rv s s' :
  store_wf keys s →
  summary_wf s →
  synchronize keys sf sv sum rv s = Ok s' →
  filterSummarizationSlots_ s' =
  take (length sum) (availableSlots_ s ++ filterSummarizationSlots_ s)
  ++ seq (length (graph_ s))
       (length sum
        - length (availableSlots_ s ++ filterSummarizationSlots_ s)).
Proof.
  intros Hwf Hsum Hsync.
  destruct (synchronize_values sf sv sum rv s Hwf Hsum)
    as (s3 & _ & _ & _ & Hslots & Heq).
  rewrite Heq in Hsync.
  by apply Exec_bind_Ok in Hsync as (theta & _ & [= <-]).
Qed.

End StoreAllocation.

End SmootherProperties.

(** ** The properties on the small instance *)

Module ScenarioProperties.

Import ConcurrentBatchSmoother SmootherProperties Scenario.

Lemma one_factor_store_wf : store_wf keys one_factor.
Proof.
  destruct (insertFactor_spec keys [A; B] fresh (store_wf_new keys parameters))
    as (slot & s' & Hins & _ & _ & _ & _ & _ & _ & Hwf).
  assert (Heq : insertFactor keys [A; B] fresh = Ok (0, one_factor))
    by (vm_compute; reflexivity).
  rewrite Heq in Hins. by injection Hins as <- <-.
Qed.

Lemma iterate_inv_scenario g p o o' :
  iterate g p o = Ok o' →
  state_values o' = Z.succ <$> state_values o ∧
  state_iterations o' = S (state_iterations o).
Proof.
  unfold iterate. destruct (graph_error g _) as [e|fault]; [|discriminate].
  by intros [= <-].
Qed.

Lemma iterate_counts_scenario : iterate_counts iterate.
Proof.
  intros g p o o' [_ Hn]%iterate_inv_scenario. rewrite Hn. lia.
Qed.

(** Over the keys [A] and [B] the error of the graph with the one factor
    is defined, and an iteration returns. *)
Lemma covered_scenario (v : gmap Key Z) :
  dom v = {[A; B]} → covered [Some [A; B]] v = true.
Proof.
  intros Hdom. unfold covered. simpl.
  rewrite !bool_decide_eq_true_2; [done|apply elem_of_dom..];
    rewrite Hdom; set_solver.
Qed.

Lemma graph_error_scenario (v : gmap Key Z) :
  dom v = {[A; B]} → ∃ e, graph_error [Some [A; B]] v = Ok e.
Proof.
  intros Hdom. unfold graph_error. rewrite covered_scenario by done.
  by eexists.
Qed.

Lemma iterate_scenario p (o : @OptimizerState Z) :
  dom (state_values o) = {[A; B]} →
  ∃ o', iterate [Some [A; B]] p o = Ok o' ∧
        dom (state_values o') = {[A; B]}.
Proof.
  intros Hdom. unfold iterate, graph_error.
  rewrite covered_scenario by by rewrite dom_fmap_L.
  eexists. split; [done|]. simpl. by rewrite dom_fmap_L.
Qed.

(** C1 on the instance: with [B] pinned to 7, an iteration that moved every
    value leaves [B] at 7. *)
Lemma update_root_consistency_witness :
  has_root rooted = true ∧
  optimize_loop graph_error iterate checkConvergence 1 rooted optimizer0
    = Ok optimizer1 ∧
  (∀ key x, rootValues_ rooted !! key = Some x →
            state_values optimizer1 !! key = Some x) ∧
  graph_error (graph_ rooted) (state_values optimizer1)
    = Ok (state_error optimizer1).
Proof.
  assert (Hroot : has_root rooted = true) by (vm_compute; reflexivity).
  assert (Hloop : optimize_loop graph_error iterate checkConvergence 1 rooted
                    optimizer0 = Ok optimizer1) by (vm_compute; reflexivity).
  split; [exact Hroot|]. split; [exact Hloop|].
  apply (update_root_consistency graph_error iterate checkConvergence
           rooted optimizer0 optimizer1 Hroot).
  right. exists 1. exact Hloop.
Defined.

(** C2 on the instance. *)
Lemma solve_satisfies_system_witness :
  GaussianConditional.well_formed conditional = true ∧
  ∃ v,
    GaussianConditional.solve conditional assignment = Ok v ∧
    LinearAlgebra.prod (GaussianConditional.R_ conditional) v
      = LinearAlgebra.vsub (GaussianConditional.d_ conditional)
          (LinearAlgebra.vsum 2
             (GaussianConditional.parent_terms conditional assignment)).
Proof.
  assert (Hwf : GaussianConditional.well_formed conditional = true)
    by (vm_compute; reflexivity).
  split; [exact Hwf|].
  destruct (GaussianConditionalProperties.solve_satisfies_system
              conditional assignment Hwf) as (v & Hv & _ & _ & _ & Hprod).
  - intros p Hp. vm_compute in Hp.
    apply list_elem_of_singleton in Hp as ->. by eexists.
  - exists v. split; [exact Hv|exact Hprod].
Defined.

(** C3 on the instance: of the factor between [A] and [B], returned as it is
    when both keys are kept and dropped when none is. *)
Lemma marginalize_keep_all_or_none_witness :
  marginalizeKeysFromFactor [A; B] {[A; B]} ∅ = Ok (Some [A; B]) ∧
  marginalizeKeysFromFactor [A; B] ∅ ∅ = Ok None.
Proof.
  destruct (marginalize_keep_all_or_none keys linearize EliminateQR
              dynamic_pointer_cast LinearizedJacobianFactor
              [A; B] {[A; B]} ∅) as [Hall _].
  destruct (marginalize_keep_all_or_none keys linearize EliminateQR
              dynamic_pointer_cast LinearizedJacobianFactor
              [A; B] ∅ ∅) as [_ Hnone].
  split.
  - apply Hall. intros key Hkey. simpl in Hkey. set_solver.
  - apply Hnone.
    + discriminate.
    + unfold keys, A, B. repeat constructor; set_solver.
    + intros key _. set_solver.
Defined.


(** C5 on the instance: a first summary on [B] at slot 0, then a second one
    on [C]; looking up [B] afterwards finds no slot of the first summary. *)
Lemma synchronize_twice_no_residue_witness :
  store_wf keys fresh ∧ summary_wf fresh ∧
  ∃ s1 s2,
    synchronize keys [[A; B]] {[A := 0%Z]} [[B]] {[B := 7%Z]} fresh = Ok s1 ∧
    synchronize keys [] ∅ [[C]] {[C := 9%Z]} s1 = Ok s2 ∧
    Forall2 (occupied s2) (filterSummarizationSlots_ s2) [[C]] ∧
    ∀ slot, slot ∈ filterSummarizationSlots_ s1 →
            slot ∉ findFactorsWithAny {[B]} s2.
Proof.
  pose proof (store_wf_new (Value := Z) keys parameters) as Hwf.
  pose proof (summary_wf_new (Value := Z) (NonlinearFactor := Factor)
                parameters) as Hsum.
  split; [exact Hwf|]. split; [exact Hsum|].
  destruct (synchronize_twice_no_residue keys
              [[A; B]] {[A := 0%Z]} [[B]] {[B := 7%Z]}
              [] ∅ [[C]] {[C := 9%Z]} fresh Hwf Hsum)
    as (s1 & s2 & H1 & H2 & _ & Hall & _ & _ & _ & _ & Hfind & _ & _).
  - simpl. rewrite dom_empty_L. set_solver.
  - simpl. rewrite dom_empty_L. set_solver.
  - exists s1, s2. split_and!; [exact H1|exact H2|exact Hall|].
    apply Hfind. intros f key Hf Hk.
    apply list_elem_of_singleton in Hf as ->.
    apply list_elem_of_singleton in Hk as ->.
    vm_compute. set_solver.
Defined.

(** C6 on the instance: the slot of the only factor is freed and taken
    again. *)
Lemma removeFactor_insertFactor_reuse_witness :
  store_wf keys one_factor ∧ occupied one_factor 0 [A; B] ∧
  ∃ s1 slot' s2,
    removeFactor keys 0 one_factor = Ok s1 ∧
    insertFactor keys [C] s1 = Ok (slot', s2) ∧
    slot' = 0 ∧
    (∀ key, 0 ∈ slotsOf (factorIndex_ s2) key ↔ key ∈ keys [C]).
Proof.
  pose proof one_factor_store_wf as Hwf.
  assert (Hocc : occupied one_factor 0 [A; B]) by reflexivity.
  split; [exact Hwf|]. split; [exact Hocc|].
  destruct (removeFactor_insertFactor_reuse keys one_factor 0 [A; B] [C]
              Hwf Hocc)
    as (s1 & slot' & s2 & Hrm & Hins & Hslot & _ & _ & Hidx & _).
  simpl in Hslot. exists s1, slot', s2.
  split_and!; [exact Hrm|exact Hins|exact Hslot|].
  intros key. rewrite (Hidx key). tauto.
Defined.

(** C7: a first [update] with one factor between [A] and [B] and values for
    both reports one iteration, not none; without the values it raises. *)
Lemma update_first_factor_counterexample :
  match update [[A; B]] {[A := 0%Z; B := 0%Z]} fresh with
  | Ok (result, _) => iterations result
  | Fail _ => 0
  end = 1 ∧
  update [[A; B]] ∅ fresh = Fail ValuesKeyDoesNotExist.
Proof. split; vm_compute; reflexivity. Qed.

(** C7 (as the code has it) on the instance. *)
Lemma update_reports_iterations_witness :
  iterate_counts iterate ∧
  ∃ r s', update [[A; B]] {[A := 0%Z; B := 0%Z]} fresh = Ok (r, s') ∧
          1 ≤ iterations r ∧ graph_ s' = [Some [A; B]].
Proof.
  split; [exact iterate_counts_scenario|].
  apply (proj1 (update_reports_iterations keys graph_error iterate
                  checkConvergence summarizeRoot iterate_counts_scenario)
           parameters [A; B] {[A := 0%Z; B := 0%Z]}).
  - apply graph_error_scenario. rewrite dom_insert_L, dom_singleton_L.
    set_solver.
  - intros o Ho. rewrite dom_insert_L, dom_singleton_L in *.
    destruct (iterate_scenario parameters o) as (o' & Ho' & Hd');
      [set_solver|].
    exists o'. split; [done|]. rewrite Hd'. set_solver.
Defined.

(** C8 on the instance: root [B] pinned, a factor between [A] and [B]; after
    [update] the values hold [A] and not [B]. *)
Lemma update_erases_root_keys_witness :
  store_wf keys rooted ∧ iterate_counts iterate ∧
  ∃ r s' o,
    update [] ∅ rooted = Ok (r, s') ∧
    state_values o !! B = Some 7%Z ∧
    theta_ s' !! B = None ∧ theta_ s' !! A = state_values o !! A ∧
    dom (theta_ s') = {[A]}.
Proof.
  assert (Hwf : store_wf keys rooted)
    by by apply (store_wf_ext keys one_factor), one_factor_store_wf.
  split; [exact Hwf|]. split; [exact iterate_counts_scenario|].
  assert (HK : dom (theta_ rooted) ∪ dom (∅ : gmap Key Z)
               ∪ dom (rootValues_ rooted) = {[A; B]}).
  { simpl. rewrite dom_empty_L, !dom_singleton_L. set_solver. }
  destruct (update_erases_root_keys keys graph_error iterate checkConvergence
              summarizeRoot [] ∅ rooted [] rooted Hwf iterate_counts_scenario)
    as (r & s' & o & Hu & _ & Hroot & Hrest & Hdom & _).
  - simpl. rewrite dom_empty_L. set_solver.
  - simpl. rewrite (right_id_L ∅ (∪)), !dom_singleton_L. set_solver.
  - reflexivity.
  - simpl. lia.
  - intros v Hv. apply graph_error_scenario. by rewrite Hv.
  - intros o Ho. rewrite HK in *. by apply iterate_scenario.
  - intros linpoint _. by eexists.
  - exists r, s', o.
    assert (HB : B ∈ dom (rootValues_ rooted)).
    { simpl. rewrite dom_singleton_L. set_solver. }
    assert (HA : A ∉ dom (rootValues_ rooted)).
    { simpl. rewrite dom_singleton_L. unfold A, B. set_solver. }
    destruct (Hroot B HB) as [HoB HsB].
    split_and!; [exact Hu|exact HoB|exact HsB|exact (Hrest A HA)|].
    rewrite Hdom. simpl. rewrite dom_empty_L, dom_singleton_L. set_solver.
Defined.

Lemma holed_store_wf : store_wf keys holed.
Proof.
  assert (Hocc : occupied one_factor 0 [A; B]) by reflexivity.
  destruct (removeFactor_spec keys [A; B] 0 one_factor one_factor_store_wf
              Hocc) as (s' & Hrm & _ & _ & _ & _ & Hwf).
  assert (Heq : removeFactor keys 0 one_factor = Ok holed)
    by (vm_compute; reflexivity).
  rewrite Heq in Hrm. by injection Hrm as <-.
Qed.

Lemma rooted_store_wf : store_wf keys rooted.
Proof. by apply (store_wf_ext keys one_factor), one_factor_store_wf. Qed.

Lemma rooted_summary_wf : summary_wf rooted.
Proof. split; [constructor|]. intros slot Hin. by apply elem_of_nil in Hin. Qed.

Lemma iterate_counts_one_scenario : iterate_counts_one iterate.
Proof. by intros g p o o' [_ Hn]%iterate_inv_scenario. Qed.

(** X1 on the instance: the hole at slot 0 is taken first, the second factor
    is appended. *)
Lemma insertFactors_allocation_witness :
  store_wf keys holed ∧
  ∃ slots s',
    insertFactors keys [[A]; [B; C]] holed = Ok (slots, s') ∧
    slots = [0; 1] ∧ availableSlots_ s' = [] ∧ length (graph_ s') = 2.
Proof.
  pose proof holed_store_wf as Hwf. split; [exact Hwf|].
  destruct (insertFactors_allocation keys [[A]; [B; C]] holed Hwf)
    as (slots & s' & Hins & Hslots & Hav & Hlen).
  exists slots, s'. split_and!; [exact Hins|exact Hslots|exact Hav|exact Hlen].
Defined.

(** X2 on the instance: the only factor is removed once, not twice. *)
Lemma removeFactor_twice_witness :
  store_wf keys one_factor ∧ occupied one_factor 0 [A; B] ∧
  (∃ s1, removeFactor keys 0 one_factor = Ok s1 ∧
         graph_ s1 !! 0 = Some None ∧
         removeFactor keys 0 s1 = Fail (NullDereference StoredFactor)) ∧
  removeFactors keys [0; 0] one_factor = Fail (NullDereference StoredFactor).
Proof.
  pose proof one_factor_store_wf as Hwf.
  assert (Hocc : occupied one_factor 0 [A; B]) by reflexivity.
  split; [exact Hwf|]. split; [exact Hocc|].
  exact (removeFactor_twice keys one_factor 0 [A; B] Hwf Hocc).
Defined.

(** X3 on the instance: a factor put into the hole and taken out again, and
    a factor appended to the empty graph and taken out again. *)
Lemma insertFactor_removeFactor_round_trip_witness :
  store_wf keys holed ∧ store_wf keys fresh ∧
  (∃ slot s1 s2,
     insertFactor keys [C] holed = Ok (slot, s1) ∧
     removeFactor keys slot s1 = Ok s2 ∧
     graph_ s2 = graph_ holed ∧ availableSlots_ s2 = [slot]) ∧
  (∃ slot s1 s2,
     insertFactor keys [C] fresh = Ok (slot, s1) ∧
     removeFactor keys slot s1 = Ok s2 ∧
     graph_ s2 = [None] ∧ availableSlots_ s2 = [slot]).
Proof.
  pose proof holed_store_wf as Hwf.
  pose proof (store_wf_new (Value := Z) keys parameters) as Hwf0.
  split; [exact Hwf|]. split; [exact Hwf0|]. split.
  - destruct (insertFactor keys [C] holed) as [[slot s1]|e] eqn:Hins;
      [|vm_compute in Hins; discriminate Hins].
    destruct (insertFactor_removeFactor_round_trip keys [C] holed slot s1
                Hwf Hins) as (s2 & Hrm & Hg & Hav & _).
    exists slot, s1, s2.
    split_and!; [reflexivity|exact Hrm|exact Hg|exact Hav].
  - destruct (insertFactor keys [C] fresh) as [[slot s1]|e] eqn:Hins;
      [|vm_compute in Hins; discriminate Hins].
    destruct (insertFactor_removeFactor_round_trip keys [C] fresh slot s1
                Hwf0 Hins) as (s2 & Hrm & Hg & Hav & _).
    exists slot, s1, s2.
    split_and!; [reflexivity|exact Hrm|exact Hg|exact Hav].
Defined.

(** X4 on the instance. *)
Lemma findFactorsWithAny_exact_witness :
  store_wf keys one_factor ∧
  (∀ slot, slot ∈ findFactorsWithAny {[A]} one_factor ↔
           ∃ f, occupied one_factor slot f ∧
                ∃ key, key ∈ ({[A]} : gset Key) ∧ key ∈ keys f) ∧
  findFactorsWithAny ∅ one_factor = ∅.
Proof.
  pose proof one_factor_store_wf as Hwf. split; [exact Hwf|].
  destruct (findFactorsWithAny_exact keys {[A]} one_factor Hwf)
    as (Hany & _ & Hnone).
  split; [exact Hany|exact Hnone].
Defined.

(** X5 on the instance. *)
Lemma findFactorsWithOnly_exact_witness :
  store_wf keys one_factor ∧
  ∃ found : gset nat,
    findFactorsWithOnly keys {[A; B]} one_factor = Ok found ∧
    ∀ slot, slot ∈ found ↔
            ∃ f, occupied one_factor slot f ∧ keys f ≠ [] ∧
                 ∀ key, key ∈ keys f → key ∈ ({[A; B]} : gset Key).
Proof.
  pose proof one_factor_store_wf as Hwf. split; [exact Hwf|].
  exact (findFactorsWithOnly_exact keys {[A; B]} one_factor Hwf).
Defined.

(** X6 on the instance: the smoother after a first [update]. *)
Lemma reachable_well_formed_witness :
  ∃ r s',
    update [[A; B]] {[A := 0%Z; B := 0%Z]} fresh = Ok (r, s') ∧
    reachable keys graph_error iterate checkConvergence summarizeRoot s' ∧
    store_wf keys s' ∧ summary_wf s'.
Proof.
  destruct (update [[A; B]] {[A := 0%Z; B := 0%Z]} fresh) as [[r s']|e] eqn:Hu;
    [|vm_compute in Hu; discriminate Hu].
  assert (Hreach : reachable keys graph_error iterate checkConvergence
                     summarizeRoot s').
  { exact (reachable_update keys graph_error iterate checkConvergence
             summarizeRoot _ _ fresh r s' (reachable_new _ _ _ _ _ parameters)
             Hu). }
  exists r, s'. split; [reflexivity|]. split; [exact Hreach|].
  exact (reachable_well_formed keys graph_error iterate checkConvergence
           summarizeRoot s' Hreach).
Defined.

(** X7 on the instance: new values for [A] are taken by the fresh smoother
    and refused by the one that has a value for [A]. *)
Lemma synchronize_returns_iff_fresh_values_witness :
  store_wf keys rooted ∧ summary_wf rooted ∧
  (∃ s', synchronize keys [] {[C := 1%Z]} [[B]] {[B := 7%Z]} rooted = Ok s' ∧
         smootherSummarization_ s' = smootherSummarization_ rooted) ∧
  synchronize keys [] {[A := 1%Z]} [[B]] {[B := 7%Z]} rooted
  = Fail ValuesKeyAlreadyExists.
Proof.
  pose proof rooted_store_wf as Hwf. pose proof rooted_summary_wf as Hsum.
  split; [exact Hwf|]. split; [exact Hsum|]. split.
  - destruct (proj1 (synchronize_returns_iff_fresh_values keys
                       [] {[C := 1%Z]} [[B]] {[B := 7%Z]} rooted Hwf Hsum))
      as (s' & Hs' & Hss & _).
    + simpl. rewrite !dom_singleton_L. set_solver.
    + exists s'. split; [exact Hs'|exact Hss].
  - apply (proj2 (synchronize_returns_iff_fresh_values keys
                    [] {[A := 1%Z]} [[B]] {[B := 7%Z]} rooted Hwf Hsum)).
    simpl. rewrite !dom_singleton_L. set_solver.
Defined.

(** X8 on the instance: the first summarization gets the first slot. *)
Lemma synchronize_takes_over_slots_witness :
  store_wf keys fresh ∧ summary_wf fresh ∧
  ∃ s', synchronize keys [[A; B]] {[A := 0%Z]} [[B]] {[B := 7%Z]} fresh
        = Ok s' ∧
        filterSummarizationSlots_ s' = [0].
Proof.
  pose proof (store_wf_new (Value := Z) keys parameters) as Hwf.
  pose proof (summary_wf_new (Value := Z) (NonlinearFactor := Factor)
                parameters) as Hsum.
  split; [exact Hwf|]. split; [exact Hsum|].
  destruct (synchronize keys [[A; B]] {[A := 0%Z]} [[B]] {[B := 7%Z]} fresh)
    as [s'|e] eqn:Hs; [|vm_compute in Hs; discriminate Hs].
  exists s'. split; [reflexivity|].
  exact (synchronize_takes_over_slots keys [[A; B]] {[A := 0%Z]} [[B]]
           {[B := 7%Z]} fresh s' Hwf Hsum Hs).
Defined.

(** X9 on the instance: a second value for [A], and a value for the root
    key [B]. *)
Lemma update_key_collisions_witness :
  store_wf keys rooted ∧
  update [] {[A := 5%Z]} rooted = Fail ValuesKeyAlreadyExists ∧
  update [] {[B := 5%Z]} rooted = Fail ValuesKeyAlreadyExists.
Proof.
  pose proof rooted_store_wf as Hwf. split; [exact Hwf|]. split.
  - apply (proj1 (update_key_collisions keys graph_error iterate
                    checkConvergence summarizeRoot [] {[A := 5%Z]} rooted
                    Hwf)).
    simpl. rewrite !dom_singleton_L. set_solver.
  - apply (proj2 (update_key_collisions keys graph_error iterate
                    checkConvergence summarizeRoot [] {[B := 5%Z]} rooted
                    Hwf)).
    + simpl. rewrite !dom_singleton_L. set_solver.
    + left. discriminate.
    + simpl. rewrite dom_union_L, !dom_singleton_L. set_solver.
Defined.

(** X10 on the instance. *)
Lemma update_reports_witness :
  has_root rooted = true ∧
  ∃ r s',
    update [] ∅ rooted = Ok (r, s') ∧ 0 < length (graph_ s') ∧
    nonlinearVariables r = size (theta_ s') ∧
    linearVariables r = size (rootValues_ s') ∧
    graph_error (graph_ s') (theta_ s' ∪ rootValues_ s') = Ok (error r).
Proof.
  assert (Hroot : has_root rooted = true) by (vm_compute; reflexivity).
  split; [exact Hroot|].
  destruct (update [] ∅ rooted) as [[r s']|e] eqn:Hu;
    [|vm_compute in Hu; discriminate Hu].
  assert (Hlen : 0 < length (graph_ s')).
  { pose proof Hu as Hc. vm_compute in Hc. injection Hc as _ <-. simpl. lia. }
  destruct (update_reports keys graph_error iterate checkConvergence
              summarizeRoot [] ∅ rooted r s' Hu Hlen) as (Hn & Hl & He).
  exists r, s'.
  split_and!; [reflexivity|exact Hlen|exact Hn|exact Hl|exact (He Hroot)].
Defined.

(** X11 on the instance. *)
Lemma update_iteration_cap_witness :
  iterate_counts_one iterate ∧
  ∃ r s',
    update [] ∅ rooted = Ok (r, s') ∧ 0 < length (graph_ s') ∧
    1 ≤ iterations r ∧ iterations r ≤ 100.
Proof.
  split; [exact iterate_counts_one_scenario|].
  destruct (update [] ∅ rooted) as [[r s']|e] eqn:Hu;
    [|vm_compute in Hu; discriminate Hu].
  assert (Hlen : 0 < length (graph_ s')).
  { pose proof Hu as Hc. vm_compute in Hc. injection Hc as _ <-. simpl. lia. }
  destruct (update_iteration_cap keys graph_error iterate checkConvergence
              summarizeRoot [] ∅ rooted r s' iterate_counts_one_scenario
              Hu Hlen) as (Hlo & Hhi).
  exists r, s'. split_and!; [reflexivity|exact Hlen|exact Hlo|exact Hhi].
Defined.

(** X12 on the instance: a second factor joins the first one. *)
Lemma update_keeps_factors_witness :
  store_wf keys one_factor ∧
  ∃ r s',
    update [[B; C]] {[A := 0%Z; B := 0%Z; C := 0%Z]} one_factor = Ok (r, s') ∧
    occupied s' 0 [A; B] ∧ ∃ slot, occupied s' slot [B; C].
Proof.
  pose proof one_factor_store_wf as Hwf. split; [exact Hwf|].
  destruct (update [[B; C]] {[A := 0%Z; B := 0%Z; C := 0%Z]} one_factor)
    as [[r s']|e] eqn:Hu; [|vm_compute in Hu; discriminate Hu].
  destruct (update_keeps_factors keys graph_error iterate checkConvergence
              summarizeRoot [[B; C]] {[A := 0%Z; B := 0%Z; C := 0%Z]}
              one_factor r s' Hwf Hu) as (Hold & Hnew & _).
  exists r, s'. split_and!; [reflexivity| |].
  - apply Hold. reflexivity.
  - apply Hnew. left.
Defined.

(** X15 on the instance: of the factor between [A] and [B], with [B] kept,
    [A] is eliminated first and the factor on [B] is left. *)
Lemma marginalize_general_result_witness :
  size (discarded keys [A; B] {[B]}) = 1 ∧
  marginalOrdering keys [A; B] {[B]} = [A; B] ∧
  marginalizeKeysFromFactor [A; B] {[B]} ∅ = Ok (Some [B]).
Proof.
  assert (Hsize : size (discarded keys [A; B] {[B]}) = 1)
    by (vm_compute; reflexivity).
  assert (Hord : marginalOrdering keys [A; B] {[B]} = [A; B])
    by (vm_compute; reflexivity).
  split; [exact Hsize|]. split; [exact Hord|].
  destruct (marginalize_general_result keys linearize EliminateQR
              dynamic_pointer_cast LinearizedJacobianFactor
              [A; B] {[B]} ∅ (marginalOrdering keys [A; B] {[B]})
              [A] [B] [B]) as (Hres & _).
  - rewrite Hsize. discriminate.
  - rewrite Hsize. discriminate.
  - reflexivity.
  - rewrite Hsize, Hord. reflexivity.
  - reflexivity.
  - exact Hres.
Defined.

(** X16 on the instance. *)
Lemma equals_reflexive_witness :
  (0 <= q 1)%Qc ∧
  GaussianConditional.equals conditional conditional (q 1) = true.
Proof.
  assert (Htol : (0 <= q 1)%Qc) by (vm_compute; discriminate).
  split; [exact Htol|].
  exact (GaussianConditionalProperties.equals_reflexive conditional (q 1)
           Htol).
Defined.

(** X18 on the instance: two conditionals that differ by 1 in an entry of
    [d], compared within 1. *)
Lemma equals_same_parents_witness :
  GaussianConditional.equals conditional conditional_near (q 1) = true ∧
  dom (GaussianConditional.parents_ conditional)
  = dom (GaussianConditional.parents_ conditional_near).
Proof.
  assert (Heq : GaussianConditional.equals conditional conditional_near (q 1)
                = true) by (vm_compute; reflexivity).
  split; [exact Heq|].
  exact (proj1 (proj2 (GaussianConditionalProperties.equals_same_parents
                         conditional conditional_near (q 1) Heq))).
Defined.

(** X20 on the instance: the assignment has a value for the only parent. *)
Lemma solve_returns_iff_witness :
  GaussianConditional.well_formed conditional = true ∧
  GaussianConditional.dimensions_agree conditional assignment ∧
  ∃ v, GaussianConditional.solve conditional assignment = Ok v ∧
       length v = 2.
Proof.
  assert (Hwf : GaussianConditional.well_formed conditional = true)
    by (vm_compute; reflexivity).
  assert (Hdim : GaussianConditional.dimensions_agree conditional assignment).
  { intros j M xj HM Hxj. unfold assignment in Hxj.
    apply lookup_singleton_Some in Hxj as [<- <-].
    assert (HM' : GaussianConditional.parents_ conditional !! y1
                  = Some [[q 1]; [q 2]]) by (vm_compute; reflexivity).
    rewrite HM' in HM. injection HM as <-. by repeat constructor. }
  split; [exact Hwf|]. split; [exact Hdim|].
  apply (proj1 (GaussianConditionalProperties.solve_returns_iff
                  conditional assignment Hwf Hdim)).
  intros p Hp. vm_compute in Hp.
  apply list_elem_of_singleton in Hp as ->. by eexists.
Defined.

(** X21 on the instance: a value for [x1], which is no parent, changes
    nothing. *)
Lemma solve_reads_parents_only_witness :
  GaussianConditional.solve conditional assignment
  = GaussianConditional.solve conditional (<[x1 := [q 3]]> assignment).
Proof.
  apply (GaussianConditionalProperties.solve_reads_parents_only
           conditional assignment (<[x1 := [q 3]]> assignment)).
  intros p Hp. vm_compute in Hp.
  apply list_elem_of_singleton in Hp as ->. reflexivity.
Defined.

(** X24 on the instance: [[1 2] [1; 1] + [3] [2] = 9]. *)
Lemma LinearCostN_error_witness :
  (∀ key, key ∈ cost_terms.*1 → is_Some (cost_values !! key)) ∧
  LinearCost.error
    (LinearCost.LinearCostN
       (prod_map id LinearCost.as_matrix <$> cost_terms)) cost_values
  = Ok (q 9).
Proof.
  assert (Hc : ∀ key, key ∈ cost_terms.*1 → is_Some (cost_values !! key)).
  { intros key Hkey. simpl in Hkey.
    apply elem_of_cons in Hkey as [->|Hkey]; [by eexists|].
    apply list_elem_of_singleton in Hkey as ->. by eexists. }
  split; [exact Hc|].
  rewrite (proj2 (LinearCostProperties.LinearCostN_error cost_terms
                    cost_values Hc)).
  f_equal; try (apply Qc_is_canon; reflexivity).
Defined.

End ScenarioProperties.
